(** * FunctionGraph: a shallow embedding of [aesara/graph/fg.py]

    The container keeps, for a subgraph bound by input and output variables,
    the member nodes, the member variables and the back-edges ([clients]).
    Python objects are handles: a [Var], an [Apply] node and a [Feature] are
    numbers, and object identity ([is]) is equality of handles.  What fg.py
    never mutates (a variable's type and owner, a node's outputs and its op's
    maps) lives in an environment [Env]; what it mutates (the container's
    fields, [node.inputs], the [tag] audit lists) lives in [State].  Every
    method is a function in a state-and-exception monad: a Python exception
    leaves the mutations done so far in place. *)

From stdpp Require Import gmap strings list fin_maps fin_sets.
From Stdlib Require Import ZArith Lia.

Open Scope Z_scope.

(** ** Handles and plain data *)

Abbreviation Var := positive (only parsing).
Abbreviation Apply := positive (only parsing).
Abbreviation Feature := positive (only parsing).
(** A [Type] object; [==] on types is equality of handles. *)
Abbreviation Ty := nat (only parsing).
Abbreviation Reason := (option string) (only parsing).
Abbreviation Shape := (list Z) (only parsing).

(** [str(reason)] *)
Definition str_reason (reason : Reason) : string :=
  match reason with
  | Some r => r
  | None => "None"
  end.

(** A client is an [Apply] node or the string ["output"]. *)
Inductive Client :=
  | COutput
  | CNode (n : Apply).

#[global] Instance Client_eq_dec : EqDecision Client.
Proof. solve_decision. Defined.

(** A back-edge [(node, i)]. *)
Abbreviation Edge := (Client * Z)%type (only parsing).

(** The exceptions fg.py raises or lets through. [Exception] is the plain
    [Exception] of [setup_node]; [FeatureError] stands for whatever else a
    listener raises. *)
Inductive Exc :=
  | ValueError
  | KeyError
  | IndexError
  | TypeError
  | AttributeError
  | AssertionError
  | MissingInputError
  | Exception
  | AlreadyThere
  | InconsistencyError
  | FeatureError (code : nat).

#[global] Instance Exc_eq_dec : EqDecision Exc.
Proof. solve_decision. Defined.

(** A callback invocation: the method name with its arguments. *)
Inductive HookName :=
  | on_attach
  | on_detach
  | on_import
  | on_prune
  | on_change_input.

#[global] Instance HookName_eq_dec : EqDecision HookName.
Proof. solve_decision. Defined.

Inductive Hook :=
  | OnAttach
  | OnDetach
  | OnImport (node : Apply) (reason : Reason)
  | OnPrune (node : Apply) (reason : Reason)
  | OnChangeInput (node : Client) (i : Z) (r new_var : Var) (reason : Reason).

#[global] Instance Hook_eq_dec : EqDecision Hook.
Proof. solve_decision. Defined.

Definition hook_name (h : Hook) : HookName :=
  match h with
  | OnAttach => on_attach
  | OnDetach => on_detach
  | OnImport _ _ => on_import
  | OnPrune _ _ => on_prune
  | OnChangeInput _ _ _ _ _ => on_change_input
  end.

(** What [replace] writes outside the container. *)
Inductive IOEvent :=
  | Printed (reason : Reason) (var new_var : Var)
  | Warned (var : Var).

(** ** Python list indexing

    [l[i]] with a Python [int]: a negative index counts from the end, and an
    index outside [-len, len) raises [IndexError] ([None] here). *)

Definition py_index {A} (l : list A) (i : Z) : option nat :=
  let n := Z.of_nat (length l) in
  if decide (0 ≤ i < n) then Some (Z.to_nat i)
  else if decide (- n ≤ i < 0) then Some (Z.to_nat (n + i))
  else None.

Definition py_getitem {A} (l : list A) (i : Z) : option A :=
  match py_index l i with
  | Some k => l !! k
  | None => None
  end.

Definition py_setitem {A} (l : list A) (i : Z) (x : A) : option (list A) :=
  match py_index l i with
  | Some k => Some (<[k:=x]> l)
  | None => None
  end.

(** [enumerate(l)] *)
Fixpoint enumerate_from {A} (k : nat) (l : list A) : list (Z * A) :=
  match l with
  | [] => []
  | x :: l' => (Z.of_nat k, x) :: enumerate_from (S k) l'
  end.

Definition enumerate {A} (l : list A) : list (Z * A) := enumerate_from 0 l.

(** [l.remove(x)]: drops the first element equal to [x]; [None] is the
    [ValueError] of a list without [x]. *)
Fixpoint list_remove {A} `{EqDecision A} (x : A) (l : list A) : option (list A) :=
  match l with
  | [] => None
  | y :: l' =>
      if decide (y = x) then Some l'
      else match list_remove x l' with
           | Some r => Some (y :: r)
           | None => None
           end
  end.

(** ** The state *)

Record State := mkState {
  (** [Apply.inputs] of every node object; a node without an entry has no
      inputs. *)
  node_inputs : gmap Apply (list Var);
  (** [node.tag.imported_by] and [node.tag.removed_by]; no entry: the
      attribute is not set. *)
  imported_by : gmap Apply (list string);
  removed_by : gmap Apply (list string);
  (** the container's fields *)
  inputs : list Var;
  outputs : list Var;
  variables : gset Var;
  apply_nodes : gset Apply;
  clients : gmap Var (list Edge);
  _features : list Feature;
  (** the keys of [execute_callbacks_times] (the values are clock readings) *)
  execute_callbacks_times : gset Feature;
  (** every callback invoked so far, oldest first *)
  calls : list (Feature * Hook);
  (** prints and warnings, oldest first *)
  io : list IOEvent
}.

Definition set_node_inputs (f : gmap Apply (list Var) → gmap Apply (list Var)) (s : State) : State :=
  mkState (f (node_inputs s)) (imported_by s) (removed_by s) (inputs s) (outputs s)
    (variables s) (apply_nodes s) (clients s) (_features s)
    (execute_callbacks_times s) (calls s) (io s).

Definition set_imported_by (f : gmap Apply (list string) → gmap Apply (list string)) (s : State) : State :=
  mkState (node_inputs s) (f (imported_by s)) (removed_by s) (inputs s) (outputs s)
    (variables s) (apply_nodes s) (clients s) (_features s)
    (execute_callbacks_times s) (calls s) (io s).

Definition set_removed_by (f : gmap Apply (list string) → gmap Apply (list string)) (s : State) : State :=
  mkState (node_inputs s) (imported_by s) (f (removed_by s)) (inputs s) (outputs s)
    (variables s) (apply_nodes s) (clients s) (_features s)
    (execute_callbacks_times s) (calls s) (io s).

Definition set_inputs (f : list Var → list Var) (s : State) : State :=
  mkState (node_inputs s) (imported_by s) (removed_by s) (f (inputs s)) (outputs s)
    (variables s) (apply_nodes s) (clients s) (_features s)
    (execute_callbacks_times s) (calls s) (io s).

Definition set_outputs (f : list Var → list Var) (s : State) : State :=
  mkState (node_inputs s) (imported_by s) (removed_by s) (inputs s) (f (outputs s))
    (variables s) (apply_nodes s) (clients s) (_features s)
    (execute_callbacks_times s) (calls s) (io s).

Definition set_variables (f : gset Var → gset Var) (s : State) : State :=
  mkState (node_inputs s) (imported_by s) (removed_by s) (inputs s) (outputs s)
    (f (variables s)) (apply_nodes s) (clients s) (_features s)
    (execute_callbacks_times s) (calls s) (io s).

Definition set_apply_nodes (f : gset Apply → gset Apply) (s : State) : State :=
  mkState (node_inputs s) (imported_by s) (removed_by s) (inputs s) (outputs s)
    (variables s) (f (apply_nodes s)) (clients s) (_features s)
    (execute_callbacks_times s) (calls s) (io s).

Definition set_clients (f : gmap Var (list Edge) → gmap Var (list Edge)) (s : State) : State :=
  mkState (node_inputs s) (imported_by s) (removed_by s) (inputs s) (outputs s)
    (variables s) (apply_nodes s) (f (clients s)) (_features s)
    (execute_callbacks_times s) (calls s) (io s).

Definition set_features (f : list Feature → list Feature) (s : State) : State :=
  mkState (node_inputs s) (imported_by s) (removed_by s) (inputs s) (outputs s)
    (variables s) (apply_nodes s) (clients s) (f (_features s))
    (execute_callbacks_times s) (calls s) (io s).

Definition set_times (f : gset Feature → gset Feature) (s : State) : State :=
  mkState (node_inputs s) (imported_by s) (removed_by s) (inputs s) (outputs s)
    (variables s) (apply_nodes s) (clients s) (_features s)
    (f (execute_callbacks_times s)) (calls s) (io s).

Definition set_calls (f : list (Feature * Hook) → list (Feature * Hook)) (s : State) : State :=
  mkState (node_inputs s) (imported_by s) (removed_by s) (inputs s) (outputs s)
    (variables s) (apply_nodes s) (clients s) (_features s)
    (execute_callbacks_times s) (f (calls s)) (io s).

Definition set_io (f : list IOEvent → list IOEvent) (s : State) : State :=
  mkState (node_inputs s) (imported_by s) (removed_by s) (inputs s) (outputs s)
    (variables s) (apply_nodes s) (clients s) (_features s)
    (execute_callbacks_times s) (calls s) (f (io s)).

(** [node.inputs] *)
Definition inputs_of (s : State) (n : Apply) : list Var :=
  default [] (node_inputs s !! n).

(** The value of a slot: [outputs[i]] for ["output"], [node.inputs[i]] for a
    node. *)
Definition slot (s : State) (c : Client) (i : Z) : option Var :=
  match c with
  | COutput => py_getitem (outputs s) i
  | CNode n => py_getitem (inputs_of s n) i
  end.

(** ** The monad: state and exceptions *)

Inductive Res (A : Type) :=
  | Ret (a : A) (s : State)
  | Exn (e : Exc) (s : State).
Arguments Ret {A} a s.
Arguments Exn {A} e s.

Definition M (A : Type) : Type := State → Res A.

Definition ret {A} (a : A) : M A := λ s, Ret a s.
Definition raise {A} (e : Exc) : M A := λ s, Exn e s.
Definition bind {A B} (m : M A) (k : A → M B) : M B :=
  λ s, match m s with
       | Ret a s' => k a s'
       | Exn e s' => Exn e s'
       end.
Definition gets {A} (f : State → A) : M A := λ s, Ret (f s) s.
Definition modify (f : State → State) : M unit := λ s, Ret tt (f s).

Notation "'let*' x := m 'in' k" := (bind m (λ x, k))
  (at level 10, x pattern, m at level 100, k at level 200).

(** The state a call leaves, however it ends. *)
Definition final {A} (r : Res A) : State :=
  match r with
  | Ret _ s => s
  | Exn _ s => s
  end.

(** [for x in l: f(x)] over a list fixed before the loop. *)
Fixpoint for_each {A} (f : A → M unit) (l : list A) : M unit :=
  match l with
  | [] => ret tt
  | x :: l' => let* _ := f x in for_each f l'
  end.

(** ** The environment: immutable attributes and collaborators *)

Record Env := mkEnv {
  (** [var.type] *)
  var_type : Var → Ty;
  (** [var.owner] *)
  var_owner : Var → option Apply;
  (** [isinstance(var, Constant)] *)
  is_Constant : Var → bool;
  (** [isinstance(type, NullType)] *)
  is_NullType : Ty → bool;
  (** [node.outputs] *)
  node_outputs : Apply → list Var;
  (** [node.op.view_map] is non-empty and one of its values is not a list or
      tuple; likewise for [destroy_map] *)
  bad_view_map : Apply → bool;
  bad_destroy_map : Apply → bool;
  (** [type.filter_variable(var, allow_convert=True)]: a variable, or an
      exception *)
  filter_variable : Ty → Var → Exc + Var;
  (** [aesara.graph.basic.io_toposort(inputs, outputs)], reading the nodes'
      current inputs *)
  io_toposort : gmap Apply (list Var) → gset Var → list Var → list Apply;
  (** [aesara.graph.basic.graph_inputs(outputs)] *)
  graph_inputs : gmap Apply (list Var) → list Var → list Var;
  (** [aesara.graph.basic.clone_get_equiv(inputs, outputs, ...)]: the clones'
      input lists added to the node store, and the memo *)
  clone_get_equiv : gmap Apply (list Var) → list Var → list Var →
                    gmap Apply (list Var) * gmap Var Var;
  (** [getattr(get_test_value(var), "shape", None)]; the outer [None] is
      [TestValueError] *)
  test_value_shape : Var → option (option Shape);
  (** [config.optimizer_verbose] and [config.compute_test_value != "off"] *)
  optimizer_verbose : bool;
  compute_test_value : bool;
  (** the feature has a method of that name *)
  has_method : Feature → HookName → bool;
  (** calling the method: a listener reads the container (and the history of
      calls, which stands for its own memory) and returns or raises *)
  call_method : Feature → Hook → State → option Exc;
  (** the instance the constructor makes with [ReplaceValidate()] *)
  ReplaceValidate : Feature;
  (** [bool(var)], which [any] takes of what it is given. The classes of
      variables are not among the sources: a variable is true ([None])
      unless its class makes [bool] raise ([Some e]). A class with neither
      [__bool__] nor [__len__] is true; a tensor variable that is the result
      of a comparison raises [TypeError], and so does a typed-list variable,
      whose [__len__] returns no [int]. *)
  var_bool : Var → option Exc
}.

(** ** The methods of [FunctionGraph] *)

Section Methods.
Variable E : Env.

(** [execute_callbacks(name, *args)]: every feature that has the method is
    called, then its entry of [execute_callbacks_times] is updated
    ([KeyError] when it has none). *)
Definition call_feature (f : Feature) (h : Hook) : M unit :=
  λ s, let s' := set_calls (λ c, c ++ [(f, h)]) s in
       match call_method E f h s with
       | Some e => Exn e s'
       | None => Ret tt s'
       end.

Definition execute_callback (h : Hook) (f : Feature) : M unit :=
  if has_method E f (hook_name h) then
    let* _ := call_feature f h in
    let* times := gets execute_callbacks_times in
    if decide (f ∈ times) then ret tt else raise KeyError
  else ret tt.

Definition execute_callbacks (h : Hook) : M unit :=
  let* fs := gets _features in
  for_each (execute_callback h) fs.

(** [setup_var]: [self.clients.setdefault(var, [])] *)
Definition setup_var (var : Var) : M unit :=
  modify (set_clients (λ c, match c !! var with
                            | Some _ => c
                            | None => <[var:=[]]> c
                            end)).

Definition variables_add (var : Var) : M unit :=
  modify (set_variables (λ vs, vs ∪ {[var]})).

Definition add_input (var : Var) (check : bool) : M unit :=
  let* ins := gets inputs in
  if check && bool_decide (var ∈ ins) then ret tt
  else
    let* _ := modify (set_inputs (λ l, l ++ [var])) in
    let* _ := setup_var var in
    variables_add var.

Definition setup_node (node : Apply) : M unit :=
  if bad_view_map E node then raise Exception
  else if bad_destroy_map E node then raise Exception
  else ret tt.

Definition get_clients (var : Var) : M (list Edge) :=
  let* c := gets clients in
  match c !! var with
  | Some cs => ret cs
  | None => raise KeyError
  end.

(** [self.clients[var].append(new_client)] *)
Definition add_client (var : Var) (new_client : Edge) : M unit :=
  let* cs := get_clients var in
  modify (set_clients <[var := cs ++ [new_client]]>).

(** [bool(var)]: the value, or the exception. *)
Definition truth_value (var : Var) : Exc + bool :=
  match var_bool E var with
  | Some e => inl e
  | None => inr true
  end.

(** [any(output for output in apply_node.outputs if self.clients[output])]:
    the generator reads the outputs in order and yields those with a
    non-empty client list, and [any] takes [bool] of each output yielded,
    up to the first that is true. An output without an entry in [clients]
    met before that is a [KeyError], and an output whose [bool] raises is
    that exception. *)
Fixpoint any_output_has_clients (c : gmap Var (list Edge)) (outs : list Var) : Exc + bool :=
  match outs with
  | [] => inr false
  | o :: outs' =>
      match c !! o with
      | None => inl KeyError
      | Some [] => any_output_has_clients c outs'
      | Some (_ :: _) =>
          match truth_value o with
          | inl e => inl e
          | inr true => inr true
          | inr false => any_output_has_clients c outs'
          end
      end
  end.

(** The callbacks [execute_callbacks] makes when every one of them
    returns: one per feature that has the method, in the order of the
    feature list. *)
Definition callbacks_of (h : Hook) (fs : list Feature) : list (Feature * Hook) :=
  (λ f, (f, h)) <$> filter (λ f, has_method E f (hook_name h) = true) fs.

(** The end of a turn of the [while removal_stack] loop of [remove_client],
    reached when [var_clients] is empty or [None]: [var] is taken to have
    no client left. The result is the list of entries appended to the
    stack, in the order of the appends. *)
Definition remove_unused (var : Var) (reason : Reason) : M (list (Var * Edge)) :=
  match var_owner E var with
  | None =>
      let* vs := gets variables in
      if decide (var ∈ vs) then
        let* _ := modify (set_variables (λ vs, vs ∖ {[var]})) in ret []
      else raise KeyError
  | Some apply_node =>
      let* c := gets clients in
      match any_output_has_clients c (node_outputs E apply_node) with
      | inl e => raise e
      | inr true => ret []
      | inr false =>
          let* _ := modify (set_removed_by (λ t,
                      <[apply_node := default [] (t !! apply_node) ++ [str_reason reason]]> t)) in
          let* ns := gets apply_nodes in
          if decide (apply_node ∈ ns) then
            let* _ := modify (set_apply_nodes (λ ns, ns ∖ {[apply_node]})) in
            let* _ := modify (set_variables (λ vs,
                        vs ∖ list_to_set (node_outputs E apply_node))) in
            let* _ := execute_callbacks (OnPrune apply_node reason) in
            let* ins := gets (λ s, inputs_of s apply_node) in
            ret ((λ '(i, in_var), (in_var, (CNode apply_node, i))) <$> enumerate ins)
          else raise KeyError
      end
  end.

(** One turn of the loop, for the popped entry [(var, client_to_remove)].
    [var_clients] is the list left after the removal, or [None] when the
    edge was not in it ([except ValueError]). *)
Definition remove_client_step (var : Var) (client_to_remove : Edge) (reason : Reason)
    : M (list (Var * Edge)) :=
  let* cs := get_clients var in
  let* var_clients :=
    match list_remove client_to_remove cs with
    | Some cs' => let* _ := modify (set_clients <[var := cs']>) in ret (Some cs')
    | None => ret None
    end in
  match var_clients with
  | Some (_ :: _) => ret []
  | _ => remove_unused var reason
  end.

(** The loop itself. The stack is kept with its top first, so the entries
    a turn appends go on in reverse. [None]: the fuel ran out before the
    stack was empty. *)
Fixpoint remove_client_loop (fuel : nat) (removal_stack : list (Var * Edge))
    (reason : Reason) (s : State) : option (Res unit) :=
  match removal_stack with
  | [] => Some (Ret tt s)
  | (var, client_to_remove) :: rest =>
      match fuel with
      | O => None
      | S fuel' =>
          match remove_client_step var client_to_remove reason s with
          | Ret pushed s' => remove_client_loop fuel' (reverse pushed ++ rest) reason s'
          | Exn e s' => Some (Exn e s')
          end
      end
  end.

(** A bound on the number of turns: every turn pops an entry, and only the
    removal of a member node, with one entry per input, pushes any. *)
Definition removal_fuel (s : State) : nat :=
  S (sum_list ((λ n, S (length (inputs_of s n))) <$> elements (apply_nodes s))).

Definition remove_client (var : Var) (client_to_remove : Edge) (reason : Reason) : M unit :=
  λ s, match remove_client_loop (removal_fuel s) [(var, client_to_remove)] reason s with
       | Some r => r
       | None => Exn KeyError s
       end.

(** [var.owner is None and not isinstance(var, Constant) and var not in
    self.inputs] *)
Definition is_missing_input (s : State) (var : Var) : bool :=
  bool_decide (var_owner E var = None) && negb (is_Constant E var)
  && negb (bool_decide (var ∈ inputs s)).

(** The [if check:] loop of [import_node]. *)
Definition import_node_check (import_missing : bool) (node : Apply) : M unit :=
  let* ins := gets (λ s, inputs_of s node) in
  for_each (λ var,
    let* missing := gets (λ s, is_missing_input s var) in
    if missing then
      if import_missing then add_input var true
      else raise MissingInputError
    else ret tt) ins.

(** The body of the second loop of [import_node]. *)
Definition import_new_node (reason : Reason) (node : Apply) : M unit :=
  let* ns := gets apply_nodes in
  if decide (node ∈ ns) then raise AssertionError
  else
    let* _ := setup_node node in
    let* _ := modify (set_apply_nodes (λ ns, ns ∪ {[node]})) in
    let* _ := modify (set_imported_by (λ t,
                <[node := default [] (t !! node) ++ [str_reason reason]]> t)) in
    let* _ := for_each (λ output,
                let* _ := setup_var output in variables_add output)
                (node_outputs E node) in
    let* ins := gets (λ s, inputs_of s node) in
    let* _ := for_each (λ '(i, input),
                let* vs := gets variables in
                let* _ := (if decide (input ∈ vs) then ret tt
                           else let* _ := setup_var input in variables_add input) in
                add_client input (CNode node, i))
                (enumerate ins) in
    execute_callbacks (OnImport node reason).

Definition import_node (apply_node : Apply) (check : bool) (reason : Reason)
    (import_missing : bool) : M unit :=
  let* new_nodes := gets (λ s,
    io_toposort E (node_inputs s) (variables s) (node_outputs E apply_node)) in
  let* _ := (if check then for_each (import_node_check import_missing) new_nodes
             else ret tt) in
  for_each (import_new_node reason) new_nodes.

Definition import_var (var : Var) (reason : Reason) (import_missing : bool) : M unit :=
  let* ns := gets apply_nodes in
  let* missing := gets (λ s, is_missing_input s var) in
  let* _ :=
    match var_owner E var with
    | Some owner =>
        if decide (owner ∈ ns) then ret tt
        else import_node owner true reason import_missing
    | None =>
        if missing then
          if is_NullType E (var_type E var) then raise TypeError
          else if import_missing then add_input var true
          else raise MissingInputError
        else ret tt
    end in
  let* _ := setup_var var in
  variables_add var.

(** The first half of [change_input]: read the slot, compare the types,
    write the slot; the result is the old value [r]. *)
Definition change_slot (node : Client) (i : Z) (new_var : Var) : M Var :=
  match node with
  | COutput =>
      let* outs := gets outputs in
      match py_getitem outs i, py_setitem outs i new_var with
      | Some r, Some outs' =>
          if decide (var_type E r = var_type E new_var) then
            let* _ := modify (set_outputs (λ _, outs')) in ret r
          else raise TypeError
      | _, _ => raise IndexError
      end
  | CNode n =>
      let* ins := gets (λ s, inputs_of s n) in
      match py_getitem ins i, py_setitem ins i new_var with
      | Some r, Some ins' =>
          if decide (var_type E r = var_type E new_var) then
            let* _ := modify (set_node_inputs <[n := ins']>) in ret r
          else raise TypeError
      | _, _ => raise IndexError
      end
  end.

Definition change_input (node : Client) (i : Z) (new_var : Var) (reason : Reason)
    (import_missing : bool) : M unit :=
  let* r := change_slot node i new_var in
  if decide (r = new_var) then ret tt
  else
    let* _ := import_var new_var reason import_missing in
    let* _ := add_client new_var (node, i) in
    let* _ := remove_client r (node, i) reason in
    execute_callbacks (OnChangeInput node i r new_var reason).

(** The [compute_test_value] block of [replace]. *)
Definition check_test_values (var new_var : Var) : M unit :=
  if compute_test_value E then
    match test_value_shape E var, test_value_shape E new_var with
    | Some tval_shape, Some new_tval_shape =>
        if decide (tval_shape = new_tval_shape) then ret tt
        else raise AssertionError
    | _, _ => ret tt
    end
  else ret tt.

(** The [assert] at the head of the loop of [replace]:
    [(node == "output" and self.outputs[i] is var) or (node.inputs[i] is var)].
    For ["output"] the second operand is evaluated on the string and raises
    [AttributeError]. *)
Definition assert_client (node : Client) (i : Z) (var : Var) : M unit :=
  match node with
  | COutput =>
      let* outs := gets outputs in
      match py_getitem outs i with
      | None => raise IndexError
      | Some o => if decide (o = var) then ret tt else raise AttributeError
      end
  | CNode n =>
      let* ins := gets (λ s, inputs_of s n) in
      match py_getitem ins i with
      | None => raise IndexError
      | Some o => if decide (o = var) then ret tt else raise AssertionError
      end
  end.

Definition replace (var new_var : Var) (reason : Reason) (verbose : option bool)
    (import_missing : bool) : M unit :=
  let verbose := default (optimizer_verbose E) verbose in
  let* _ := (if verbose then modify (set_io (λ l, l ++ [Printed reason var new_var]))
             else ret tt) in
  match filter_variable E (var_type E var) new_var with
  | inl e => raise e
  | inr new_var =>
      let* vs := gets variables in
      if decide (var ∈ vs) then
        let* _ := check_test_values var new_var in
        let* cs := get_clients var in
        for_each (λ '(node, i),
          let* _ := assert_client node i var in
          change_input node i new_var reason import_missing) cs
      else modify (set_io (λ l, l ++ [Warned var]))
  end.

(** The state after the [print] of [replace], done when [verbose] is on. *)
Definition printed (var new_var : Var) (reason : Reason) (verbose : option bool)
    (s : State) : State :=
  if default (optimizer_verbose E) verbose
  then set_io (λ l, l ++ [Printed reason var new_var]) s
  else s.

Definition replace_all (pairs : list (Var * Var)) (reason : Reason)
    (verbose : option bool) (import_missing : bool) : M unit :=
  for_each (λ '(var, new_var), replace var new_var reason verbose import_missing) pairs.

Definition attach_feature (feature : Feature) : M unit :=
  let* fs := gets _features in
  if decide (feature ∈ fs) then ret tt
  else
    λ s,
      let attached :=
        let* _ := modify (set_times (λ t, t ∪ {[feature]})) in
        modify (set_features (λ l, l ++ [feature])) in
      if has_method E feature on_attach then
        match call_feature feature OnAttach s with
        | Ret _ s' => attached s'
        | Exn AlreadyThere s' => Ret tt s'
        | Exn e s' => Exn e s'
        end
      else attached s.

Definition remove_feature (feature : Feature) : M unit :=
  let* fs := gets _features in
  match list_remove feature fs with
  | None => ret tt
  | Some fs' =>
      let* _ := modify (set_features (λ _, fs')) in
      if has_method E feature on_detach then call_feature feature OnDetach
      else ret tt
  end.

(** The part of [__init__] from [self.execute_callbacks_time = 0] to the
    attachment of [ReplaceValidate()]: the fields are set, [outputs] to the
    list given, and the features are attached. *)
Definition init_features (outs : list Var) (features : list Feature) : M unit :=
  let* _ := modify (λ s,
    mkState (node_inputs s) (imported_by s) (removed_by s) [] outs ∅ ∅ ∅ [] ∅
      (calls s) (io s)) in
  let* _ := for_each attach_feature features in
  attach_feature (ReplaceValidate E).

(** [__init__] once its arguments are resolved and cloned. *)
Definition init_graph (ins outs : list Var) (features : list Feature) : M unit :=
  let* _ := init_features outs features in
  let* _ := modify (set_inputs (λ _, [])) in
  let* _ := for_each (λ in_var,
              match var_owner E in_var with
              | Some _ => raise ValueError
              | None => add_input in_var false
              end) ins in
  let* _ := for_each (λ output, import_var output (Some "init"%string) false) outs in
  for_each (λ '(i, output), add_client output (COutput, i)) (enumerate outs).

(** [FunctionGraph.__init__], run in the state of the objects it is given. *)
Definition __init__ (ins : option (list Var)) (outs : option (list Var))
    (features : option (list Feature)) (clone : bool) : M unit :=
  match outs with
  | None => raise ValueError
  | Some outs =>
      let* h := gets node_inputs in
      let ins := default (graph_inputs E h outs) ins in
      let* cloned :=
        (if clone then
           let '(h', memo) := clone_get_equiv E h ins outs in
           let* _ := modify (set_node_inputs (λ _, h')) in
           match mapM (λ o, memo !! o) outs, mapM (λ i, memo !! i) ins with
           | Some outs', Some ins' => ret (ins', outs')
           | _, _ => raise KeyError
           end
         else ret (ins, outs)) in
      let '(ins, outs) := cloned in
      init_graph ins outs (default [] features)
  end.

End Methods.

(** ** A concrete world for examples

    Modelled from the spec: [aesara.graph.basic.io_toposort] is not among the
    sources. The spec asks for the nodes reachable upward from the given
    outputs, stopping at the variables already known, producers first; this
    is a depth-first walk with the owner's inputs visited before the owner. *)

Fixpoint toposort_visit (owner : Var → option Apply) (h : gmap Apply (list Var))
    (stop : gset Var) (fuel : nat) (acc : list Apply) (v : Var) : list Apply :=
  match fuel with
  | O => acc
  | S fuel' =>
      if decide (v ∈ stop) then acc
      else match owner v with
           | None => acc
           | Some n =>
               if decide (n ∈ acc) then acc
               else
                 let acc' := foldl (toposort_visit owner h stop fuel') acc
                               (default [] (h !! n)) in
                 if decide (n ∈ acc') then acc' else acc' ++ [n]
           end
  end.

Definition io_toposort_model (owner : Var → option Apply) (h : gmap Apply (list Var))
    (stop : gset Var) (outs : list Var) : list Apply :=
  foldl (toposort_visit owner h stop (S (size h))) [] outs.

(** The graph of the examples: inputs [x = 1] and [y = 2], a node
    [Add = 10] with inputs [x, y] and output [a = 3], a node [Mul = 11] with
    inputs [a, x] and output [b = 4], a node [Split = 12] with input [x] and
    the two outputs [5] and [6]. Variable [8] has the null type (type 1),
    variable [9] is a Constant, and every other variable has type 0 and
    neither owner nor value. Feature [1] listens to every event and never
    raises; [100] is the instance of [ReplaceValidate]. *)

Definition ex_owner (v : Var) : option Apply :=
  match v with
  | 3 => Some 10
  | 4 => Some 11
  | 5 | 6 => Some 12
  | _ => None
  end%positive.

Definition ex_outputs (n : Apply) : list Var :=
  match n with
  | 10 => [3]
  | 11 => [4]
  | 12 => [5; 6]
  | _ => []
  end%positive.

Definition ex_env : Env := {|
  var_type := λ v, if decide (v = 8%positive) then 1%nat else 0%nat;
  var_owner := ex_owner;
  is_Constant := λ v, bool_decide (v = 9%positive);
  is_NullType := λ t, bool_decide (t = 1%nat);
  node_outputs := ex_outputs;
  bad_view_map := λ _, false;
  bad_destroy_map := λ _, false;
  filter_variable := λ _ v, inr v;
  io_toposort := io_toposort_model ex_owner;
  graph_inputs := λ _ _, [];
  clone_get_equiv := λ h _ _, (h, ∅);
  test_value_shape := λ _, None;
  optimizer_verbose := false;
  compute_test_value := false;
  has_method := λ f _, bool_decide (f = 1%positive);
  call_method := λ _ _ _, None;
  ReplaceValidate := 100%positive;
  var_bool := λ _, None
|}.

(** The nodes' inputs before any graph is made, and nothing else. *)
Definition ex_world : State := {|
  node_inputs := {[ 10 := [1; 2]; 11 := [3; 1]; 12 := [1] ]}%positive;
  imported_by := ∅; removed_by := ∅;
  inputs := []; outputs := []; variables := ∅; apply_nodes := ∅; clients := ∅;
  _features := []; execute_callbacks_times := ∅; calls := []; io := []
|}.

(** [FunctionGraph([x, y], [b], features=[1], clone=False)] *)
Definition ex_graph : State :=
  final (__init__ ex_env (Some [1; 2]) (Some [4]) (Some [1]) false ex_world)%positive.

(** The example environment with one more feature, [2], whose [on_attach]
    raises [InconsistencyError] and which has no other method. *)
Definition ex_env_raising : Env := {|
  var_type := var_type ex_env;
  var_owner := var_owner ex_env;
  is_Constant := is_Constant ex_env;
  is_NullType := is_NullType ex_env;
  node_outputs := node_outputs ex_env;
  bad_view_map := bad_view_map ex_env;
  bad_destroy_map := bad_destroy_map ex_env;
  filter_variable := filter_variable ex_env;
  io_toposort := io_toposort ex_env;
  graph_inputs := graph_inputs ex_env;
  clone_get_equiv := clone_get_equiv ex_env;
  test_value_shape := test_value_shape ex_env;
  optimizer_verbose := optimizer_verbose ex_env;
  compute_test_value := compute_test_value ex_env;
  has_method := λ f name,
    bool_decide (f = 1%positive) || bool_decide (f = 2%positive ∧ name = on_attach);
  call_method := λ f h _,
    if bool_decide (f = 2%positive) then Some InconsistencyError else None;
  ReplaceValidate := ReplaceValidate ex_env;
  var_bool := var_bool ex_env
|}.

(** * Properties *)

(** ** Python lists *)

Lemma py_index_lt {A} (l : list A) i k : py_index l i = Some k → (k < length l)%nat.
Proof.
  unfold py_index. repeat case_decide; intros [= <-]; lia.
Qed.

Lemma py_index_nonneg {A} (l : list A) i k :
  0 ≤ i → py_index l i = Some k → k = Z.to_nat i.
Proof.
  unfold py_index. repeat case_decide; intros ? [= <-]; lia.
Qed.

Lemma py_getitem_nonneg {A} (l : list A) i :
  0 ≤ i → py_getitem l i = l !! Z.to_nat i.
Proof.
  intros Hi. unfold py_getitem, py_index.
  case_decide; [done|]. case_decide; [lia|].
  symmetry. apply lookup_ge_None. lia.
Qed.

Lemma py_setitem_same {A} (l : list A) i x :
  py_getitem l i = Some x → py_setitem l i x = Some l.
Proof.
  unfold py_getitem, py_setitem. destruct (py_index l i) as [k|]; [|done].
  intros Hk. by rewrite list_insert_id.
Qed.

Lemma py_setitem_is_Some {A} (l : list A) i x y :
  py_getitem l i = Some x → is_Some (py_setitem l i y).
Proof.
  unfold py_getitem, py_setitem. destruct (py_index l i); [eauto|done].
Qed.

Lemma list_remove_None {A} `{EqDecision A} (x : A) l :
  list_remove x l = None ↔ x ∉ l.
Proof.
  induction l as [|y l IH]; simpl.
  - split; [intros _; apply not_elem_of_nil|done].
  - case_decide as Hy.
    + subst. split; [done|]. intros []. left.
    + destruct (list_remove x l).
      * split; [done|]. intros Hn. exfalso. apply Hn. right.
        destruct (decide (x ∈ l)) as [|Hl]; [done|]. by apply IH in Hl.
      * split; [|done]. intros _ [?|?]%elem_of_cons; [congruence|].
        by apply (proj1 IH).
Qed.

Lemma list_remove_Some_elem {A} `{EqDecision A} (x : A) l l' :
  list_remove x l = Some l' → x ∈ l.
Proof.
  intros H. destruct (decide (x ∈ l)) as [|Hn]; [done|].
  apply list_remove_None in Hn. congruence.
Qed.

(** ** The state record *)

Lemma set_outputs_id s : set_outputs (λ _, outputs s) s = s.
Proof. by destruct s. Qed.

Lemma set_node_inputs_id s n l :
  node_inputs s !! n = Some l → set_node_inputs <[n:=l]> s = s.
Proof. destruct s; unfold set_node_inputs; simpl. intros H. by rewrite insert_id. Qed.

Lemma inputs_of_Some s n i r :
  py_getitem (inputs_of s n) i = Some r → node_inputs s !! n = Some (inputs_of s n).
Proof.
  unfold inputs_of. destruct (node_inputs s !! n); [done|].
  simpl. unfold py_getitem, py_index; simpl. repeat case_decide; try done; lia.
Qed.

(** ** Monadic reasoning *)

(** [m] keeps [P], whatever the way it ends. *)
Definition preserves {A} (P : State → Prop) (m : M A) : Prop :=
  ∀ s, P s → P (final (m s)).

(** When [m] returns from a state in [P], the result is in [Q]. *)
Definition hoare {A} (P : State → Prop) (m : M A) (Q : A → State → Prop) : Prop :=
  ∀ s a s', P s → m s = Ret a s' → Q a s'.

Lemma preserves_ret {A} P (a : A) : preserves P (ret a).
Proof. by intros s. Qed.

Lemma preserves_raise {A} P e : preserves P (@raise A e).
Proof. by intros s. Qed.

Lemma preserves_gets {A} P (f : State → A) : preserves P (gets f).
Proof. by intros s. Qed.

Lemma preserves_modify P f : (∀ s, P s → P (f s)) → preserves P (modify f).
Proof. intros H s. apply H. Qed.

Lemma preserves_bind {A B} P (m : M A) (k : A → M B) :
  preserves P m → (∀ a, preserves P (k a)) → preserves P (bind m k).
Proof.
  intros Hm Hk s Hs. unfold bind. specialize (Hm s Hs).
  destruct (m s) as [a s'|e s']; simpl in *; [by apply Hk|done].
Qed.

Lemma preserves_for_each {A} P (f : A → M unit) l :
  (∀ x, x ∈ l → preserves P (f x)) → preserves P (for_each f l).
Proof.
  induction l as [|x l IH]; intros Hf; simpl.
  - apply preserves_ret.
  - apply preserves_bind; [apply Hf; left|].
    intros _. apply IH. intros y Hy. apply Hf. by right.
Qed.

Lemma hoare_ret {A} (P : State → Prop) (Q : A → State → Prop) a :
  (∀ s, P s → Q a s) → hoare P (ret a) Q.
Proof. intros H s a' s' Hs [= ? ?]; simplify_eq. by apply H. Qed.

Lemma hoare_raise {A} P e (Q : A → State → Prop) : hoare P (raise e) Q.
Proof. by intros s a s' _. Qed.

Lemma hoare_gets {A} (P : State → Prop) (f : State → A) (Q : A → State → Prop) :
  (∀ s, P s → Q (f s) s) → hoare P (gets f) Q.
Proof. intros H s a s' Hs [= ? ?]; simplify_eq. by apply H. Qed.

Lemma hoare_modify (P : State → Prop) f (Q : unit → State → Prop) :
  (∀ s, P s → Q tt (f s)) → hoare P (modify f) Q.
Proof. intros H s a s' Hs [= ? ?]; simplify_eq. by apply H. Qed.

Lemma hoare_bind {A B} P (m : M A) (k : A → M B) R Q :
  hoare P m R → (∀ a, hoare (R a) (k a) Q) → hoare P (bind m k) Q.
Proof.
  intros Hm Hk s b s' Hs. unfold bind.
  destruct (m s) as [a s1|e s1] eqn:Hms; [|done].
  intros Hks. eapply Hk; [|done]. by eapply Hm.
Qed.

Lemma hoare_weaken {A} (P P' : State → Prop) (m : M A) (Q Q' : A → State → Prop) :
  hoare P' m Q' → (∀ s, P s → P' s) → (∀ a s, Q' a s → Q a s) → hoare P m Q.
Proof. intros H HP HQ s a s' Hs Hm. apply HQ. eapply H; [|done]. by apply HP. Qed.

Lemma hoare_for_each {A} (I : State → Prop) (f : A → M unit) l :
  (∀ x, x ∈ l → hoare I (f x) (λ _, I)) → hoare I (for_each f l) (λ _, I).
Proof.
  induction l as [|x l IH]; intros Hf; simpl.
  - by apply hoare_ret.
  - apply (hoare_bind _ _ _ (λ _, I)); [apply Hf; left|].
    intros _. apply IH. intros y Hy. apply Hf. by right.
Qed.

Lemma bind_Ret {A B} (m : M A) (k : A → M B) s a s' :
  m s = Ret a s' → bind m k s = k a s'.
Proof. unfold bind. by intros ->. Qed.

Lemma bind_Exn {A B} (m : M A) (k : A → M B) s e s' :
  m s = Exn e s' → bind m k s = Exn e s'.
Proof. unfold bind. by intros ->. Qed.

Lemma bind_Ret_inv {A B} (m : M A) (k : A → M B) s b s' :
  bind m k s = Ret b s' → ∃ a s1, m s = Ret a s1 ∧ k a s1 = Ret b s'.
Proof. unfold bind. destruct (m s) as [a s1|]; [eauto|done]. Qed.

Section Simple.
Variable E : Env.

(** ** [change_input] *)

Lemma change_slot_same s node i w :
  slot s node i = Some w → change_slot E node i w s = Ret w s.
Proof.
  intros Hs. destruct node as [|n]; simpl in *; unfold bind, gets.
  - rewrite Hs, (py_setitem_same _ _ _ Hs). rewrite decide_True by done.
    unfold modify, ret. by rewrite set_outputs_id.
  - rewrite Hs, (py_setitem_same _ _ _ Hs). rewrite decide_True by done.
    unfold modify, ret. by rewrite (set_node_inputs_id _ _ _ (inputs_of_Some _ _ _ _ Hs)).
Qed.

Lemma change_input_same s node i w reason import_missing :
  slot s node i = Some w →
  change_input E node i w reason import_missing s = Ret tt s.
Proof.
  intros Hs. unfold change_input.
  rewrite (bind_Ret _ _ _ _ _ (change_slot_same _ _ _ _ Hs)).
  by rewrite decide_True.
Qed.

(** C3. A type mismatch in [change_input]: for a slot [(node, i)] holding
    [r] and a [new_var] of another type, the call raises [TypeError] and
    the state it leaves is the state it was given: the slot, [inputs],
    [outputs], [variables], [apply_nodes] and [clients] are untouched, and
    no callback was invoked ([calls] is part of the state). *)
Theorem change_input_type_mismatch s node i new_var r reason import_missing :
  slot s node i = Some r →
  var_type E r ≠ var_type E new_var →
  change_input E node i new_var reason import_missing s = Exn TypeError s.
Proof.
  intros Hs Hty. unfold change_input. apply bind_Exn.
  destruct node as [|n]; simpl in *;
    destruct (py_setitem_is_Some _ _ _ new_var Hs) as [l' Hl'];
    unfold bind, gets; rewrite Hs, Hl'; by rewrite decide_False.
Qed.

(** ** [replace] *)

Lemma check_test_values_same v s : check_test_values E v v s = Ret tt s.
Proof.
  unfold check_test_values. destruct (compute_test_value E); [|done].
  destruct (test_value_shape E v); [|done]. by rewrite decide_True.
Qed.

Lemma assert_client_Ret node i v s u s' :
  assert_client node i v s = Ret u s' → s' = s ∧ slot s node i = Some v.
Proof.
  destruct node as [|n]; simpl; unfold bind, gets.
  - destruct (py_getitem (outputs s) i) as [o|]; [|done].
    case_decide; [|done]. intros [= <-]. by subst.
  - destruct (py_getitem (inputs_of s n) i) as [o|]; [|done].
    case_decide; [|done]. intros [= <-]. by subst.
Qed.

Lemma assert_client_final node i v s : final (assert_client node i v s) = s.
Proof.
  destruct node as [|n]; simpl; unfold bind, gets.
  - destruct (py_getitem (outputs s) i) as [o|]; [|done]. by case_decide.
  - destruct (py_getitem (inputs_of s n) i) as [o|]; [|done]. by case_decide.
Qed.

Lemma assert_client_sound node i v s :
  slot s node i = Some v → assert_client node i v s = Ret tt s.
Proof.
  intros Hs. destruct node as [|n]; simpl in *; unfold bind, gets;
    rewrite Hs; by rewrite decide_True.
Qed.

(** The loop of [replace(v, v)] leaves the state as it is. *)
Lemma replace_loop_same v reason import_missing (cs : list (Client * Z)) s :
  final (for_each (λ '(node, i),
           let* _ := assert_client node i v in
           change_input E node i v reason import_missing) cs s) = s.
Proof.
  induction cs as [|[node i] cs IH]; [done|]. simpl. unfold bind at 1 2.
  destruct (assert_client node i v s) as [u s1|e s1] eqn:Ha.
  - apply assert_client_Ret in Ha as [-> Hslot].
    rewrite (change_input_same _ _ _ _ reason import_missing Hslot). apply IH.
  - pose proof (assert_client_final node i v s) as Hf. by rewrite Ha in Hf.
Qed.

Lemma replace_loop_same_Ret v reason import_missing (cs : list (Client * Z)) s :
  (∀ node i, (node, i) ∈ cs → slot s node i = Some v) →
  for_each (λ '(node, i),
    let* _ := assert_client node i v in
    change_input E node i v reason import_missing) cs s = Ret tt s.
Proof.
  induction cs as [|[node i] cs IH]; intros Hcs; [done|]. simpl.
  assert (slot s node i = Some v) as Hslot by (apply Hcs; left).
  unfold bind at 1 2. rewrite (assert_client_sound _ _ _ _ Hslot).
  rewrite (change_input_same _ _ _ _ reason import_missing Hslot).
  apply IH. intros ???. apply Hcs. by right.
Qed.

Lemma printed_fields var new_var reason verbose s :
  variables (printed E var new_var reason verbose s) = variables s
  ∧ clients (printed E var new_var reason verbose s) = clients s
  ∧ calls (printed E var new_var reason verbose s) = calls s
  ∧ ∀ node i, slot (printed E var new_var reason verbose s) node i = slot s node i.
Proof.
  unfold printed. destruct (default (optimizer_verbose E) verbose); [|done].
  by split_and!.
Qed.

Lemma replace_same_unfold s v reason verbose import_missing :
  filter_variable E (var_type E v) v = inr v →
  v ∈ variables s →
  replace E v v reason verbose import_missing s
  = match clients s !! v with
    | Some cs =>
        for_each (λ '(node, i),
          let* _ := assert_client node i v in
          change_input E node i v reason import_missing) cs
          (printed E v v reason verbose s)
    | None => Exn KeyError (printed E v v reason verbose s)
    end.
Proof.
  intros Hf Hv. unfold replace, printed. rewrite Hf.
  destruct (default (optimizer_verbose E) verbose);
    unfold bind at 1; simpl; unfold bind at 1, gets at 1; simpl;
    rewrite decide_True by done; unfold bind at 1;
    rewrite check_test_values_same; unfold get_clients, bind at 1 2, gets at 1;
    simpl; by destruct (clients s !! v).
Qed.

(** C6. Idempotent replace: for a member variable [v] that its type's
    [filter_variable] returns as it is, [replace(v, v)] leaves every field
    of the container and every node's inputs as they were and invokes no
    callback; the state it leaves differs from the one it was given by the
    line printed under [verbose] at most. On a graph whose back-edges for
    [v] are sound it returns normally. And [change_input(n, i, w)] on a
    slot that already holds [w] returns with the state unchanged. *)
Theorem idempotent_replace s v reason verbose import_missing :
  filter_variable E (var_type E v) v = inr v →
  v ∈ variables s →
  final (replace E v v reason verbose import_missing s) = printed E v v reason verbose s
  ∧ calls (final (replace E v v reason verbose import_missing s)) = calls s
  ∧ ((∃ cs, clients s !! v = Some cs ∧ ∀ node i, (node, i) ∈ cs → slot s node i = Some v) →
     replace E v v reason verbose import_missing s
     = Ret tt (printed E v v reason verbose s))
  ∧ (∀ node i w, slot s node i = Some w →
     change_input E node i w reason import_missing s = Ret tt s).
Proof.
  intros Hf Hv.
  rewrite (replace_same_unfold _ _ reason verbose import_missing Hf Hv).
  destruct (printed_fields v v reason verbose s) as (Hvs & Hcl & Hca & Hsl).
  assert (final match clients s !! v with
    | Some cs =>
        for_each (λ '(node, i),
          let* _ := assert_client node i v in
          change_input E node i v reason import_missing) cs
          (printed E v v reason verbose s)
    | None => Exn KeyError (printed E v v reason verbose s)
    end = printed E v v reason verbose s) as Hfinal.
  { destruct (clients s !! v); [apply replace_loop_same|done]. }
  split_and!.
  - done.
  - by rewrite Hfinal.
  - intros (cs & -> & Hsound). apply replace_loop_same_Ret.
    intros ???. rewrite Hsl. by apply Hsound.
  - intros node i w. apply change_input_same.
Qed.

(** C8. Silent no-op replace: when [var] is not in [variables] and the
    coercion of [new_var] succeeds, [replace] returns normally; the state
    it leaves is the state it was given plus one warning (after the line
    printed under [verbose]): no field of the container changes and no
    callback is invoked. *)
Theorem replace_not_in_graph s var new_var new_var' reason verbose import_missing :
  filter_variable E (var_type E var) new_var = inr new_var' →
  var ∉ variables s →
  replace E var new_var reason verbose import_missing s
  = Ret tt (set_io (λ l, l ++ [Warned var]) (printed E var new_var reason verbose s)).
Proof.
  intros Hf Hv. unfold replace, printed. rewrite Hf.
  destruct (default (optimizer_verbose E) verbose); unfold bind, gets; simpl;
    by rewrite decide_False.
Qed.

End Simple.

(** ** Callbacks and features *)

Lemma set_calls_app a b s :
  set_calls (λ c, c ++ b) (set_calls (λ c, c ++ a) s) = set_calls (λ c, c ++ (a ++ b)) s.
Proof. unfold set_calls; simpl. by rewrite app_assoc. Qed.

Lemma set_calls_nil s : set_calls (λ c, c ++ []) s = s.
Proof. destruct s; unfold set_calls; simpl. by rewrite app_nil_r. Qed.

Lemma list_remove_Permutation {A} `{EqDecision A} (x : A) l l' :
  list_remove x l = Some l' → l ≡ₚ x :: l'.
Proof.
  revert l'. induction l as [|y l IH]; intros l'; simpl; [done|].
  case_decide as Hy.
  - intros [= <-]. by subst.
  - destruct (list_remove x l) as [r|]; [|done]. intros [= <-].
    rewrite (IH r eq_refl). apply Permutation_swap.
Qed.

Section Features.
Variable E : Env.

Lemma call_feature_final f h s :
  final (call_feature E f h s) = set_calls (λ c, c ++ [(f, h)]) s.
Proof. unfold call_feature. by destruct (call_method E f h s). Qed.

Lemma execute_callback_Ret h f s s' :
  execute_callback E h f s = Ret tt s' →
  s' = set_calls (λ c, c ++ callbacks_of E h [f]) s.
Proof.
  unfold execute_callback, callbacks_of. rewrite filter_cons, filter_nil.
  destruct (has_method E f (hook_name h)) eqn:Hm.
  - rewrite decide_True by done. simpl.
    unfold bind, gets, call_feature.
    destruct (call_method E f h s); [done|]. simpl.
    case_decide; [|done]. by intros [= <-].
  - rewrite decide_False by done. simpl. intros [= <-]. by rewrite set_calls_nil.
Qed.

Lemma execute_callback_final h f s :
  ∃ l, Forall (λ c, c.2 = h) l
       ∧ final (execute_callback E h f s) = set_calls (λ c, c ++ l) s.
Proof.
  unfold execute_callback.
  destruct (has_method E f (hook_name h)).
  - exists [(f, h)]. split; [by repeat constructor|]. unfold bind, gets, call_feature.
    destruct (call_method E f h s); [done|]. simpl. by case_decide.
  - exists []. split; [constructor|]. by rewrite set_calls_nil.
Qed.

Lemma callbacks_of_cons h f fs :
  callbacks_of E h (f :: fs) = callbacks_of E h [f] ++ callbacks_of E h fs.
Proof.
  unfold callbacks_of. rewrite !filter_cons, filter_nil.
  by case_decide.
Qed.

Lemma execute_callbacks_loop_Ret h fs s s' :
  for_each (execute_callback E h) fs s = Ret tt s' →
  s' = set_calls (λ c, c ++ callbacks_of E h fs) s.
Proof.
  revert s. induction fs as [|f fs IH]; intros s; simpl.
  - intros [= <-]. by rewrite set_calls_nil.
  - intros (u & s1 & H1 & H2)%bind_Ret_inv. destruct u.
    apply execute_callback_Ret in H1 as ->. apply IH in H2 as ->.
    by rewrite set_calls_app, (callbacks_of_cons h f fs).
Qed.

Lemma execute_callbacks_loop_final h fs s :
  ∃ l, Forall (λ c, c.2 = h) l
       ∧ final (for_each (execute_callback E h) fs s) = set_calls (λ c, c ++ l) s.
Proof.
  revert s. induction fs as [|f fs IH]; intros s; simpl.
  - exists []. split; [constructor|]. by rewrite set_calls_nil.
  - unfold bind. destruct (execute_callback_final h f s) as (l & Hall & Hl).
    destruct (execute_callback E h f s) as [u s1|e s1]; simpl in Hl; subst.
    + destruct (IH (set_calls (λ c, c ++ l) s)) as (l' & Hall' & Hl').
      exists (l ++ l'). split; [by apply Forall_app|]. by rewrite Hl', set_calls_app.
    + by exists l.
Qed.

(** When it returns, [execute_callbacks] has called the method once on
    every feature that has it, and has changed nothing else. *)
Lemma execute_callbacks_Ret h s s' :
  execute_callbacks E h s = Ret tt s' →
  s' = set_calls (λ c, c ++ callbacks_of E h (_features s)) s.
Proof. unfold execute_callbacks, bind, gets. apply execute_callbacks_loop_Ret. Qed.

Lemma execute_callbacks_final h s :
  ∃ l, Forall (λ c, c.2 = h) l
       ∧ final (execute_callbacks E h s) = set_calls (λ c, c ++ l) s.
Proof. unfold execute_callbacks, bind, gets. apply execute_callbacks_loop_final. Qed.

Lemma preserves_execute_callbacks (P : State → Prop) h :
  (∀ s l, P s → Forall (λ c, c.2 = h) l → P (set_calls (λ c, c ++ l) s)) →
  preserves P (execute_callbacks E h).
Proof.
  intros HP s Hs. destruct (execute_callbacks_final h s) as (l & Hall & ->).
  by apply HP.
Qed.

(** C9. Feature attach idempotence: attaching a feature that is already
    in the feature list returns with the state unchanged, so the list is
    the same and [on_attach] is not called again; when [on_attach] raises
    [AlreadyThere] the call returns normally and the only change is the
    recorded call, so the feature is not added; removing a feature that is
    not in the list returns with the state unchanged, so [on_detach] is not
    called; removing one that is in the list takes its first occurrence out
    and calls [on_detach] exactly when the feature defines it. *)
Theorem feature_attach_idempotence s f :
  (f ∈ _features s → attach_feature E f s = Ret tt s)
  ∧ (f ∉ _features s → has_method E f on_attach = true →
     call_method E f OnAttach s = Some AlreadyThere →
     attach_feature E f s = Ret tt (set_calls (λ c, c ++ [(f, OnAttach)]) s))
  ∧ (f ∉ _features s → remove_feature E f s = Ret tt s)
  ∧ (f ∈ _features s →
     ∃ fs', list_remove f (_features s) = Some fs'
       ∧ _features s ≡ₚ f :: fs'
       ∧ _features (final (remove_feature E f s)) = fs'
       ∧ calls (final (remove_feature E f s))
         = calls s ++ (if has_method E f on_detach then [(f, OnDetach)] else [])).
Proof.
  split_and!.
  - intros Hf. unfold attach_feature, bind, gets. by rewrite decide_True.
  - intros Hf Hm Hc. unfold attach_feature, bind, gets.
    rewrite decide_False by done. rewrite Hm. unfold call_feature. by rewrite Hc.
  - intros Hf. unfold remove_feature, bind, gets.
    apply list_remove_None in Hf. by rewrite Hf.
  - intros Hf. destruct (list_remove f (_features s)) as [fs'|] eqn:Hr.
    2: { apply list_remove_None in Hr. done. }
    exists fs'. split; [done|]. split; [by apply list_remove_Permutation|].
    unfold remove_feature, bind, gets, modify. rewrite Hr.
    destruct (has_method E f on_detach).
    + rewrite call_feature_final. by simpl.
    + simpl. by rewrite app_nil_r.
Qed.

(** C10. Attach atomicity: when a feature that is not attached has an
    [on_attach] that raises an exception other than [AlreadyThere],
    [attach_feature] raises that exception; the state it leaves differs
    from the one it was given by the recorded call only, so the feature is
    neither appended to the feature list nor given an entry in
    [execute_callbacks_times]. *)
Theorem attach_feature_failure s f e :
  f ∉ _features s →
  has_method E f on_attach = true →
  call_method E f OnAttach s = Some e →
  e ≠ AlreadyThere →
  attach_feature E f s = Exn e (set_calls (λ c, c ++ [(f, OnAttach)]) s)
  ∧ _features (final (attach_feature E f s)) = _features s
  ∧ execute_callbacks_times (final (attach_feature E f s)) = execute_callbacks_times s.
Proof.
  intros Hf Hm Hc He.
  assert (attach_feature E f s = Exn e (set_calls (λ c, c ++ [(f, OnAttach)]) s)) as ->.
  { unfold attach_feature, bind, gets. rewrite decide_False by done.
    rewrite Hm. unfold call_feature. rewrite Hc. by destruct e. }
  done.
Qed.

End Features.

(** ** Properties kept by the import methods *)

Ltac pstep :=
  lazymatch goal with
  | |- preserves _ (ret _) => apply preserves_ret
  | |- preserves _ (raise _) => apply preserves_raise
  | |- preserves _ (gets _) => apply preserves_gets
  | |- preserves _ (bind _ _) => apply preserves_bind; [|intros ?]
  | |- preserves _ (for_each _ _) => apply preserves_for_each; intros ? ?
  | |- preserves _ (match ?x with _ => _ end) => destruct x eqn:?
  end.

Lemma preserves_gets_bind {A B} (P : State → Prop) (f : State → A) (k : A → M B) :
  (∀ s, P s → P (final (k (f s) s))) → preserves P (bind (gets f) k).
Proof. intros H s Hs. unfold bind, gets. by apply H. Qed.

Lemma preserves_bind_at {A B} (P : State → Prop) (m : M A) (k : A → M B) s :
  P (final (m s)) → (∀ a, preserves P (k a)) → P (final (bind m k s)).
Proof.
  intros Hm Hk. unfold bind. destruct (m s) as [a s'|e s']; simpl in *; [by apply Hk|done].
Qed.

Section ImportProps.
Variable E : Env.

(** [P] is kept by every change the import methods make: recording a
    callback, adding a member node, tagging a node, adding a variable,
    starting a client list, appending a client, and [add_input] on a
    missing input. *)
Record import_stable (P : State → Prop) : Prop := {
  stable_calls : ∀ s l n reason, P s → Forall (λ c, c.2 = OnImport n reason) l →
                 P (set_calls (λ c, c ++ l) s);
  stable_apply_nodes_add : ∀ s n, P s → P (set_apply_nodes (λ ns, ns ∪ {[n]}) s);
  stable_imported_by : ∀ s f, P s → P (set_imported_by f s);
  stable_variables_add : ∀ s v, P s → P (set_variables (λ vs, vs ∪ {[v]}) s);
  stable_setup_var : ∀ s v, P s → clients s !! v = None → P (set_clients <[v:=[]]> s);
  stable_add_client : ∀ s v cs e, P s → clients s !! v = Some cs →
                      P (set_clients <[v:=cs ++ [e]]> s);
  stable_add_input : ∀ s v, P s → is_missing_input E s v = true →
                     P (final (add_input v true s))
}.

Context (P : State → Prop) (HP : import_stable P).

Lemma set_clients_id s : set_clients (λ c, c) s = s.
Proof. by destruct s. Qed.

Lemma preserves_setup_var v : preserves P (setup_var v).
Proof.
  intros s Hs. unfold setup_var, modify; simpl.
  destruct (clients s !! v) eqn:Hc.
  - replace (set_clients _ s) with s; [done|].
    destruct s; unfold set_clients; simpl in *. by rewrite Hc.
  - replace (set_clients _ s) with (set_clients <[v:=[]]> s).
    + by apply stable_setup_var.
    + destruct s; unfold set_clients; simpl in *. by rewrite Hc.
Qed.

Lemma preserves_variables_add v : preserves P (variables_add v).
Proof. apply preserves_modify. intros s. by apply stable_variables_add. Qed.

Lemma preserves_add_client v e : preserves P (add_client v e).
Proof.
  intros s Hs. unfold add_client, get_clients, bind, gets.
  destruct (clients s !! v) eqn:Hc; simpl; [|done].
  by apply stable_add_client.
Qed.

Lemma is_missing_input_set_clients s f v :
  is_missing_input E (set_clients f s) v = is_missing_input E s v.
Proof. done. Qed.

Lemma add_input_missing s v :
  P s → is_missing_input E s v = true → P (final (add_input v true s)).
Proof. by apply stable_add_input. Qed.

Lemma preserves_import_node_check import_missing node :
  preserves P (import_node_check E import_missing node).
Proof.
  unfold import_node_check. apply preserves_gets_bind. intros s0 Hs0.
  revert Hs0. generalize (inputs_of s0 node) as ins. intros ins. revert s0.
  change (preserves P (for_each (λ var,
    let* missing := gets (λ s, is_missing_input E s var) in
    if missing then if import_missing then add_input var true
                    else raise MissingInputError
    else ret tt) ins)).
  apply preserves_for_each. intros var _.
  apply preserves_gets_bind. intros s Hs.
  destruct (is_missing_input E s var) eqn:Hm; [|done].
  destruct import_missing; [|done]. by apply add_input_missing.
Qed.

Lemma preserves_import_new_node reason node :
  preserves P (import_new_node E reason node).
Proof.
  unfold import_new_node, setup_node.
  repeat first
    [ pstep
    | apply preserves_setup_var
    | apply preserves_variables_add
    | apply preserves_add_client
    | apply preserves_modify; intros s Hs;
      first [by apply stable_apply_nodes_add | by apply stable_imported_by]
    | apply preserves_execute_callbacks; intros s l Hs Hl; by eapply stable_calls ].
Qed.

Lemma preserves_import_node apply_node check reason import_missing :
  preserves P (import_node E apply_node check reason import_missing).
Proof.
  unfold import_node. pstep; [pstep|]. pstep; [|pstep].
  - destruct check; [|pstep]. pstep. apply preserves_import_node_check.
  - apply preserves_import_new_node.
Qed.

Lemma preserves_import_var v reason import_missing :
  preserves P (import_var E v reason import_missing).
Proof.
  intros s Hs. unfold import_var. unfold bind at 1 2, gets at 1 2.
  apply preserves_bind_at.
  - destruct (var_owner E v) as [owner|].
    + case_decide; [done|]. by apply preserves_import_node.
    + destruct (is_missing_input E s v) eqn:Hm; [|done].
      destruct (is_NullType E (var_type E v)); [done|].
      destruct import_missing; [|done]. by apply add_input_missing.
  - intros _. pstep; [apply preserves_setup_var|apply preserves_variables_add].
Qed.

End ImportProps.

(** ** Missing inputs *)

(** [var] is an input of the graph: listed in [inputs], a member of
    [variables], with a client list. *)
Definition promoted (var : Var) (s : State) : Prop :=
  var ∈ inputs s ∧ var ∈ variables s ∧ is_Some (clients s !! var).

(** A loop whose body always returns: it returns, keeps [I], and leaves
    for every element what its turn established, when the later turns keep
    it. *)
Lemma for_each_total {A} (I : State → Prop) (R : A → State → Prop)
    (f : A → M unit) (l : list A) :
  (∀ x s, x ∈ l → I s → ∃ s', f x s = Ret tt s' ∧ I s' ∧ R x s') →
  (∀ x y, preserves (R x) (f y)) →
  ∀ s, I s → ∃ s', for_each f l s = Ret tt s' ∧ I s' ∧ ∀ x, x ∈ l → R x s'.
Proof.
  intros Hf HR. induction l as [|x l IH]; intros s Hs; simpl.
  - exists s. split_and!; [done..|]. intros x []%elem_of_nil.
  - destruct (Hf x s) as (s1 & H1 & HI1 & HR1); [left|done|].
    destruct (IH (λ y s0 Hy, Hf y s0 (proj2 (elem_of_cons l y x) (or_intror Hy))) s1 HI1)
      as (s' & H' & HI' & HR').
    exists s'. rewrite (bind_Ret _ _ _ _ _ H1). split_and!; [done..|].
    intros y [->|Hy]%elem_of_cons; [|by apply HR'].
    assert (preserves (R x) (for_each f l)) as Hp.
    { apply preserves_for_each. intros ??. apply HR. }
    specialize (Hp s1 HR1). by rewrite H' in Hp.
Qed.

(** A loop whose body either returns with the state unchanged or raises
    [MissingInputError] with the state unchanged stops at the first element
    of the second kind. *)
Lemma for_each_check {A} (f : A → M unit) (bad : A → bool) (l : list A) s :
  (∀ x, x ∈ l → f x s = if bad x then Exn MissingInputError s else Ret tt s) →
  for_each f l s = if existsb bad l then Exn MissingInputError s else Ret tt s.
Proof.
  induction l as [|x l IH]; intros Hf; simpl; [done|].
  unfold bind. rewrite (Hf x) by left.
  destruct (bad x); simpl; [done|]. apply IH. intros y Hy. apply Hf. by right.
Qed.

Section MissingInput.
Variable E : Env.

Lemma import_node_check_false node s :
  import_node_check E false node s
  = if existsb (is_missing_input E s) (inputs_of s node)
    then Exn MissingInputError s else Ret tt s.
Proof.
  unfold import_node_check, bind at 1, gets at 1.
  apply for_each_check. intros var _. unfold bind, gets.
  by destruct (is_missing_input E s var).
Qed.

Lemma import_node_checks_false nodes s :
  for_each (import_node_check E false) nodes s
  = if existsb (λ node, existsb (is_missing_input E s) (inputs_of s node)) nodes
    then Exn MissingInputError s else Ret tt s.
Proof. apply for_each_check. intros node _. apply import_node_check_false. Qed.

(** What the checks of [import_node] keep when [import_missing] is on: the
    nodes' inputs, and that a variable missing in [s0] that has reached
    [inputs] is an input in full. *)
Definition promoting (s0 s : State) : Prop :=
  node_inputs s = node_inputs s0
  ∧ ∀ var, is_missing_input E s0 var = true → var ∈ inputs s → promoted var s.

Lemma promoted_mono var s s' :
  promoted var s →
  inputs s ⊆ inputs s' → variables s ⊆ variables s' →
  (∀ v, is_Some (clients s !! v) → is_Some (clients s' !! v)) →
  promoted var s'.
Proof. intros (?&?&?) ???. split_and!; auto. Qed.

Lemma add_input_true_Ret v s :
  v ∉ inputs s →
  add_input v true s
  = Ret tt (set_variables (λ vs, vs ∪ {[v]})
      (set_clients (λ c, match c !! v with Some _ => c | None => <[v:=[]]> c end)
         (set_inputs (λ l, l ++ [v]) s))).
Proof.
  intros Hv. unfold add_input, bind at 1, gets at 1.
  by rewrite bool_decide_eq_false_2.
Qed.

Lemma is_missing_input_not_in s v : is_missing_input E s v = true → v ∉ inputs s.
Proof.
  unfold is_missing_input. intros [_ Hm]%andb_prop.
  by apply negb_true_iff, bool_decide_eq_false in Hm.
Qed.

Lemma is_Some_setdefault (c : gmap Var (list Edge)) v w :
  is_Some (c !! w) ∨ v = w →
  is_Some (match c !! v with Some _ => c | None => <[v:=[]]> c end !! w).
Proof.
  intros H. destruct (c !! v) eqn:Hv.
  - destruct H as [|<-]; [done|]. by rewrite Hv.
  - destruct (decide (v = w)) as [<-|Hne].
    + rewrite lookup_insert_eq. eauto.
    + rewrite lookup_insert_ne by done. by destruct H.
Qed.

Lemma promoting_stable s0 : import_stable E (promoting s0).
Proof.
  split.
  - intros s l n reason [H1 H2] _. by split.
  - intros s n [H1 H2]. by split.
  - intros s f [H1 H2]. by split.
  - intros s v [H1 H2]. split; [done|]. intros var Hm Hin.
    eapply promoted_mono; [by apply H2|done|simpl; set_solver|done].
  - intros s v [H1 H2] Hc. split; [done|]. intros var Hm Hin.
    eapply promoted_mono; [by apply H2|done|done|]. simpl.
    intros w Hw. destruct (decide (v = w)) as [<-|Hne].
    + rewrite lookup_insert_eq. eauto.
    + by rewrite lookup_insert_ne.
  - intros s v cs e [H1 H2] Hc. split; [done|]. intros var Hm Hin.
    eapply promoted_mono; [by apply H2|done|done|]. simpl.
    intros w Hw. destruct (decide (v = w)) as [<-|Hne].
    + rewrite lookup_insert_eq. eauto.
    + by rewrite lookup_insert_ne.
  - intros s v [H1 H2] Hm.
    rewrite add_input_true_Ret by (by apply is_missing_input_not_in). simpl.
    split; [done|]. intros var Hm0 Hin. simpl in Hin.
    apply elem_of_app in Hin as [Hin|Hin].
    + eapply promoted_mono; [by apply H2|simpl..].
      * set_solver.
      * set_solver.
      * intros w Hw. apply is_Some_setdefault. by left.
    + apply list_elem_of_singleton in Hin as ->. split_and!; simpl.
      * set_solver.
      * set_solver.
      * apply is_Some_setdefault. by right.
Qed.

Lemma preserves_in_inputs var : import_stable E (λ s, var ∈ inputs s).
Proof.
  split; try done.
  intros s v Hin Hm.
  rewrite add_input_true_Ret by (by apply is_missing_input_not_in). simpl.
  set_solver.
Qed.

Lemma import_node_check_true s0 node s :
  promoting s0 s →
  ∃ s', import_node_check E true node s = Ret tt s' ∧ promoting s0 s'
    ∧ ∀ var, var ∈ inputs_of s0 node → is_missing_input E s0 var = true → var ∈ inputs s'.
Proof.
  intros Hs. unfold import_node_check, bind at 1, gets at 1.
  assert (inputs_of s node = inputs_of s0 node) as ->.
  { unfold inputs_of. by rewrite (proj1 Hs). }
  apply (for_each_total (promoting s0)
    (λ var s', is_missing_input E s0 var = true → var ∈ inputs s')); [| |done].
  - intros var s1 _ Hs1. unfold bind, gets.
    destruct (is_missing_input E s1 var) eqn:Hm.
    + pose proof (stable_add_input _ _ (promoting_stable s0) s1 var Hs1 Hm) as Hp.
      rewrite add_input_true_Ret in * by (by apply is_missing_input_not_in).
      eexists. split; [done|]. split; [done|]. intros _. simpl. set_solver.
    + exists s1. split; [done|]. split; [done|]. intros Hm0.
      unfold is_missing_input in *.
      apply andb_prop in Hm0 as [Hm0 _]. rewrite Hm0 in Hm. simpl in Hm.
      by apply negb_false_iff, bool_decide_eq_true in Hm.
  - intros var y s1 Hs1. unfold bind, gets.
    destruct (is_missing_input E s1 y) eqn:Hm; [|done].
    intros Hm0. specialize (Hs1 Hm0).
    by apply (stable_add_input _ _ (preserves_in_inputs var)).
Qed.

Lemma import_node_checks_true nodes s :
  ∃ s', for_each (import_node_check E true) nodes s = Ret tt s' ∧ promoting s s'
    ∧ ∀ node var, node ∈ nodes → var ∈ inputs_of s node →
        is_missing_input E s var = true → var ∈ inputs s'.
Proof.
  assert (promoting s s) as Hs.
  { split; [done|]. intros var Hm Hin. by apply is_missing_input_not_in in Hm. }
  destruct (for_each_total (promoting s)
    (λ node s', ∀ var, var ∈ inputs_of s node →
       is_missing_input E s var = true → var ∈ inputs s')
    (import_node_check E true) nodes) with (s := s) as (s' & H1 & H2 & H3); [| |done|].
  - intros node s1 _ Hs1. by apply import_node_check_true.
  - intros node y s1 Hs1 var Hin Hm.
    apply (preserves_import_node_check E _ (preserves_in_inputs var)). by apply Hs1.
  - exists s'. split; [done|]. split; [done|]. intros node var Hn. by apply H3.
Qed.

(** C7 (as amended). Missing-input handling of import: for a variable
    with no owner that is not a Constant, is not in [inputs] and whose type
    is not the null type, [import_var] without [import_missing] raises
    [MissingInputError] and leaves the state as it was, and with
    [import_missing] it returns after appending the variable to [inputs],
    adding it to [variables] and giving it a client list if it had none,
    nothing else changed. With [check] on, [import_node] without
    [import_missing] raises [MissingInputError], the state as it was, as
    soon as an input of a node to import is missing; with [import_missing]
    its checks return, and every such input is an input of the graph in the
    state the call leaves. *)
Theorem import_missing_input :
  (∀ s v reason,
     var_owner E v = None → is_Constant E v = false → v ∉ inputs s →
     is_NullType E (var_type E v) = false →
     import_var E v reason false s = Exn MissingInputError s
     ∧ ∃ s', import_var E v reason true s = Ret tt s'
         ∧ inputs s' = inputs s ++ [v]
         ∧ variables s' = variables s ∪ {[v]}
         ∧ clients s' = match clients s !! v with
                        | Some _ => clients s
                        | None => <[v:=[]]> (clients s)
                        end
         ∧ apply_nodes s' = apply_nodes s ∧ outputs s' = outputs s
         ∧ node_inputs s' = node_inputs s ∧ calls s' = calls s)
  ∧ (∀ s apply_node reason,
     let new_nodes :=
       io_toposort E (node_inputs s) (variables s) (node_outputs E apply_node) in
     ((∃ node var, node ∈ new_nodes ∧ var ∈ inputs_of s node
                   ∧ is_missing_input E s var = true) →
      import_node E apply_node true reason false s = Exn MissingInputError s)
     ∧ (∃ s1, for_each (import_node_check E true) new_nodes s = Ret tt s1)
     ∧ (∀ node var, node ∈ new_nodes → var ∈ inputs_of s node →
        is_missing_input E s var = true →
        promoted var (final (import_node E apply_node true reason true s)))).
Proof.
  split.
  - intros s v reason Ho Hc Hin Hn.
    assert (is_missing_input E s v = true) as Hm.
    { unfold is_missing_input. rewrite Ho, Hc. simpl.
      by rewrite bool_decide_eq_false_2. }
    split.
    + unfold import_var, bind, gets. by rewrite Ho, Hm, Hn.
    + eexists. split.
      * unfold import_var. unfold bind at 1 2 3, gets at 1 2.
        rewrite Ho, Hm, Hn, add_input_true_Ret by done.
        unfold bind, setup_var, variables_add, modify. reflexivity.
      * simpl. split_and!; try done.
        -- by rewrite <- (assoc_L (∪)), (idemp_L (∪)).
        -- destruct (clients s !! v) eqn:Hcl; [by rewrite Hcl|].
           by rewrite lookup_insert_eq.
  - intros s apply_node reason new_nodes. split_and!.
    + intros (node & var & Hnode & Hvar & Hm).
      unfold import_node. unfold bind at 1 2, gets at 1.
      fold new_nodes. rewrite import_node_checks_false.
      replace (existsb _ new_nodes) with true; [done|]. symmetry.
      apply existsb_exists. exists node. split; [by apply list_elem_of_In|].
      apply existsb_exists. exists var. split; [by apply list_elem_of_In|done].
    + destruct (import_node_checks_true new_nodes s) as (s1 & H1 & _). eauto.
    + intros node var Hnode Hvar Hm.
      destruct (import_node_checks_true new_nodes s) as (s1 & H1 & H2 & H3).
      unfold import_node. unfold bind at 1 2, gets at 1. fold new_nodes. rewrite H1.
      assert (preserves (λ s', promoting s s' ∧ var ∈ inputs s')
                (for_each (import_new_node E reason) new_nodes)) as Hp.
      { apply preserves_for_each. intros n _ s2 [Hs2 Hs2'].
        split.
        - by apply (preserves_import_new_node E _ (promoting_stable s)).
        - by apply (preserves_import_new_node E _ (preserves_in_inputs var)). }
      destruct (Hp s1) as [[_ Hq] Hin]; [split; [done|by eapply H3]|].
      by apply Hq.
Qed.

End MissingInput.

(** ** A missing edge in [remove_client] *)

Section MissingEdge.
Variable E : Env.

(** X25. A popped edge that is not in [clients[var]]: no [ValueError]
    surfaces, and the turn goes on as it does for a variable whose last
    client was just removed, whatever is left in the list. A variable
    without owner is removed from [variables] (a [KeyError] if it is not a
    member). For a variable with an owner the outputs of the owner are
    looked at: an exception of that test ends the call; nothing changes and
    nothing is pushed when the test finds an output in use; and otherwise
    the owner is pruned: tagged, removed from [apply_nodes] (a [KeyError]
    if it is not a member), its outputs taken out of [variables],
    [on_prune] fired, and its input edges pushed. The loop then goes on
    with the rest of the stack. *)
Theorem remove_client_missing_edge s var e reason cs :
  clients s !! var = Some cs →
  e ∉ cs →
  remove_client_step E var e reason s = remove_unused E var reason s
  ∧ (∀ fuel rest,
       remove_client_loop E (S fuel) ((var, e) :: rest) reason s
       = match remove_unused E var reason s with
         | Ret pushed s' => remove_client_loop E fuel (reverse pushed ++ rest) reason s'
         | Exn x s' => Some (Exn x s')
         end)
  ∧ (var_owner E var = None →
       remove_client_step E var e reason s
       = if decide (var ∈ variables s)
         then Ret [] (set_variables (λ vs, vs ∖ {[var]}) s)
         else Exn KeyError s)
  ∧ (∀ p x, var_owner E var = Some p →
       any_output_has_clients E (clients s) (node_outputs E p) = inl x →
       remove_client_step E var e reason s = Exn x s)
  ∧ (∀ p, var_owner E var = Some p →
       any_output_has_clients E (clients s) (node_outputs E p) = inr true →
       remove_client_step E var e reason s = Ret [] s)
  ∧ (∀ p, var_owner E var = Some p →
       any_output_has_clients E (clients s) (node_outputs E p) = inr false →
       p ∈ apply_nodes s →
       let s1 := set_variables (λ vs, vs ∖ list_to_set (node_outputs E p))
                   (set_apply_nodes (λ ns, ns ∖ {[p]})
                      (set_removed_by (λ t,
                         <[p := default [] (t !! p) ++ [str_reason reason]]> t) s)) in
       remove_client_step E var e reason s
       = match execute_callbacks E (OnPrune p reason) s1 with
         | Ret _ s2 =>
             Ret ((λ '(i, in_var), (in_var, (CNode p, i))) <$> enumerate (inputs_of s p)) s2
         | Exn x s2 => Exn x s2
         end).
Proof.
  intros Hcs He.
  assert (remove_client_step E var e reason s = remove_unused E var reason s) as Hstep.
  { unfold remove_client_step, get_clients, bind, gets. rewrite Hcs. simpl.
    apply list_remove_None in He. by rewrite He. }
  split_and!.
  - done.
  - intros fuel rest. simpl. by rewrite Hstep.
  - intros Ho. rewrite Hstep. unfold remove_unused. rewrite Ho.
    unfold bind, gets. by case_decide.
  - intros p x Ho Hany. rewrite Hstep. unfold remove_unused. rewrite Ho.
    unfold bind, gets. by rewrite Hany.
  - intros p Ho Hany. rewrite Hstep. unfold remove_unused. rewrite Ho.
    unfold bind, gets. by rewrite Hany.
  - intros p Ho Hany Hp s1. rewrite Hstep. unfold remove_unused. rewrite Ho.
    unfold bind at 1, gets at 1. rewrite Hany.
    unfold bind at 1 2, modify at 1, gets at 1. simpl.
    rewrite decide_True by done.
    unfold bind at 1 2, modify at 1 2. fold s1.
    unfold bind at 1. destruct (execute_callbacks E (OnPrune p reason) s1) as [u s2|x s2] eqn:Hcb; [|done].
    destruct u. unfold bind, gets, ret. do 2 f_equal.
    apply execute_callbacks_Ret in Hcb as ->. done.
Qed.

End MissingEdge.

(** C5. The defect at the failing input: in the example graph the edge
    [(Add, 5)] is not a client of [x], whose clients are [(Add, 0)] and
    [(Mul, 1)]. The call of [remove_client] for it returns after one turn
    of the loop, with [x] no longer in [variables] although both its
    clients are still in [clients[x]] and both nodes are still members that
    hold [x]: the entry was not skipped, and a variable with clients
    remaining was removed. *)
Lemma missing_edge_removes_used_variable :
  clients ex_graph !! 1%positive = Some [(CNode 10, 0); (CNode 11, 1)]
  ∧ ((CNode 10, 5) ∉ [(CNode 10, 0); (CNode 11, 1)])
  ∧ (1%positive) ∈ variables ex_graph
  ∧ (∃ s', remove_client ex_env 1 (CNode 10, 5) None ex_graph = Ret tt s'
      ∧ remove_client_step ex_env 1 (CNode 10, 5) None ex_graph = Ret [] s'
      ∧ ((1%positive) ∉ variables s')
      ∧ (clients s' !! 1%positive) = Some [(CNode 10, 0); (CNode 11, 1)]
      ∧ apply_nodes s' = apply_nodes ex_graph
      ∧ slot s' (CNode 10) 0 = Some 1%positive
      ∧ slot s' (CNode 11) 1 = Some 1%positive).
Proof.
  split_and!.
  - by vm_compute.
  - apply (bool_decide_unpack _). by vm_compute.
  - apply (bool_decide_unpack _). by vm_compute.
  - eexists. split_and!.
    + by vm_compute.
    + by vm_compute.
    + apply (bool_decide_unpack _). by vm_compute.
    + by vm_compute.
    + by vm_compute.
    + by vm_compute.
    + by vm_compute.
Qed.

(** ** The theorems at work on the example graph *)

Lemma change_input_type_mismatch_witness :
  change_input ex_env (CNode 11) 0 8 None false ex_graph = Exn TypeError ex_graph.
Proof.
  refine (change_input_type_mismatch ex_env ex_graph (CNode 11) 0 8 3 None false _ _).
  - by vm_compute.
  - vm_compute. discriminate.
Defined.

Lemma idempotent_replace_witness :
  final (replace ex_env 3 3 None None false ex_graph)
  = printed ex_env 3 3 None None ex_graph.
Proof.
  refine (proj1 (idempotent_replace ex_env ex_graph 3 None None false _ _)).
  - by vm_compute.
  - apply (bool_decide_unpack _). by vm_compute.
Defined.

Lemma replace_not_in_graph_witness :
  replace ex_env 7 2 None None false ex_graph
  = Ret tt (set_io (λ l, l ++ [Warned 7]) (printed ex_env 7 2 None None ex_graph)).
Proof.
  refine (replace_not_in_graph ex_env ex_graph 7 2 2 None None false _ _).
  - by vm_compute.
  - apply (bool_decide_unpack _). by vm_compute.
Defined.

Lemma feature_attach_idempotence_witness :
  attach_feature ex_env 1 ex_graph = Ret tt ex_graph.
Proof.
  refine (proj1 (feature_attach_idempotence ex_env ex_graph 1) _).
  apply (bool_decide_unpack _). by vm_compute.
Defined.

Lemma attach_feature_failure_witness :
  attach_feature ex_env_raising 2 ex_graph
  = Exn InconsistencyError (set_calls (λ c, c ++ [(2%positive, OnAttach)]) ex_graph).
Proof.
  refine (proj1 (attach_feature_failure ex_env_raising ex_graph 2 InconsistencyError
                   _ _ _ _)).
  - apply (bool_decide_unpack _). by vm_compute.
  - by vm_compute.
  - by vm_compute.
  - discriminate.
Defined.

Lemma remove_client_missing_edge_witness :
  remove_client_step ex_env 1 (CNode 10, 5) None ex_graph
  = remove_unused ex_env 1 None ex_graph.
Proof.
  refine (proj1 (remove_client_missing_edge ex_env ex_graph 1 (CNode 10, 5) None
                   [(CNode 10, 0); (CNode 11, 1)] _ _)).
  - by vm_compute.
  - apply (bool_decide_unpack _). by vm_compute.
Defined.

Lemma import_missing_input_witness :
  import_var ex_env 7 None false ex_graph = Exn MissingInputError ex_graph.
Proof.
  refine (proj1 (proj1 (import_missing_input ex_env) ex_graph 7%positive None _ _ _ _)).
  - by vm_compute.
  - by vm_compute.
  - apply (bool_decide_unpack _). by vm_compute.
  - by vm_compute.
Defined.

(** C7, the claim as stated fails: variable [8] has no owner, is not a
    Constant and is not in [inputs], but its type is the null type, and
    [import_var] raises [TypeError] with or without [import_missing]: it is
    neither reported as a missing input nor promoted. *)
Lemma import_null_type_counterexample :
  var_owner ex_env 8 = None
  ∧ is_Constant ex_env 8 = false
  ∧ ((8%positive) ∉ inputs ex_graph)
  ∧ import_var ex_env 8 None false ex_graph = Exn TypeError ex_graph
  ∧ import_var ex_env 8 None true ex_graph = Exn TypeError ex_graph.
Proof.
  split_and!; try by vm_compute.
  apply (bool_decide_unpack _). by vm_compute.
Qed.

(** ** Input purity *)

(** Every element of [inputs] has no owner and is not a Constant, and no
    element occurs twice. *)
Definition input_purity (E : Env) (s : State) : Prop :=
  (∀ v, v ∈ inputs s → var_owner E v = None ∧ is_Constant E v = false)
  ∧ NoDup (inputs s).

(** [P] looks at [inputs] only. *)
Definition inputs_only (P : State → Prop) : Prop :=
  ∀ s s', inputs s = inputs s' → P s → P s'.

Section InputPurity.
Variable E : Env.
Context (P : State → Prop) (Hio : inputs_only P).

Ltac pmodify :=
  apply preserves_modify; let s := fresh "s" in let Hs := fresh "Hs" in
  intros s Hs; by apply (Hio s).

Ltac psteps :=
  repeat first
    [ pstep | pmodify
    | apply preserves_execute_callbacks;
      let s := fresh "s" in intros s ? ? ?; by apply (Hio s) ].

Lemma preserves_add_client_io v e : preserves P (add_client v e).
Proof. unfold add_client, get_clients. psteps. Qed.

Lemma preserves_remove_unused v reason : preserves P (remove_unused E v reason).
Proof. unfold remove_unused. psteps. Qed.

Lemma preserves_remove_client_step v e reason :
  preserves P (remove_client_step E v e reason).
Proof.
  unfold remove_client_step, get_clients. psteps; apply preserves_remove_unused.
Qed.

Lemma preserves_remove_client_loop fuel stack reason s r :
  P s → remove_client_loop E fuel stack reason s = Some r → P (final r).
Proof.
  revert stack s. induction fuel as [|fuel IH]; intros [|[v e] rest] s Hs; simpl;
    try (by intros [= <-]); try done.
  pose proof (preserves_remove_client_step v e reason s Hs) as Hstep.
  destruct (remove_client_step E v e reason s) as [pushed s'|x s']; simpl in Hstep.
  - by apply IH.
  - by intros [= <-].
Qed.

Lemma preserves_remove_client v e reason : preserves P (remove_client E v e reason).
Proof.
  intros s Hs. unfold remove_client.
  destruct (remove_client_loop E (removal_fuel s) [(v, e)] reason s) as [r|] eqn:Hr;
    [|done].
  by eapply preserves_remove_client_loop.
Qed.

Lemma preserves_change_slot node i new_var : preserves P (change_slot E node i new_var).
Proof. unfold change_slot. destruct node; psteps. Qed.

Lemma preserves_assert_client node i v : preserves P (assert_client node i v).
Proof. intros s Hs. by rewrite assert_client_final. Qed.

Lemma preserves_attach_feature f : preserves P (attach_feature E f).
Proof.
  unfold attach_feature. apply preserves_gets_bind. intros s Hs.
  case_decide; [done|].
  assert (∀ s', P s' → P (final ((let* _ := modify (set_times (λ t, t ∪ {[f]})) in
            modify (set_features (λ l, l ++ [f]))) s'))) as Hatt.
  { intros s' Hs'. by apply (Hio s'). }
  destruct (has_method E f on_attach); [|by apply Hatt].
  pose proof (call_feature_final E f OnAttach s) as Hc.
  assert (P (set_calls (λ c, c ++ [(f, OnAttach)]) s)) as Hs' by (by apply (Hio s)).
  destruct (call_feature E f OnAttach s) as [u s'|x s']; simpl in Hc; subst.
  - by apply Hatt.
  - by destruct x.
Qed.

Lemma preserves_remove_feature f : preserves P (remove_feature E f).
Proof.
  unfold remove_feature. psteps.
  intros s Hs. rewrite call_feature_final. by apply (Hio s).
Qed.

Context (HP : import_stable E P).

Lemma preserves_change_input node i new_var reason import_missing :
  preserves P (change_input E node i new_var reason import_missing).
Proof.
  unfold change_input. pstep; [apply preserves_change_slot|].
  case_decide; [apply preserves_ret|].
  pstep; [by apply preserves_import_var|].
  pstep; [apply preserves_add_client_io|].
  pstep; [apply preserves_remove_client|].
  apply preserves_execute_callbacks. intros s ? ? ?. by apply (Hio s).
Qed.

Lemma preserves_replace var new_var reason verbose import_missing :
  preserves P (replace E var new_var reason verbose import_missing).
Proof.
  unfold replace, check_test_values, get_clients. psteps.
  all: try apply preserves_assert_client.
  all: apply preserves_change_input.
Qed.

End InputPurity.

(** The arguments [__init__] goes on with after its first lines, and the
    state then: the inputs and outputs it is given, with
    [graph_inputs(outputs)] for no inputs, or, with [clone], their images
    [memo[i]] and [memo[o]] under the memo of [clone_get_equiv]. [None]: the
    memo lacks one of them, a [KeyError]. *)
Definition init_args (E : Env) (ins : option (list Var)) (outs : list Var)
    (clone : bool) (s : State) : option (list Var * list Var * State) :=
  let h := node_inputs s in
  let ins := default (graph_inputs E h outs) ins in
  if clone then
    let '(h', memo) := clone_get_equiv E h ins outs in
    match mapM (λ o, memo !! o) outs, mapM (λ i, memo !! i) ins with
    | Some outs', Some ins' => Some (ins', outs', set_node_inputs (λ _, h') s)
    | _, _ => None
    end
  else Some (ins, outs, s).

(** Every element of [inputs] has no owner. *)
Definition inputs_ownerless (E : Env) (s : State) : Prop :=
  ∀ v, v ∈ inputs s → var_owner E v = None.

Section InputPurityInv.
Variable E : Env.

Lemma input_purity_inputs_only : inputs_only (input_purity E).
Proof. intros s s' Heq. unfold input_purity. by rewrite Heq. Qed.

Lemma input_purity_add s v check :
  input_purity E s → var_owner E v = None → is_Constant E v = false →
  v ∉ inputs s → input_purity E (final (add_input v check s)).
Proof.
  intros [H1 H2] Ho Hc Hv. unfold add_input, bind at 1, gets at 1.
  rewrite (bool_decide_eq_false_2 _ Hv), andb_false_r. simpl. split.
  - intros w [Hw|Hw]%elem_of_app; [by apply H1|].
    by apply list_elem_of_singleton in Hw as ->.
  - apply NoDup_app. split_and!; [done| |apply NoDup_singleton].
    intros w Hw ->%list_elem_of_singleton. done.
Qed.

Lemma input_purity_stable : import_stable E (input_purity E).
Proof.
  split; try (intros; by eapply input_purity_inputs_only; [|eassumption]).
  intros s v Hs Hm. pose proof (is_missing_input_not_in E _ _ Hm) as Hv.
  unfold is_missing_input in Hm.
  apply andb_prop in Hm as [[Ho Hc]%andb_prop _].
  apply bool_decide_eq_true in Ho. apply negb_true_iff in Hc.
  by apply input_purity_add.
Qed.

Lemma add_input_false_Ret v s :
  add_input v false s
  = Ret tt (set_variables (λ vs, vs ∪ {[v]})
      (set_clients (λ c, match c !! v with Some _ => c | None => <[v:=[]]> c end)
         (set_inputs (λ l, l ++ [v]) s))).
Proof. done. Qed.

(** The loop of [__init__] over the inputs it is given. *)
Lemma init_inputs_purity ins s :
  input_purity E s →
  NoDup (inputs s ++ ins) →
  (∀ v, v ∈ ins → is_Constant E v = false) →
  input_purity E (final (for_each (λ in_var,
     match var_owner E in_var with
     | Some _ => raise ValueError
     | None => add_input in_var false
     end) ins s)).
Proof.
  revert s. induction ins as [|v ins IH]; intros s Hs Hnd Hc; simpl; [done|].
  unfold bind. destruct (var_owner E v) eqn:Ho; [done|].
  assert (v ∉ inputs s) as Hv.
  { apply NoDup_app in Hnd as (_ & Hnd & _). intros Hin. apply (Hnd v Hin). left. }
  pose proof (input_purity_add s v false Hs Ho (Hc v ltac:(left)) Hv) as Hadd.
  rewrite add_input_false_Ret in *. simpl in Hadd.
  apply IH; [done| |].
  - simpl. by rewrite <- app_assoc.
  - intros w Hw. apply Hc. by right.
Qed.

Lemma init_inputs_owner ins s v :
  v ∈ ins → var_owner E v ≠ None →
  ∃ s', for_each (λ in_var,
     match var_owner E in_var with
     | Some _ => raise ValueError
     | None => add_input in_var false
     end) ins s = Exn ValueError s'.
Proof.
  revert s. induction ins as [|w ins IH]; intros s Hv Ho; [by apply elem_of_nil in Hv|].
  simpl. unfold bind. destruct (var_owner E w) eqn:Hw; [by eexists|].
  apply elem_of_cons in Hv as [->|Hv]; [done|].
  rewrite add_input_false_Ret. by apply IH.
Qed.

Lemma init_args_Some ins outs features clone s ins' outs' s0 :
  init_args E ins outs clone s = Some (ins', outs', s0) →
  __init__ E ins (Some outs) features clone s
  = init_graph E ins' outs' (default [] features) s0.
Proof.
  unfold init_args, __init__. unfold bind at 1, gets at 1. destruct clone.
  - destruct (clone_get_equiv E (node_inputs s)
                (default (graph_inputs E (node_inputs s) outs) ins) outs) as [h' memo].
    destruct (mapM (λ o, memo !! o) outs) as [outs1|]; [|done].
    destruct (mapM (λ i, memo !! i) _) as [ins1|]; [|done].
    by intros [= <- <- <-].
  - by intros [= <- <- <-].
Qed.

Lemma init_Ret_args ins outs features clone s s' :
  __init__ E ins outs features clone s = Ret tt s' →
  ∃ outs0 ins' outs' s0,
    outs = Some outs0 ∧ init_args E ins outs0 clone s = Some (ins', outs', s0)
    ∧ init_graph E ins' outs' (default [] features) s0 = Ret tt s'.
Proof.
  destruct outs as [outs|]; [|done]. intros Hrun. exists outs.
  destruct (init_args E ins outs clone s) as [[[ins' outs'] s0]|] eqn:Hargs.
  - exists ins', outs', s0. by rewrite (init_args_Some _ _ features _ _ _ _ _ Hargs) in Hrun.
  - exfalso. unfold init_args in Hargs. unfold __init__ in Hrun.
    unfold bind at 1, gets at 1 in Hrun. destruct clone; [|done].
    destruct (clone_get_equiv E (node_inputs s)
                (default (graph_inputs E (node_inputs s) outs) ins) outs) as [h' memo].
    destruct (mapM (λ o, memo !! o) outs) as [outs1|]; [|done].
    destruct (mapM (λ i, memo !! i) _) as [ins1|]; done.
Qed.

Lemma inputs_ownerless_inputs_only : inputs_only (inputs_ownerless E).
Proof. intros s s' Heq. unfold inputs_ownerless. by rewrite Heq. Qed.

Lemma inputs_ownerless_stable : import_stable E (inputs_ownerless E).
Proof.
  split; try (intros; by eapply inputs_ownerless_inputs_only; [|eassumption]).
  intros s v Hs Hm. pose proof (is_missing_input_not_in E _ _ Hm) as Hv.
  rewrite (add_input_true_Ret v s Hv). simpl.
  unfold is_missing_input in Hm.
  apply andb_prop in Hm as [[Ho _]%andb_prop _]. apply bool_decide_eq_true in Ho.
  intros w [Hw|Hw]%elem_of_app; [by apply Hs|].
  by apply list_elem_of_singleton in Hw as ->.
Qed.

(** The loop of [__init__] over its inputs, when it returns. *)
Lemma init_inputs_ownerless ins s s' :
  inputs_ownerless E s →
  for_each (λ in_var,
     match var_owner E in_var with
     | Some _ => raise ValueError
     | None => add_input in_var false
     end) ins s = Ret tt s' →
  inputs_ownerless E s'.
Proof.
  revert s. induction ins as [|v ins IH]; intros s Hs; simpl.
  - by intros [= <-].
  - unfold bind. destruct (var_owner E v) eqn:Ho; [done|].
    rewrite add_input_false_Ret. apply IH. simpl.
    intros w [Hw|Hw]%elem_of_app; [by apply Hs|].
    by apply list_elem_of_singleton in Hw as ->.
Qed.

Lemma init_graph_ownerless ins outs features s s' :
  init_graph E ins outs features s = Ret tt s' → inputs_ownerless E s'.
Proof.
  intros Hrun. unfold init_graph in Hrun.
  apply bind_Ret_inv in Hrun as (u & s1 & _ & Hrun).
  apply bind_Ret_inv in Hrun as (u1 & s2 & Hm & Hrun).
  assert (s2 = set_inputs (λ _, []) s1) as -> by (by injection Hm as <-).
  apply bind_Ret_inv in Hrun as (u2 & s3 & Hins & Hrun).
  destruct u2. apply init_inputs_ownerless in Hins; [|by intros w ?%elem_of_nil].
  pose proof inputs_ownerless_inputs_only as Hio.
  pose proof inputs_ownerless_stable as Hst.
  assert (preserves (inputs_ownerless E)
            (let* _ := for_each (λ output, import_var E output (Some "init"%string) false) outs in
             for_each (λ '(i, output), add_client output (COutput, i)) (enumerate outs)))
    as Hp.
  { pstep.
    - pstep. by apply preserves_import_var.
    - pstep. destruct x. by apply preserves_add_client_io. }
  specialize (Hp s3 Hins). by rewrite Hrun in Hp.
Qed.

Lemma init_graph_purity ins outs features s :
  NoDup ins → (∀ v, v ∈ ins → is_Constant E v = false) →
  input_purity E (final (init_graph E ins outs features s)).
Proof.
  pose proof input_purity_inputs_only as Hio.
  pose proof input_purity_stable as Hst.
  intros Hnd Hc. unfold init_graph.
  assert (inputs_only (λ s', inputs s' = [])) as Hio0.
  { intros ?? Heq. by rewrite Heq. }
  assert (inputs (final (init_features E outs features s)) = []) as Hf.
  { unfold init_features. apply preserves_bind_at; [done|]. intros _.
    pstep; [pstep|]; intros; by apply preserves_attach_feature. }
  unfold bind at 1.
  destruct (init_features E outs features s) as [u s1|x s1]; simpl in Hf.
  2: { unfold input_purity. simpl. rewrite Hf.
       split; [by intros ? ?%elem_of_nil|apply NoDup_nil_2]. }
  unfold bind at 1, modify at 1.
  apply preserves_bind_at.
  + apply init_inputs_purity; simpl; [|done..].
    split; [by intros ? ?%elem_of_nil|apply NoDup_nil_2].
  + intros _. pstep.
    * pstep. by apply preserves_import_var.
    * pstep. destruct x. by apply preserves_add_client_io.
Qed.

(** C4 (as amended). Input purity. The constructor tests the inputs it
    registers: the inputs it is given ([graph_inputs(outputs)] for none),
    or, with [clone], their clones [memo[i]]. It raises [ValueError] when
    one of them has an owner (once the features are attached), for
    [clone=False] when an input it is given has an owner; so in every
    graph it makes every element of [inputs] has no owner. When the
    registered inputs are pairwise distinct and none of them is a
    Constant, the state it leaves has pure inputs: every element of
    [inputs] has no owner and is not a Constant, and no element occurs
    twice. Pure inputs are kept by [import_var], [import_node],
    [change_input], [replace], [remove_client], [attach_feature] and
    [remove_feature], however the call ends, and by [add_input] of a
    variable without owner and value that is not yet an input. *)
Theorem input_purity_invariant :
  (∀ ins outs features clone s ins' outs' s0 s1 v,
     init_args E ins outs clone s = Some (ins', outs', s0) →
     init_features E outs' (default [] features) s0 = Ret tt s1 →
     v ∈ ins' → var_owner E v ≠ None →
     ∃ s', __init__ E ins (Some outs) features clone s = Exn ValueError s')
  ∧ (∀ ins outs features s s1 v,
     init_features E outs (default [] features) s = Ret tt s1 →
     v ∈ ins → var_owner E v ≠ None →
     ∃ s', __init__ E (Some ins) (Some outs) features false s = Exn ValueError s')
  ∧ (∀ ins outs features clone s s',
     __init__ E ins outs features clone s = Ret tt s' →
     ∀ v, v ∈ inputs s' → var_owner E v = None)
  ∧ (∀ ins outs features clone s ins' outs' s0,
     init_args E ins outs clone s = Some (ins', outs', s0) →
     NoDup ins' → (∀ v, v ∈ ins' → is_Constant E v = false) →
     input_purity E (final (__init__ E ins (Some outs) features clone s)))
  ∧ (∀ s, input_purity E s →
     (∀ v reason import_missing,
        input_purity E (final (import_var E v reason import_missing s)))
     ∧ (∀ n check reason import_missing,
        input_purity E (final (import_node E n check reason import_missing s)))
     ∧ (∀ node i new_var reason import_missing,
        input_purity E (final (change_input E node i new_var reason import_missing s)))
     ∧ (∀ var new_var reason verbose import_missing,
        input_purity E (final (replace E var new_var reason verbose import_missing s)))
     ∧ (∀ v e reason, input_purity E (final (remove_client E v e reason s)))
     ∧ (∀ f, input_purity E (final (attach_feature E f s)))
     ∧ (∀ f, input_purity E (final (remove_feature E f s)))
     ∧ (∀ v check, var_owner E v = None → is_Constant E v = false → v ∉ inputs s →
        input_purity E (final (add_input v check s)))).
Proof.
  pose proof input_purity_inputs_only as Hio.
  pose proof input_purity_stable as Hst.
  assert (∀ ins outs features s s1 v,
     init_features E outs features s = Ret tt s1 →
     v ∈ ins → var_owner E v ≠ None →
     ∃ s', init_graph E ins outs features s = Exn ValueError s') as Hraise.
  { intros ins outs features s s1 v Hf Hv Ho. unfold init_graph.
    rewrite (bind_Ret _ _ _ _ _ Hf). unfold bind at 1, modify at 1.
    destruct (init_inputs_owner ins (set_inputs (λ _, []) s1) v Hv Ho) as [s' Hs'].
    exists s'. by rewrite (bind_Exn _ _ _ _ _ Hs'). }
  split_and!.
  - intros ins outs features clone s ins' outs' s0 s1 v Hargs Hf Hv Ho.
    rewrite (init_args_Some _ _ features _ _ _ _ _ Hargs). by eapply Hraise.
  - intros ins outs features s s1 v Hf Hv Ho.
    rewrite (init_args_Some (Some ins) outs features false s ins outs s eq_refl).
    by eapply Hraise.
  - intros ins outs features clone s s' Hrun.
    apply init_Ret_args in Hrun as (outs0 & ins' & outs' & s0 & _ & _ & Hrun).
    by eapply init_graph_ownerless.
  - intros ins outs features clone s ins' outs' s0 Hargs Hnd Hc.
    rewrite (init_args_Some _ _ features _ _ _ _ _ Hargs). by apply init_graph_purity.
  - intros s Hs. split_and!; intros.
    + by apply preserves_import_var.
    + by apply preserves_import_node.
    + by apply preserves_change_input.
    + by apply preserves_replace.
    + by apply preserves_remove_client.
    + by apply preserves_attach_feature.
    + by apply preserves_remove_feature.
    + by apply input_purity_add.
Qed.

End InputPurityInv.

(** The example environment with a [clone_get_equiv] that clones: for the
    inputs [[a, x]] and the outputs [[b]] the clone of [a = 3] is [23], that
    of [x = 1] is [24], and the clone [21] of [Mul] has the inputs
    [[23, 24]] and the output [25], the clone of [b = 4]. The clones of the
    inputs have no owner. *)
Definition ex_env_clone : Env := {|
  var_type := var_type ex_env;
  var_owner := λ v, if decide (v = 25%positive) then Some 21%positive else ex_owner v;
  is_Constant := is_Constant ex_env;
  is_NullType := is_NullType ex_env;
  node_outputs := λ n, if decide (n = 21%positive) then [25%positive] else ex_outputs n;
  bad_view_map := bad_view_map ex_env;
  bad_destroy_map := bad_destroy_map ex_env;
  filter_variable := filter_variable ex_env;
  io_toposort := io_toposort_model
    (λ v, if decide (v = 25%positive) then Some 21%positive else ex_owner v);
  graph_inputs := graph_inputs ex_env;
  clone_get_equiv := λ h ins outs,
    if decide (ins = [3; 1]%positive ∧ outs = [4%positive])
    then (<[21%positive := [23; 24]%positive]> h,
          {[ 3%positive := 23%positive; 1%positive := 24%positive;
             4%positive := 25%positive ]})
    else (h, ∅);
  test_value_shape := test_value_shape ex_env;
  optimizer_verbose := optimizer_verbose ex_env;
  compute_test_value := compute_test_value ex_env;
  has_method := has_method ex_env;
  call_method := call_method ex_env;
  ReplaceValidate := ReplaceValidate ex_env;
  var_bool := var_bool ex_env
|}.

(** C4, the claim as stated fails: the constructor takes the input list
    [[x, x]] and leaves [inputs = [x, x]], and it takes the Constant [9] as
    an input; and with [clone], its default, it takes the input [a], which
    has an owner, without a [ValueError]: the input it registers is the
    clone of [a]. *)
Lemma input_purity_counterexample :
  (∃ s : State,
     __init__ ex_env (Some [1; 1]%positive) (Some [1%positive]) None false ex_world
     = Ret tt s
     ∧ inputs s = [1; 1]%positive)
  ∧ (∃ s : State,
     __init__ ex_env (Some [9%positive]) (Some [9%positive]) None false ex_world
     = Ret tt s
     ∧ inputs s = [9%positive] ∧ is_Constant ex_env 9 = true)
  ∧ (∃ s : State,
     __init__ ex_env_clone (Some [3; 1]%positive) (Some [4%positive]) None true ex_world
     = Ret tt s
     ∧ var_owner ex_env_clone 3 = Some 10%positive
     ∧ inputs s = [23; 24]%positive).
Proof. split_and!; eexists; split_and!; by vm_compute. Qed.

Lemma input_purity_invariant_witness :
  (∃ s', __init__ ex_env (Some [3; 1]%positive) (Some [4%positive]) (Some [1%positive])
           false ex_world = Exn ValueError s')
  ∧ input_purity ex_env_clone
      (final (__init__ ex_env_clone (Some [3; 1]%positive) (Some [4%positive])
                (Some [1%positive]) true ex_world))
  ∧ input_purity ex_env
      (final (__init__ ex_env (Some [1; 2]%positive) (Some [4%positive])
                (Some [1%positive]) false ex_world)).
Proof.
  split_and!.
  - refine (proj1 (proj2 (input_purity_invariant ex_env))
              [3; 1]%positive [4%positive] (Some [1%positive]) ex_world
              (final (init_features ex_env [4%positive] [1%positive] ex_world))
              3%positive _ _ _).
    + by vm_compute.
    + apply (bool_decide_unpack _). by vm_compute.
    + by vm_compute.
  - refine (proj1 (proj2 (proj2 (proj2 (input_purity_invariant ex_env_clone))))
              (Some [3; 1]%positive) [4%positive] (Some [1%positive]) true ex_world
              [23; 24]%positive [25%positive]
              (set_node_inputs (λ _, <[21%positive := [23; 24]%positive]>
                                       (node_inputs ex_world)) ex_world) _ _ _).
    + by vm_compute.
    + apply (bool_decide_unpack _). by vm_compute.
    + intros v Hv. apply (bool_decide_unpack _).
      apply elem_of_cons in Hv as [->|Hv]; [by vm_compute|].
      apply list_elem_of_singleton in Hv as ->. by vm_compute.
  - refine (proj1 (proj2 (proj2 (proj2 (input_purity_invariant ex_env))))
              (Some [1; 2]%positive) [4%positive] (Some [1%positive]) false ex_world
              [1; 2]%positive [4%positive] ex_world _ _ _).
    + by vm_compute.
    + apply (bool_decide_unpack _). by vm_compute.
    + intros v Hv. apply (bool_decide_unpack _).
      apply elem_of_cons in Hv as [->|Hv]; [by vm_compute|].
      apply list_elem_of_singleton in Hv as ->. by vm_compute.
Defined.

(** ** The back-edge invariant *)

(** The client is a member of the graph: the string ["output"], or a node
    of [apply_nodes]. *)
Definition member (s : State) (c : Client) : Prop :=
  match c with
  | COutput => True
  | CNode n => n ∈ apply_nodes s
  end.

(** The edge [e = (c, i)] is a use of [v] by a member: [i] is a position
    counted from the start, the slot [(c, i)] holds [v], and [c] is a
    member. *)
Definition edge_live (s : State) (v : Var) (e : Client * Z) : Prop :=
  0 ≤ e.2 ∧ slot s e.1 e.2 = Some v ∧ member s e.1.

(** Back-edge soundness: every pair [(c, i)] of [clients[v]] is the string
    ["output"] with [outputs[i] is v], or a node with [c.inputs[i] is v]. *)
Definition back_edge_sound (s : State) : Prop :=
  ∀ v cs c i, clients s !! v = Some cs → (c, i) ∈ cs → slot s c i = Some v.

(** The number of entries of a client list for the node [n], and the
    number of occurrences of [v] in a list of inputs. *)
Definition client_count (n : Apply) (cs : list (Client * Z)) : nat :=
  length (filter (λ e, e.1 = CNode n) cs).

Definition occurrences (v : Var) (l : list Var) : nat :=
  length (filter (λ w, w = v) l).

(** Multiplicities match: a variable that occurs in the inputs of a member
    node has a client list, and a client list has as many entries for a member
    node as its variable has occurrences in the node's inputs. *)
Definition multiplicities_match (s : State) : Prop :=
  ∀ n v, n ∈ apply_nodes s →
    (v ∈ inputs_of s n → is_Some (clients s !! v))
    ∧ ∀ cs, clients s !! v = Some cs → client_count n cs = occurrences v (inputs_of s n).

(** The invariant in the middle of an operation. [pend] lists the edges
    still to be removed from the client lists: the worklist of
    [remove_client]. No client list has an edge twice, and every edge of a
    client list is live or is still to be removed. *)
Record sound_inv (s : State) (pend : list (Var * (Client * Z))) : Prop := {
  inv_nodup : ∀ v cs, clients s !! v = Some cs → NoDup cs;
  inv_live : ∀ v cs e, clients s !! v = Some cs → e ∈ cs →
             edge_live s v e ∨ (v, e) ∈ pend
}.

(** Every live edge outside [hole] is in the client list of its variable,
    and no edge still to be removed is live. [hole] holds the edges an
    operation has yet to add. *)
Record complete_inv (s : State) (pend : list (Var * (Client * Z)))
    (hole : Client * Z → Prop) : Prop := {
  inv_complete : ∀ v e, edge_live s v e → ¬ hole e →
                 ∃ cs, clients s !! v = Some cs ∧ e ∈ cs;
  inv_dead : ∀ v e, (v, e) ∈ pend → ¬ edge_live s v e
}.

(** The invariant of a graph under construction or change; [full] says
    whether completeness is part of it. [absent] edges are in no client
    list. Edges to be removed and absent edges are edges of members. *)
Record graph_inv (full : bool) (s : State) (pend : list (Var * (Client * Z)))
    (hole : Client * Z → Prop) (absent : Var → Client * Z → Prop) : Prop := {
  gi_sound : sound_inv s pend;
  gi_complete : full = true → complete_inv s pend hole;
  gi_pend : ∀ v e, (v, e) ∈ pend → member s e.1;
  gi_absent : ∀ v e, absent v e →
              member s e.1 ∧ ∀ cs, clients s !! v = Some cs → e ∉ cs
}.

(** A graph at rest: nothing to remove, nothing to add. *)
Definition well_formed (full : bool) (s : State) : Prop :=
  graph_inv full s [] (λ _, False) (λ _ _, False).

(** The states reached through the public operations, each returning
    normally. [change_input] is called on a slot of a member, with an index
    counted from the start. [direct_removal] says whether [remove_client] is
    among the operations called from outside. *)
Inductive reachable (E : Env) (direct_removal : bool) : State → Prop :=
  | reach_init ins outs features clone s0 s :
      __init__ E ins outs features clone s0 = Ret tt s →
      reachable E direct_removal s
  | reach_import_var v reason import_missing s s' :
      reachable E direct_removal s →
      import_var E v reason import_missing s = Ret tt s' →
      reachable E direct_removal s'
  | reach_import_node n check reason import_missing s s' :
      reachable E direct_removal s →
      import_node E n check reason import_missing s = Ret tt s' →
      reachable E direct_removal s'
  | reach_change_input node i new_var reason import_missing s s' :
      reachable E direct_removal s →
      member s node → 0 ≤ i →
      change_input E node i new_var reason import_missing s = Ret tt s' →
      reachable E direct_removal s'
  | reach_replace var new_var reason verbose import_missing s s' :
      reachable E direct_removal s →
      replace E var new_var reason verbose import_missing s = Ret tt s' →
      reachable E direct_removal s'
  | reach_remove_client v e reason s s' :
      direct_removal = true →
      reachable E direct_removal s →
      remove_client E v e reason s = Ret tt s' →
      reachable E direct_removal s'.

(** The fields the invariant reads. *)
Definition same_core (s s' : State) : Prop :=
  node_inputs s = node_inputs s' ∧ outputs s = outputs s'
  ∧ apply_nodes s = apply_nodes s' ∧ clients s = clients s'.

Lemma same_core_refl s : same_core s s.
Proof. done. Qed.

Lemma same_core_slot s s' c i : same_core s s' → slot s c i = slot s' c i.
Proof.
  intros (Hn & Ho & _). destruct c; simpl; unfold inputs_of; by rewrite ?Hn, ?Ho.
Qed.

Lemma same_core_member s s' c : same_core s s' → member s c ↔ member s' c.
Proof. intros (_ & _ & Ha & _). destruct c; simpl; by rewrite ?Ha. Qed.

Lemma same_core_live s s' v e : same_core s s' → edge_live s v e ↔ edge_live s' v e.
Proof.
  intros Hc. unfold edge_live.
  by rewrite (same_core_slot _ _ _ _ Hc), (same_core_member _ _ _ Hc).
Qed.

Lemma graph_inv_core full s s' pend hole absent :
  same_core s s' → graph_inv full s pend hole absent → graph_inv full s' pend hole absent.
Proof.
  intros Hc [[Hnd Hlive] Hcomp Hpend Habs].
  pose proof Hc as (_ & _ & _ & Hcl).
  split; [split| | |].
  - intros v cs. rewrite <- Hcl. apply Hnd.
  - intros v cs e. rewrite <- Hcl, <- (same_core_live _ _ _ _ Hc). apply Hlive.
  - intros Hf. destruct (Hcomp Hf) as [Hco Hde]. split.
    + intros v e. rewrite <- Hcl, <- (same_core_live _ _ _ _ Hc). apply Hco.
    + intros v e. rewrite <- (same_core_live _ _ _ _ Hc). apply Hde.
  - intros v e. rewrite <- (same_core_member _ _ _ Hc). apply Hpend.
  - intros v e. rewrite <- Hcl, <- (same_core_member _ _ _ Hc). apply Habs.
Qed.

(** ** Running a method that returned *)

Lemma gets_Ret {A} (f : State → A) s a s' : gets f s = Ret a s' → a = f s ∧ s' = s.
Proof. by intros [= <- <-]. Qed.

Lemma modify_Ret f s u s' : modify f s = Ret u s' → s' = f s.
Proof. by intros [= <-]. Qed.

Lemma ret_Ret {A} (a : A) s a' s' : ret a s = Ret a' s' → a' = a ∧ s' = s.
Proof. by intros [= <- <-]. Qed.

Ltac inv_ret :=
  repeat match goal with
  | H : bind _ _ _ = Ret _ _ |- _ =>
      let a := fresh "a" in let s := fresh "s" in let H1 := fresh "Hrun" in
      apply bind_Ret_inv in H as (a & s & H1 & H)
  | H : gets _ _ = Ret _ _ |- _ => apply gets_Ret in H as [-> ->]
  | H : modify _ _ = Ret _ _ |- _ => apply modify_Ret in H as ->
  | H : ret _ _ = Ret _ _ |- _ => apply ret_Ret in H as [? ?]; subst
  | H : raise _ _ = Ret _ _ |- _ => discriminate H
  | H : Exn _ _ = Ret _ _ |- _ => discriminate H
  | H : Ret _ _ = Ret _ _ |- _ => injection H as ? ?; subst
  | H : (match ?x with _ => _ end) _ = Ret _ _ |- _ => destruct x eqn:?
  end.

Lemma preserves_Ret {A} P (m : M A) s a s' : preserves P m → P s → m s = Ret a s' → P s'.
Proof. intros Hp Hs Hm. specialize (Hp s Hs). by rewrite Hm in Hp. Qed.

Lemma for_each_Ret {A} (I : State → Prop) (f : A → M unit) l s s' :
  (∀ x s1 s2, x ∈ l → I s1 → f x s1 = Ret tt s2 → I s2) →
  I s → for_each f l s = Ret tt s' → I s'.
Proof.
  revert s. induction l as [|x l IH]; intros s Hf Hs; simpl.
  - by intros [= <-].
  - intros (u & s1 & H1 & H2)%bind_Ret_inv. destruct u.
    eapply IH; [|eapply Hf; [left|done..]|done].
    intros y s2 s3 Hy. apply Hf. by right.
Qed.

Lemma for_each_enumerate_Ret {A} (J : nat → State → Prop) (f : Z * A → M unit)
    (l : list A) k s s' :
  (∀ j x s1 s2, l !! j = Some x → J (k + j)%nat s1 →
     f (Z.of_nat (k + j), x) s1 = Ret tt s2 → J (S (k + j)) s2) →
  J k s → for_each f (enumerate_from k l) s = Ret tt s' → J (k + length l)%nat s'.
Proof.
  revert k s. induction l as [|x l IH]; intros k s Hf Hs; simpl.
  - intros [= <-]. by rewrite Nat.add_0_r.
  - intros (u & s1 & H1 & H2)%bind_Ret_inv. destruct u.
    replace (k + S (length l))%nat with (S k + length l)%nat by lia.
    eapply IH; [| |done].
    + intros j y s2 s3 Hj. replace (S k + j)%nat with (k + S j)%nat by lia.
      by apply Hf.
    + specialize (Hf 0%nat x s s1 eq_refl). rewrite Nat.add_0_r in Hf. by apply Hf.
Qed.

(** ** The invariant under the changes of a client list and of the nodes *)

Lemma edge_live_fun s v v' e : edge_live s v e → edge_live s v' e → v = v'.
Proof. intros (_ & H1 & _) (_ & H2 & _). congruence. Qed.

Lemma complete_inv_hole s pend (hole hole' : Client * Z → Prop) :
  complete_inv s pend hole →
  (∀ v e, edge_live s v e → hole e → hole' e) →
  complete_inv s pend hole'.
Proof.
  intros [Hco Hde] Hh. split; [|done].
  intros v e Hlive Hn. apply Hco; [done|]. intros He. apply Hn. by eapply Hh.
Qed.

Lemma graph_inv_hole full s pend (hole hole' : Client * Z → Prop) absent :
  graph_inv full s pend hole absent →
  (∀ v e, edge_live s v e → hole e → hole' e) →
  graph_inv full s pend hole' absent.
Proof.
  intros [Hs Hc Hp Ha] Hh. split; try done.
  intros Hf. eapply complete_inv_hole; eauto.
Qed.

(** [setup_var] *)
Lemma graph_inv_setup_var full s pend hole absent v :
  graph_inv full s pend hole absent →
  graph_inv full (final (setup_var v s)) pend hole absent.
Proof.
  intros Hinv. unfold setup_var, modify. simpl.
  destruct (clients s !! v) as [cs0|] eqn:Hv.
  { eapply graph_inv_core; [|done]. split_and!; try done.
    simpl. by rewrite Hv. }
  destruct Hinv as [[Hnd Hlive] Hcomp Hpend Habs].
  assert (∀ w cs, clients (set_clients (λ c, match c !! v with
            | Some _ => c | None => <[v:=[]]> c end) s) !! w = Some cs →
          (w = v ∧ cs = []) ∨ (w ≠ v ∧ clients s !! w = Some cs)) as Hlook.
  { intros w cs. simpl. rewrite Hv. destruct (decide (v = w)) as [<-|Hne].
    - rewrite lookup_insert_eq. intros [= <-]. by left.
    - rewrite lookup_insert_ne by done. intros ?. by right. }
  split; [split| | |].
  - intros w cs Hw. apply Hlook in Hw as [[? ?]|[_ Hw]]; subst;
      [apply NoDup_nil_2|by eapply Hnd].
  - intros w cs e Hw He. apply Hlook in Hw as [[? ?]|[_ Hw]]; subst;
      [by apply elem_of_nil in He|].
    by eapply Hlive.
  - intros Hf. destruct (Hcomp Hf) as [Hco Hde]. split; [|done].
    intros w e Hl Hh. destruct (Hco w e Hl Hh) as (cs & Hcs & He).
    exists cs. split; [|done]. simpl. rewrite Hv.
    rewrite lookup_insert_ne; [done|]. intros ->. congruence.
  - done.
  - intros w e Hab. destruct (Habs w e Hab) as [Hm Hno]. split; [done|].
    intros cs Hw. apply Hlook in Hw as [[? ?]|[_ Hw]]; subst;
      [apply not_elem_of_nil|by eapply Hno].
Qed.

(** Appending a live edge that is not yet there fills its hole. *)
Lemma graph_inv_append full s pend hole absent v cs e :
  graph_inv full s pend hole absent →
  clients s !! v = Some cs → e ∉ cs → edge_live s v e → ¬ absent v e →
  graph_inv full (set_clients <[v := cs ++ [e]]> s) pend
    (λ e', hole e' ∧ e' ≠ e) absent.
Proof.
  intros [[Hnd Hlive] Hcomp Hpend Habs] Hv He Hl Hnab.
  assert (∀ w cs', clients (set_clients <[v := cs ++ [e]]> s) !! w = Some cs' →
          (w = v ∧ cs' = cs ++ [e]) ∨ (w ≠ v ∧ clients s !! w = Some cs')) as Hlook.
  { intros w cs'. simpl. destruct (decide (v = w)) as [<-|Hne].
    - rewrite lookup_insert_eq. intros [= <-]. by left.
    - rewrite lookup_insert_ne by done. intros ?. by right. }
  split; [split| | |].
  - intros w cs' Hw. apply Hlook in Hw as [[? ?]|[_ Hw]]; subst; [|by eapply Hnd].
    apply NoDup_app. split_and!; [by eapply Hnd| |apply NoDup_singleton].
    intros x Hx ->%list_elem_of_singleton. done.
  - intros w cs' e' Hw He'. apply Hlook in Hw as [[? ?]|[_ Hw]]; subst;
      [|by eapply Hlive].
    apply elem_of_app in He' as [He'|He']; [by eapply Hlive|].
    apply list_elem_of_singleton in He' as ->. by left.
  - intros Hf. destruct (Hcomp Hf) as [Hco Hde]. split; [|done].
    intros w e' Hl' Hh. destruct (decide (e' = e)) as [->|Hne].
    + assert (w = v) as -> by (by eapply edge_live_fun).
      exists (cs ++ [e]). simpl. rewrite lookup_insert_eq. split; [done|].
      apply elem_of_app. right. by apply list_elem_of_singleton.
    + destruct (Hco w e' Hl') as (cs' & Hcs' & He'); [tauto|].
      destruct (decide (v = w)) as [<-|Hvw].
      * exists (cs ++ [e]). simpl. rewrite lookup_insert_eq. split; [done|].
        apply elem_of_app. left. congruence.
      * exists cs'. simpl. by rewrite lookup_insert_ne.
  - done.
  - intros w e' Hab. destruct (Habs w e' Hab) as [Hm Hno]. split; [done|].
    intros cs' Hw. apply Hlook in Hw as [[? ?]|[_ Hw]]; subst; [|by eapply Hno].
    intros [He'|He']%elem_of_app; [by eapply Hno|].
    apply list_elem_of_singleton in He' as ->. done.
Qed.

(** A node that is not a member has no edge in a client list. *)
Lemma graph_inv_no_entry full s pend hole absent n v cs j :
  graph_inv full s pend hole absent → n ∉ apply_nodes s →
  clients s !! v = Some cs → (CNode n, j) ∉ cs.
Proof.
  intros [[Hnd Hlive] _ Hpend _] Hn Hv He.
  destruct (Hlive v cs _ Hv He) as [(_ & _ & Hm)|Hp]; [done|].
  by apply Hpend in Hp.
Qed.

(** Adding a node to [apply_nodes] opens the holes of its input edges. *)
Lemma graph_inv_add_node full s pend hole absent n :
  graph_inv full s pend hole absent → n ∉ apply_nodes s →
  graph_inv full (set_apply_nodes (λ ns, ns ∪ {[n]}) s) pend
    (λ e, hole e ∨ e.1 = CNode n) absent.
Proof.
  intros Hinv Hn. pose proof Hinv as [[Hnd Hlive] Hcomp Hpend Habs].
  assert (∀ c, member s c → member (set_apply_nodes (λ ns, ns ∪ {[n]}) s) c) as Hmem.
  { intros [|m]; simpl; [done|]. intros Hm. apply elem_of_union. by left. }
  assert (∀ v e, edge_live (set_apply_nodes (λ ns, ns ∪ {[n]}) s) v e →
                 e.1 ≠ CNode n → edge_live s v e) as Hback.
  { intros v [c i] (H0 & Hs & Hm) Hc. split_and!; [done..|].
    destruct c as [|m]; simpl in *; [done|].
    apply elem_of_union in Hm as [Hm|Hm]; [done|].
    apply elem_of_singleton in Hm. congruence. }
  split; [split| | |].
  - done.
  - intros v cs e Hv He. destruct (Hlive v cs e Hv He) as [(H0 & Hs & Hm)|Hp];
      [left|by right].
    split_and!; [done..|]. by apply Hmem.
  - intros Hf. destruct (Hcomp Hf) as [Hco Hde]. split.
    + intros v e Hl Hh. apply Hco; [|tauto]. apply Hback; tauto.
    + intros v e Hp Hl. apply (Hde v e Hp). apply Hback; [done|].
      intros He. apply Hpend in Hp. rewrite He in Hp. done.
  - intros v e Hp. apply Hmem. by eapply Hpend.
  - intros v e Hab. destruct (Habs v e Hab). split; [by apply Hmem|done].
Qed.

(** ** The invariant through the import methods *)

Section ImportInv.
Variable E : Env.
Context (full : bool) (pend : list (Var * (Client * Z)))
  (absent : Var → Client * Z → Prop).

Lemma graph_inv_variables_add hole v s :
  graph_inv full s pend hole absent →
  graph_inv full (final (variables_add v s)) pend hole absent.
Proof. by apply graph_inv_core. Qed.

Lemma graph_inv_add_input hole v check :
  preserves (λ s, graph_inv full s pend hole absent) (add_input v check).
Proof.
  intros s Hs. unfold add_input, bind at 1, gets at 1.
  destruct (check && bool_decide (v ∈ inputs s)); [done|].
  unfold bind at 1, modify at 1.
  apply preserves_bind_at.
  - apply graph_inv_setup_var. by eapply graph_inv_core; [|exact Hs].
  - intros _ s1 Hs1. by apply graph_inv_variables_add.
Qed.

Lemma graph_inv_import_node_check hole import_missing node :
  preserves (λ s, graph_inv full s pend hole absent)
    (import_node_check E import_missing node).
Proof.
  unfold import_node_check. pstep; [pstep|]. pstep.
  apply preserves_gets_bind. intros s Hs.
  destruct (is_missing_input E s x); [|done].
  destruct import_missing; [|done]. by apply graph_inv_add_input.
Qed.

(** The loop of [import_new_node] over the inputs of the node: at the
    [k]-th turn the edges of the first [k] inputs are in the client lists,
    and those of the others are still to be added. *)
Definition importing (hole : Client * Z → Prop) (node : Apply) (ins : list Var)
    (k : nat) (s : State) : Prop :=
  graph_inv full s pend (λ e, hole e ∨ (e.1 = CNode node ∧ Z.of_nat k ≤ e.2)) absent
  ∧ (∀ v cs j, clients s !! v = Some cs → (CNode node, j) ∈ cs → j < Z.of_nat k)
  ∧ node ∈ apply_nodes s
  ∧ inputs_of s node = ins.

Lemma importing_core hole node ins k s s' :
  same_core s s' → importing hole node ins k s → importing hole node ins k s'.
Proof.
  intros Hc (H1 & H2 & H3 & H4). pose proof Hc as (Hn & _ & Ha & Hcl).
  split_and!.
  - by eapply graph_inv_core.
  - intros v cs j. rewrite <- Hcl. apply H2.
  - by rewrite <- Ha.
  - unfold inputs_of. by rewrite <- Hn.
Qed.

Lemma importing_setup_var hole node ins k s v :
  importing hole node ins k s → importing hole node ins k (final (setup_var v s)).
Proof.
  intros (H1 & H2 & H3 & H4). split_and!; [by apply graph_inv_setup_var| |done..].
  intros w cs j. unfold setup_var, modify. simpl.
  destruct (clients s !! v) eqn:Hv; [apply H2|].
  destruct (decide (v = w)) as [<-|Hne].
  - rewrite lookup_insert_eq. intros [= <-] ?%elem_of_nil. done.
  - rewrite lookup_insert_ne by done. apply H2.
Qed.

Lemma importing_step hole node ins j x s s' :
  (∀ v e, absent v e → e.1 ≠ CNode node) →
  ins !! j = Some x →
  importing hole node ins j s →
  (let* vs := gets variables in
   let* _ := (if decide (x ∈ vs) then ret tt
              else let* _ := setup_var x in variables_add x) in
   add_client x (CNode node, Z.of_nat j)) s = Ret tt s' →
  importing hole node ins (S j) s'.
Proof.
  intros Habs Hx Hs Hrun. unfold add_client, get_clients in Hrun.
  apply bind_Ret_inv in Hrun as (vs & s0 & Hvs & Hrun).
  apply gets_Ret in Hvs as [-> ->].
  apply bind_Ret_inv in Hrun as (u & s1 & Hset & Hrun).
  assert (importing hole node ins j s1) as Hs1.
  { case_decide.
    - apply ret_Ret in Hset as [_ ->]. done.
    - apply bind_Ret_inv in Hset as (u1 & s2 & Hsv & Hva).
      apply modify_Ret in Hsv as ->. apply modify_Ret in Hva as ->.
      eapply importing_core; [|apply (importing_setup_var hole node ins j s x Hs)].
      by repeat split. }
  clear Hset Hs. inv_ret.
  destruct Hs1 as (H1 & H2 & H3 & H4).
  rename l into cs. rename Heqo into Hcs.
  assert (edge_live s1 x (CNode node, Z.of_nat j)) as Hlive.
  { split_and!; simpl; [lia| |done].
    rewrite H4, py_getitem_nonneg by lia. by rewrite Nat2Z.id. }
  assert ((CNode node, Z.of_nat j) ∉ cs) as Hfresh.
  { intros Hin. specialize (H2 _ _ _ Hcs Hin). lia. }
  split_and!.
  - eapply graph_inv_hole.
    + eapply graph_inv_append; [exact H1|done|done|done|].
      intros Hab. by apply Habs in Hab.
    + intros v [c i] Hl [[Hh|[Hc Hi]] Hne]; simpl in *; [by left|right].
      split; [done|]. subst c. assert (i ≠ Z.of_nat j) by congruence. lia.
  - intros v cs' i. simpl. destruct (decide (x = v)) as [<-|Hne].
    + rewrite lookup_insert_eq. intros [= <-] [Hin|Hin]%elem_of_app.
      * specialize (H2 _ _ _ Hcs Hin). lia.
      * apply list_elem_of_singleton in Hin. injection Hin as ->. lia.
    + rewrite lookup_insert_ne by done. intros Hv Hin.
      specialize (H2 _ _ _ Hv Hin). lia.
  - done.
  - done.
Qed.

Lemma graph_inv_import_new_node hole reason node s s' :
  graph_inv full s pend hole absent →
  import_new_node E reason node s = Ret tt s' →
  graph_inv full s' pend hole absent.
Proof.
  intros Hs Hrun. unfold import_new_node, setup_node in Hrun.
  apply bind_Ret_inv in Hrun as (ns & s0 & Hns & Hrun).
  apply gets_Ret in Hns as [-> ->].
  destruct (decide (node ∈ apply_nodes s)) as [|Hnode]; [done|].
  apply bind_Ret_inv in Hrun as (u0 & s0 & Hsetup & Hrun).
  assert (s0 = s) as ->.
  { destruct (bad_view_map E node); [done|].
    destruct (bad_destroy_map E node); [done|]. by inv_ret. }
  clear Hsetup.
  apply bind_Ret_inv in Hrun as (u1 & s1 & Hadd & Hrun).
  apply modify_Ret in Hadd as ->.
  apply bind_Ret_inv in Hrun as (u2 & s2 & Htag & Hrun).
  apply modify_Ret in Htag as ->.
  apply bind_Ret_inv in Hrun as (u3 & s3 & Houts & Hrun).
  apply bind_Ret_inv in Hrun as (ins & s4 & Hins & Hrun).
  apply gets_Ret in Hins as [-> ->].
  apply bind_Ret_inv in Hrun as (u5 & s5 & Hloop & Hrun).
  destruct u5. apply execute_callbacks_Ret in Hrun as ->.
  assert (∀ v e, absent v e → e.1 ≠ CNode node) as Habs.
  { intros v e Hab He. destruct (gi_absent _ _ _ _ _ Hs v e Hab) as [Hm _].
    rewrite He in Hm. done. }
  assert (importing hole node (inputs_of s3 node) 0 s3) as H3.
  { destruct u3.
    eapply (for_each_Ret (λ s', importing hole node (inputs_of s node) 0 s'
                                ∧ inputs_of s' node = inputs_of s node)) in Houts.
    - destruct Houts as [Ho1 Ho2]. by rewrite Ho2.
    - intros o s6 s7 _ [Hi Hn] Ho.
      apply bind_Ret_inv in Ho as (u6 & s8 & Hsv & Hva).
      apply modify_Ret in Hsv as ->. apply modify_Ret in Hva as ->.
      split; [|done].
      eapply importing_core; [|apply (importing_setup_var _ _ _ _ s6 o Hi)].
      by repeat split.
    - split; [|done]. split_and!.
      + eapply graph_inv_hole.
        * eapply graph_inv_core; [|by apply graph_inv_add_node]. done.
        * intros v e (H0 & _) [Hh|Hc]; [by left|right]. split; [done|]. simpl. lia.
      + intros v cs j Hv Hin. exfalso.
        by eapply (graph_inv_no_entry _ _ _ _ _ node v cs j Hs).
      + simpl. apply elem_of_union. right. by apply elem_of_singleton.
      + done. }
  eapply graph_inv_core with (s := s5); [done|].
  unfold enumerate in Hloop.
  eapply (for_each_enumerate_Ret (importing hole node (inputs_of s3 node))) in Hloop;
    [| |exact H3].
  - destruct Hloop as (Hg & _ & _ & Hin). eapply graph_inv_hole; [exact Hg|].
    intros v [c i] (H0 & Hsl & _) [Hh|[Hc Hi]]; [done|]. simpl in *. subst c.
    simpl in Hsl. rewrite Hin, py_getitem_nonneg in Hsl by done.
    apply lookup_lt_Some in Hsl. lia.
  - intros j x s6 s7 Hx Hi Hstep. simpl in *. by eapply importing_step.
Qed.

Lemma graph_inv_import_node hole apply_node check reason import_missing s s' :
  graph_inv full s pend hole absent →
  import_node E apply_node check reason import_missing s = Ret tt s' →
  graph_inv full s' pend hole absent.
Proof.
  intros Hs Hrun. unfold import_node in Hrun.
  apply bind_Ret_inv in Hrun as (new_nodes & s0 & Hn & Hrun).
  apply gets_Ret in Hn as [-> ->].
  apply bind_Ret_inv in Hrun as (u & s1 & Hcheck & Hrun).
  assert (graph_inv full s1 pend hole absent) as Hs1.
  { destruct check; [|by inv_ret].
    eapply (preserves_Ret (λ s, graph_inv full s pend hole absent)); [|exact Hs|exact Hcheck].
    apply preserves_for_each. intros. apply graph_inv_import_node_check. }
  eapply (for_each_Ret (λ s, graph_inv full s pend hole absent)); [|exact Hs1|exact Hrun].
  intros node s2 s3 _. apply graph_inv_import_new_node.
Qed.

Lemma graph_inv_import_var hole v reason import_missing s s' :
  graph_inv full s pend hole absent →
  import_var E v reason import_missing s = Ret tt s' →
  graph_inv full s' pend hole absent.
Proof.
  intros Hs Hrun. unfold import_var in Hrun.
  apply bind_Ret_inv in Hrun as (ns & s0 & Hn & Hrun).
  apply gets_Ret in Hn as [-> ->].
  apply bind_Ret_inv in Hrun as (missing & s0 & Hm & Hrun).
  apply gets_Ret in Hm as [-> ->].
  apply bind_Ret_inv in Hrun as (u & s1 & Himp & Hrun).
  assert (graph_inv full s1 pend hole absent) as Hs1.
  { destruct u. destruct (var_owner E v) as [owner|].
    - case_decide; [by inv_ret|]. by eapply graph_inv_import_node.
    - destruct (is_missing_input E s v); [|by inv_ret].
      destruct (is_NullType E (var_type E v)); [done|].
      destruct import_missing; [|done].
      by eapply (preserves_Ret _ _ _ _ _ (graph_inv_add_input hole v true)). }
  apply bind_Ret_inv in Hrun as (u1 & s2 & Hsv & Hva).
  apply modify_Ret in Hsv as ->. apply modify_Ret in Hva as ->.
  eapply graph_inv_core; [|apply (graph_inv_setup_var _ _ _ _ _ v Hs1)].
  by repeat split.
Qed.

End ImportInv.

(** ** The invariant through [remove_client] *)

(** The part of the invariant [remove_client] keeps while its worklist
    holds edges of pruned nodes. *)
Definition removal_inv (full : bool) (s : State) (pend : list (Var * (Client * Z)))
    (hole : Client * Z → Prop) : Prop :=
  sound_inv s pend ∧ (full = true → complete_inv s pend hole).

Lemma removal_inv_core full s s' pend hole :
  same_core s s' → removal_inv full s pend hole → removal_inv full s' pend hole.
Proof.
  intros Hc [[Hnd Hlive] Hcomp]. pose proof Hc as (_ & _ & _ & Hcl).
  split; [split|].
  - intros v cs. rewrite <- Hcl. apply Hnd.
  - intros v cs e. rewrite <- Hcl, <- (same_core_live _ _ _ _ Hc). apply Hlive.
  - intros Hf. destruct (Hcomp Hf) as [Hco Hde]. split.
    + intros v e. rewrite <- Hcl, <- (same_core_live _ _ _ _ Hc). apply Hco.
    + intros v e. rewrite <- (same_core_live _ _ _ _ Hc). apply Hde.
Qed.

Lemma graph_inv_removal full s pend hole absent :
  graph_inv full s pend hole absent → removal_inv full s pend hole.
Proof. intros [? ? _ _]. by split. Qed.

Lemma removal_inv_graph full s hole :
  removal_inv full s [] hole → graph_inv full s [] hole (λ _ _, False).
Proof.
  intros [? ?]. split; [done..| |done]. intros v e Hin. by apply elem_of_nil in Hin.
Qed.

Lemma graph_inv_absent full s pend hole (absent absent' : Var → Client * Z → Prop) :
  graph_inv full s pend hole absent →
  (∀ v e, absent' v e → absent v e) →
  graph_inv full s pend hole absent'.
Proof. intros [? ? ? Ha] Hw. split; try done. intros v e Hab. by apply Ha, Hw. Qed.

Lemma elem_of_enumerate_from {A} (l : list A) k i x :
  (i, x) ∈ enumerate_from k l ↔ ∃ j, i = Z.of_nat (k + j) ∧ l !! j = Some x.
Proof.
  revert k. induction l as [|y l IH]; intros k; simpl.
  - split; [by intros ?%elem_of_nil|]. by intros (j & _ & ?).
  - rewrite elem_of_cons, IH. split.
    + intros [[= -> ->]|(j & -> & Hj)].
      * exists 0%nat. split; [f_equal; lia|done].
      * exists (S j). split; [f_equal; lia|done].
    + intros ([|j] & -> & Hj); simpl in Hj.
      * left. injection Hj as ->. do 2 f_equal. lia.
      * right. exists j. split; [f_equal; lia|done].
Qed.

(** The edges pushed when the node [p] is pruned. *)
Definition input_edges (p : Apply) (ins : list Var) : list (Var * (Client * Z)) :=
  (λ '(i, in_var), (in_var, (CNode p, i))) <$> enumerate ins.

Lemma elem_of_input_edges p ins v e :
  (v, e) ∈ input_edges p ins
  ↔ ∃ j, e = (CNode p, Z.of_nat j) ∧ ins !! j = Some v.
Proof.
  unfold input_edges, enumerate. rewrite list_elem_of_fmap. split.
  - intros ([i x] & [= -> ->] & (j & -> & Hj)%elem_of_enumerate_from).
    exists j. done.
  - intros (j & -> & Hj). exists (Z.of_nat j, v). split; [done|].
    apply elem_of_enumerate_from. exists j. done.
Qed.

Lemma edge_live_input_edges s v p i :
  edge_live s v (CNode p, i) → (v, (CNode p, i)) ∈ input_edges p (inputs_of s p).
Proof.
  intros (H0 & Hs & _). simpl in *. apply elem_of_input_edges.
  exists (Z.to_nat i). rewrite Z2Nat.id by done. split; [done|].
  by rewrite <- py_getitem_nonneg.
Qed.

Lemma list_remove_elem_of {A} `{EqDecision A} (x y : A) l l' :
  list_remove x l = Some l' → y ∈ l ↔ y = x ∨ y ∈ l'.
Proof.
  intros Hr. rewrite (list_remove_Permutation _ _ _ Hr). apply elem_of_cons.
Qed.

Lemma list_remove_NoDup {A} `{EqDecision A} (x : A) l l' :
  list_remove x l = Some l' → NoDup l → NoDup l' ∧ x ∉ l'.
Proof.
  intros Hr Hnd. rewrite (list_remove_Permutation _ _ _ Hr) in Hnd.
  apply NoDup_cons in Hnd. tauto.
Qed.

Section RemoveInv.
Variable E : Env.
Context (full : bool) (hole : Client * Z → Prop).

(** Taking the popped edge out of its client list. *)
Lemma removal_inv_remove s v e rest cs cs' :
  removal_inv full s ((v, e) :: rest) hole →
  clients s !! v = Some cs → list_remove e cs = Some cs' →
  removal_inv full (set_clients <[v := cs']> s) rest hole.
Proof.
  intros [[Hnd Hlive] Hcomp] Hv Hr.
  destruct (list_remove_NoDup _ _ _ Hr (Hnd _ _ Hv)) as [Hnd' He].
  assert (∀ w cs0, clients (set_clients <[v := cs']> s) !! w = Some cs0 →
          (w = v ∧ cs0 = cs') ∨ (w ≠ v ∧ clients s !! w = Some cs0)) as Hlook.
  { intros w cs0. simpl. destruct (decide (v = w)) as [<-|Hne].
    - rewrite lookup_insert_eq. intros [= <-]. by left.
    - rewrite lookup_insert_ne by done. intros ?. by right. }
  split; [split|].
  - intros w cs0 Hw. apply Hlook in Hw as [[? ?]|[_ Hw]]; subst; [done|by eapply Hnd].
  - intros w cs0 e' Hw He'. apply Hlook in Hw as [[? ?]|[Hne Hw]]; subst.
    + destruct (Hlive v cs e' Hv) as [Hl|Hp]; [|by left|].
      * apply (list_remove_elem_of _ _ _ _ Hr). by right.
      * right. apply elem_of_cons in Hp as [Hp|Hp]; [|done].
        injection Hp as ->. done.
    + destruct (Hlive w cs0 e' Hw He') as [Hl|Hp]; [by left|].
      right. apply elem_of_cons in Hp as [Hp|Hp]; [|done]. congruence.
  - intros Hf. destruct (Hcomp Hf) as [Hco Hde]. split.
    + intros w e' Hl Hh. destruct (Hco w e' Hl Hh) as (cs0 & Hw & He').
      destruct (decide (v = w)) as [<-|Hne].
      * exists cs'. simpl. rewrite lookup_insert_eq. split; [done|].
        assert (cs0 = cs) as -> by congruence.
        apply (list_remove_elem_of _ e' _ _ Hr) in He' as [->|He']; [|done].
        exfalso. apply (Hde v e); [left|done].
      * exists cs0. simpl. by rewrite lookup_insert_ne.
    + intros w e' Hp. apply Hde. by right.
Qed.

(** The popped edge was not in its client list. *)
Lemma removal_inv_missing s v e rest cs :
  removal_inv full s ((v, e) :: rest) hole →
  clients s !! v = Some cs → e ∉ cs →
  removal_inv full s rest hole.
Proof.
  intros [[Hnd Hlive] Hcomp] Hv He. split; [split|]; [done| |].
  - intros w cs0 e' Hw He'. destruct (Hlive w cs0 e' Hw He') as [Hl|Hp]; [by left|].
    right. apply elem_of_cons in Hp as [Hp|Hp]; [|done].
    injection Hp as -> ->. congruence.
  - intros Hf. destruct (Hcomp Hf) as [Hco Hde]. split; [done|].
    intros w e' Hp. apply Hde. by right.
Qed.

(** Pruning a node. *)
Lemma removal_inv_prune s rest p :
  removal_inv full s rest hole →
  removal_inv full (set_apply_nodes (λ ns, ns ∖ {[p]}) s)
    (reverse (input_edges p (inputs_of s p)) ++ rest) hole.
Proof.
  intros [[Hnd Hlive] Hcomp].
  assert (∀ v e, edge_live (set_apply_nodes (λ ns, ns ∖ {[p]}) s) v e →
                 edge_live s v e ∧ e.1 ≠ CNode p) as Hback.
  { intros v [[|m] i] (H0 & Hs & Hm); simpl in *; [done|].
    apply elem_of_difference in Hm as [Hm Hne]. split; [done|].
    intros [= ->]. apply Hne. by apply elem_of_singleton. }
  split; [split|].
  - done.
  - intros v cs [c i] Hv He.
    destruct (Hlive v cs _ Hv He) as [Hl|Hp].
    + destruct (decide (c = CNode p)) as [->|Hne].
      * right. apply elem_of_app. left. apply elem_of_reverse.
        by apply edge_live_input_edges.
      * left. destruct Hl as (H0 & Hs & Hm). split_and!; [done..|].
        destruct c as [|m]; simpl in *; [done|].
        apply elem_of_difference. split; [done|].
        intros ->%elem_of_singleton. done.
    + right. apply elem_of_app. by right.
  - intros Hf. destruct (Hcomp Hf) as [Hco Hde]. split.
    + intros v e Hl Hh. apply Hco; [|done]. by apply Hback.
    + intros v e [Hp|Hp]%elem_of_app Hl; apply Hback in Hl as [Hl Hne].
      * apply elem_of_reverse, elem_of_input_edges in Hp as (j & -> & _). done.
      * by apply (Hde v e).
Qed.

Lemma removal_inv_remove_unused s v rest reason pushed s' :
  removal_inv full s rest hole →
  remove_unused E v reason s = Ret pushed s' →
  removal_inv full s' (reverse pushed ++ rest) hole.
Proof.
  intros Hs Hrun. unfold remove_unused in Hrun.
  destruct (var_owner E v) as [p|].
  - apply bind_Ret_inv in Hrun as (c & s0 & Hc & Hrun).
    apply gets_Ret in Hc as [-> ->].
    destruct (any_output_has_clients E (clients s) (node_outputs E p)) as [x|[|]];
      [done|by inv_ret|].
    apply bind_Ret_inv in Hrun as (u0 & s0 & Htag & Hrun).
    apply modify_Ret in Htag as ->.
    apply bind_Ret_inv in Hrun as (ns & s0 & Hns & Hrun).
    apply gets_Ret in Hns as [-> ->]. simpl in Hrun.
    case_decide; [|done].
    apply bind_Ret_inv in Hrun as (u1 & s1 & H1 & Hrun). apply modify_Ret in H1 as ->.
    apply bind_Ret_inv in Hrun as (u2 & s2 & H2 & Hrun). apply modify_Ret in H2 as ->.
    apply bind_Ret_inv in Hrun as (u3 & s3 & H3 & Hrun). destruct u3.
    apply execute_callbacks_Ret in H3 as ->.
    apply bind_Ret_inv in Hrun as (ins & s4 & H4 & Hrun).
    apply gets_Ret in H4 as [-> ->]. apply ret_Ret in Hrun as [-> ->].
    eapply removal_inv_core; [|apply (removal_inv_prune s rest p Hs)].
    by repeat split.
  - apply bind_Ret_inv in Hrun as (vs & s0 & Hvs & Hrun).
    apply gets_Ret in Hvs as [-> ->].
    case_decide; [|done]. inv_ret. simpl.
    eapply removal_inv_core; [|exact Hs]. by repeat split.
Qed.

Lemma removal_inv_step s v e rest reason pushed s' :
  removal_inv full s ((v, e) :: rest) hole →
  remove_client_step E v e reason s = Ret pushed s' →
  removal_inv full s' (reverse pushed ++ rest) hole.
Proof.
  intros Hs Hrun. unfold remove_client_step, get_clients in Hrun.
  apply bind_Ret_inv in Hrun as (cs & s0 & Hcs & Hrun).
  apply bind_Ret_inv in Hcs as (c & s1 & Hc & Hcs).
  apply gets_Ret in Hc as [-> ->].
  destruct (clients s !! v) as [cs0|] eqn:Hv; [|done].
  apply ret_Ret in Hcs as [-> ->].
  apply bind_Ret_inv in Hrun as (var_clients & s1 & Hrem & Hrun).
  destruct (list_remove e cs0) as [cs'|] eqn:Hr.
  - apply bind_Ret_inv in Hrem as (u & s2 & Hm & Hrem).
    apply modify_Ret in Hm as ->. apply ret_Ret in Hrem as [-> ->].
    pose proof (removal_inv_remove _ _ _ _ _ _ Hs Hv Hr) as Hs1.
    destruct cs' as [|e' cs'].
    + by eapply removal_inv_remove_unused.
    + by apply ret_Ret in Hrun as [-> ->].
  - apply ret_Ret in Hrem as [-> ->].
    apply list_remove_None in Hr.
    pose proof (removal_inv_missing _ _ _ _ _ Hs Hv Hr) as Hs1.
    by eapply removal_inv_remove_unused.
Qed.

Lemma removal_inv_loop fuel stack reason s s' :
  removal_inv full s stack hole →
  remove_client_loop E fuel stack reason s = Some (Ret tt s') →
  removal_inv full s' [] hole.
Proof.
  revert stack s. induction fuel as [|fuel IH]; intros [|[v e] rest] s Hs; simpl;
    try (by intros [= <-]); try done.
  destruct (remove_client_step E v e reason s) as [pushed s1|x s1] eqn:Hstep; [|done].
  apply IH. by eapply removal_inv_step.
Qed.

Lemma removal_inv_remove_client v e reason s s' :
  removal_inv full s [(v, e)] hole →
  remove_client E v e reason s = Ret tt s' →
  removal_inv full s' [] hole.
Proof.
  intros Hs. unfold remove_client.
  destruct (remove_client_loop E (removal_fuel s) [(v, e)] reason s) as [r|] eqn:Hl;
    [|done].
  intros ->. by eapply removal_inv_loop.
Qed.

End RemoveInv.

(** ** The invariant through [change_input] and [replace] *)

(** The write of [new_var] into the slot [(node, i)], [i] counted from the
    start. *)
Definition write_slot (node : Client) (i : Z) (new_var : Var) (s : State) : State :=
  match node with
  | COutput => set_outputs (λ outs, <[Z.to_nat i := new_var]> outs) s
  | CNode n => set_node_inputs <[n := <[Z.to_nat i := new_var]> (inputs_of s n)]> s
  end.

Lemma py_setitem_nonneg {A} (l : list A) i x l' :
  0 ≤ i → py_setitem l i x = Some l' → l' = <[Z.to_nat i := x]> l.
Proof.
  intros Hi. unfold py_setitem. destruct (py_index l i) as [k|] eqn:Hk; [|done].
  apply py_index_nonneg in Hk as ->; [|done]. by intros [= <-].
Qed.

Lemma slot_write_slot s node i new_var r c j :
  0 ≤ i → slot s node i = Some r → 0 ≤ j →
  slot (write_slot node i new_var s) c j
  = if decide ((c, j) = (node, i)) then Some new_var else slot s c j.
Proof.
  intros Hi Hr Hj.
  assert (∀ (l : list Var), py_getitem l i = Some r →
    py_getitem (<[Z.to_nat i := new_var]> l) j
    = if decide (j = i) then Some new_var else py_getitem l j) as Hlist.
  { intros l Hl. rewrite !py_getitem_nonneg in * by done.
    case_decide as Hji.
    - subst. apply list_lookup_insert_eq. by eapply lookup_lt_Some.
    - apply list_lookup_insert_ne. lia. }
  destruct node as [|n], c as [|m]; simpl in *.
  - rewrite (Hlist _ Hr). repeat case_decide; congruence.
  - done.
  - done.
  - unfold inputs_of at 1. simpl. destruct (decide (n = m)) as [<-|Hne].
    + rewrite lookup_insert_eq. simpl. rewrite (Hlist _ Hr).
      repeat case_decide; congruence.
    + rewrite lookup_insert_ne by done. rewrite decide_False by congruence. done.
Qed.

Section ChangeInv.
Variable E : Env.

Lemma change_slot_Ret node i new_var s r s1 :
  0 ≤ i → change_slot E node i new_var s = Ret r s1 →
  slot s node i = Some r ∧ var_type E r = var_type E new_var
  ∧ s1 = write_slot node i new_var s.
Proof.
  intros Hi Hrun. destruct node as [|n]; simpl in *.
  - apply bind_Ret_inv in Hrun as (outs & s0 & Ho & Hrun).
    apply gets_Ret in Ho as [-> ->].
    destruct (py_getitem (outputs s) i) as [r0|] eqn:Hg; [|done].
    destruct (py_setitem (outputs s) i new_var) as [outs'|] eqn:Hset; [|done].
    case_decide; [|done].
    apply bind_Ret_inv in Hrun as (u & s0 & Hm & Hrun).
    apply modify_Ret in Hm as ->. apply ret_Ret in Hrun as [-> ->].
    apply py_setitem_nonneg in Hset as ->; done.
  - apply bind_Ret_inv in Hrun as (ins & s0 & Ho & Hrun).
    apply gets_Ret in Ho as [-> ->].
    destruct (py_getitem (inputs_of s n) i) as [r0|] eqn:Hg; [|done].
    destruct (py_setitem (inputs_of s n) i new_var) as [ins'|] eqn:Hset; [|done].
    case_decide; [|done].
    apply bind_Ret_inv in Hrun as (u & s0 & Hm & Hrun).
    apply modify_Ret in Hm as ->. apply ret_Ret in Hrun as [-> ->].
    apply py_setitem_nonneg in Hset as ->; done.
Qed.

Lemma write_slot_fields node i new_var s :
  apply_nodes (write_slot node i new_var s) = apply_nodes s
  ∧ clients (write_slot node i new_var s) = clients s
  ∧ variables (write_slot node i new_var s) = variables s
  ∧ calls (write_slot node i new_var s) = calls s
  ∧ _features (write_slot node i new_var s) = _features s
  ∧ inputs (write_slot node i new_var s) = inputs s.
Proof. by destruct node. Qed.

(** After the write, the edge of the old value is the one edge to remove,
    and the edge of the new value the one to add. *)
Lemma graph_inv_write_slot full s node i new_var r :
  well_formed full s → member s node → 0 ≤ i →
  slot s node i = Some r → r ≠ new_var →
  graph_inv full (write_slot node i new_var s) [(r, (node, i))]
    (λ e, e = (node, i)) (λ v e, v = new_var ∧ e = (node, i)).
Proof.
  intros [[Hnd Hlive] Hcomp _ _] Hm Hi Hr Hne.
  destruct (write_slot_fields node i new_var s) as (Ha & Hc & _).
  assert (∀ c, member (write_slot node i new_var s) c ↔ member s c) as Hmem.
  { intros [|m]; simpl; by rewrite ?Ha. }
  assert (∀ v e, e ≠ (node, i) →
            edge_live (write_slot node i new_var s) v e ↔ edge_live s v e) as Hl.
  { intros v [c j] Hcj. unfold edge_live. simpl. rewrite Hmem.
    split; intros (H0 & Hs & Hm'); split_and!; try done.
    - by rewrite (slot_write_slot s node i new_var r c j), decide_False in Hs.
    - by rewrite (slot_write_slot s node i new_var r c j), decide_False. }
  split; [split| | |].
  - intros v cs. rewrite Hc. apply Hnd.
  - intros v cs e. rewrite Hc. intros Hv He.
    destruct (Hlive v cs e Hv He) as [Hlv|Hin]; [|by apply elem_of_nil in Hin].
    destruct (decide (e = (node, i))) as [->|Hne'].
    + right. destruct Hlv as (_ & Hs & _). simpl in Hs.
      assert (v = r) as -> by congruence. left.
    + left. by apply Hl.
  - intros Hf. destruct (Hcomp Hf) as [Hco _]. split.
    + intros v e Hlv Hh. rewrite Hc. apply Hco; [|by intros []]. by apply Hl.
    + intros v e Hin%list_elem_of_singleton (_ & Hs & _). injection Hin as -> ->.
      simpl in Hs. rewrite (slot_write_slot s node i new_var r node i) in Hs by done.
      rewrite decide_True in Hs by done. congruence.
  - intros v e Hin%list_elem_of_singleton. injection Hin as -> ->. by apply Hmem.
  - intros v e [-> ->]. split; [by apply Hmem|]. rewrite Hc. intros cs Hv He.
    destruct (Hlive new_var cs _ Hv He) as [(_ & Hs & _)|Hin];
      [|by apply elem_of_nil in Hin].
    simpl in Hs. congruence.
Qed.

(** What [import_var] leaves of the slots. *)
Lemma slots_import_stable h o : import_stable E (λ s, node_inputs s = h ∧ outputs s = o).
Proof.
  split; try done. intros s v Hs Hm.
  by rewrite add_input_true_Ret by (by eapply is_missing_input_not_in).
Qed.

Lemma well_formed_change_input full node i new_var reason import_missing s s' :
  well_formed full s → member s node → 0 ≤ i →
  change_input E node i new_var reason import_missing s = Ret tt s' →
  well_formed full s'.
Proof.
  intros Hs Hm Hi Hrun. unfold change_input in Hrun.
  apply bind_Ret_inv in Hrun as (r & s1 & Hslot & Hrun).
  pose proof Hslot as Hslot'.
  apply change_slot_Ret in Hslot as (Hr & Hty & Hs1); [|done]. subst s1.
  case_decide as Hne.
  { subst r. rewrite (change_slot_same E _ _ _ _ Hr) in Hslot'.
    injection Hslot' as Heq. rewrite <- Heq in Hrun.
    by apply ret_Ret in Hrun as [_ ->]. }
  clear Hslot'.
  pose proof (graph_inv_write_slot full s node i new_var r Hs Hm Hi Hr Hne) as H1.
  apply bind_Ret_inv in Hrun as (u2 & s2 & Himp & Hrun). destruct u2.
  pose proof (graph_inv_import_var E _ _ _ _ _ _ _ _ _ H1 Himp) as H2.
  assert (node_inputs s2 = node_inputs (write_slot node i new_var s)
          ∧ outputs s2 = outputs (write_slot node i new_var s)) as [Hni Hou].
  { eapply (preserves_Ret _ _ _ _ _
      (preserves_import_var E _ (slots_import_stable _ _) new_var reason import_missing));
      [|exact Himp]. done. }
  apply bind_Ret_inv in Hrun as (u3 & s3 & Hadd & Hrun). destruct u3.
  unfold add_client, get_clients in Hadd.
  apply bind_Ret_inv in Hadd as (cs & s0 & Hcs & Hadd).
  apply bind_Ret_inv in Hcs as (c & s0' & Hc & Hcs).
  apply gets_Ret in Hc as [-> ->].
  destruct (clients s2 !! new_var) as [cs0|] eqn:Hnew; [|done].
  apply ret_Ret in Hcs as [-> ->]. apply modify_Ret in Hadd as ->.
  assert (member s2 node) as Hm2.
  { apply (gi_pend _ _ _ _ _ H2 r (node, i)). left. }
  assert (edge_live s2 new_var (node, i)) as Hlive.
  { split_and!; [done| |done]. simpl.
    assert (slot s2 node i = slot (write_slot node i new_var s) node i) as ->.
    { destruct node; simpl; unfold inputs_of; by rewrite ?Hni, ?Hou. }
    rewrite (slot_write_slot s node i new_var r node i) by done.
    by rewrite decide_True. }
  assert ((node, i) ∉ cs0) as Hfresh.
  { by apply (gi_absent _ _ _ _ _ H2 new_var (node, i)). }
  assert (graph_inv full (set_clients <[new_var := cs0 ++ [(node, i)]]> s2)
            [(r, (node, i))] (λ _, False) (λ _ _, False)) as H3.
  { eapply graph_inv_hole.
    - eapply graph_inv_append; [|done..|].
      + eapply graph_inv_absent; [exact H2|]. by intros.
      + by intros [].
    - intros v e _ [-> Hc]. done. }
  apply bind_Ret_inv in Hrun as (u4 & s4 & Hrem & Hrun). destruct u4.
  apply execute_callbacks_Ret in Hrun as ->.
  eapply graph_inv_core; [|apply removal_inv_graph].
  2: { eapply removal_inv_remove_client; [|exact Hrem]. by eapply graph_inv_removal. }
  by repeat split.
Qed.

End ChangeInv.

Section ReplaceInv.
Variable E : Env.

(** [change_input] that returned after a change of the slot, step by step. *)
Lemma change_input_Ret node i new_var reason import_missing s s' r :
  0 ≤ i → slot s node i = Some r → r ≠ new_var →
  change_input E node i new_var reason import_missing s = Ret tt s' →
  ∃ s2 csn s4,
    import_var E new_var reason import_missing (write_slot node i new_var s) = Ret tt s2
    ∧ clients s2 !! new_var = Some csn
    ∧ remove_client E r (node, i) reason
        (set_clients <[new_var := csn ++ [(node, i)]]> s2) = Ret tt s4
    ∧ s' = set_calls (λ c, c ++ callbacks_of E (OnChangeInput node i r new_var reason)
                                   (_features s4)) s4.
Proof.
  intros Hi Hr Hne Hrun. unfold change_input in Hrun.
  apply bind_Ret_inv in Hrun as (r' & s1 & Hslot & Hrun).
  apply change_slot_Ret in Hslot as (Hr' & Hty & Hs1); [|done]. subst s1.
  assert (r' = r) as -> by congruence.
  rewrite decide_False in Hrun by done.
  apply bind_Ret_inv in Hrun as (u2 & s2 & Himp & Hrun). destruct u2.
  apply bind_Ret_inv in Hrun as (u3 & s3 & Hadd & Hrun). destruct u3.
  unfold add_client, get_clients in Hadd.
  apply bind_Ret_inv in Hadd as (cs & s0 & Hcs & Hadd).
  apply bind_Ret_inv in Hcs as (c & s0' & Hc & Hcs).
  apply gets_Ret in Hc as [-> ->].
  destruct (clients s2 !! new_var) as [csn|] eqn:Hnew; [|done].
  apply ret_Ret in Hcs as [-> ->]. apply modify_Ret in Hadd as ->.
  apply bind_Ret_inv in Hrun as (u4 & s4 & Hrem & Hrun). destruct u4.
  apply execute_callbacks_Ret in Hrun as ->.
  by exists s2, csn, s4.
Qed.

Lemma remove_client_loop_nil fuel reason s :
  remove_client_loop E fuel [] reason s = Some (Ret tt s).
Proof. by destruct fuel. Qed.

(** [remove_client] of an edge of a variable that has another client
    takes the edge out of the client list and does nothing else. *)
Lemma remove_client_keep v e e' reason s cs :
  clients s !! v = Some cs → e ∈ cs → e' ∈ cs → e' ≠ e →
  ∃ cs', list_remove e cs = Some cs' ∧ e' ∈ cs'
    ∧ remove_client E v e reason s = Ret tt (set_clients <[v := cs']> s).
Proof.
  intros Hv He He' Hne.
  destruct (list_remove e cs) as [cs'|] eqn:Hr.
  2: { by apply list_remove_None in Hr. }
  exists cs'. apply (list_remove_elem_of _ e' _ _ Hr) in He' as [->|He']; [done|].
  split_and!; [done..|].
  unfold remove_client, removal_fuel. simpl.
  unfold remove_client_step, get_clients, bind, gets. rewrite Hv. simpl.
  rewrite Hr. simpl. destruct cs' as [|x cs']; [by apply elem_of_nil in He'|].
  simpl. by rewrite remove_client_loop_nil.
Qed.

(** A turn of the loop of [replace] that is not the last one. *)
Lemma change_input_quiet node i var new_var reason import_missing s s' cs e' :
  0 ≤ i → slot s node i = Some var → var ≠ new_var →
  clients s !! var = Some cs → (node, i) ∈ cs → e' ∈ cs → e' ≠ (node, i) →
  change_input E node i new_var reason import_missing s = Ret tt s' →
  ∃ s2 csn cs2 cs2',
    import_var E new_var reason import_missing (write_slot node i new_var s) = Ret tt s2
    ∧ clients s2 !! new_var = Some csn
    ∧ clients s2 !! var = Some cs2
    ∧ list_remove (node, i) cs2 = Some cs2'
    ∧ s' = set_calls (λ c, c ++ callbacks_of E (OnChangeInput node i var new_var reason)
                                   (_features s2))
             (set_clients <[var := cs2']>
                (set_clients <[new_var := csn ++ [(node, i)]]> s2)).
Proof.
  intros Hi Hr Hne Hv He He' Hne' Hrun.
  destruct (change_input_Ret _ _ _ _ _ _ _ _ Hi Hr Hne Hrun)
    as (s2 & csn & s4 & Himp & Hcsn & Hrem & ->).
  assert (∃ cs2, clients s2 !! var = Some cs2 ∧ (node, i) ∈ cs2 ∧ e' ∈ cs2)
    as (cs2 & Hv2 & He2 & He2').
  { eapply (preserves_Ret (λ s, ∃ cs2, clients s !! var = Some cs2
                                  ∧ (node, i) ∈ cs2 ∧ e' ∈ cs2)); [| |exact Himp].
    - apply preserves_import_var. split; try done.
      + intros s0 v Hs0 Hc. destruct Hs0 as (cs0 & H1 & H2 & H3).
        exists cs0. simpl. rewrite lookup_insert_ne; [done|]. intros ->. congruence.
      + intros s0 v cs0 e0 (cs1 & H1 & H2 & H3) Hc. simpl.
        destruct (decide (v = var)) as [->|Hvv].
        * exists (cs0 ++ [e0]). rewrite lookup_insert_eq.
          assert (cs1 = cs0) as -> by congruence.
          split_and!; [done|apply elem_of_app; by left..].
        * exists cs1. by rewrite lookup_insert_ne.
      + intros s0 v (cs1 & H1 & H2 & H3) Hm.
        rewrite add_input_true_Ret by (by eapply is_missing_input_not_in). simpl.
        destruct (clients s0 !! v) eqn:Hcv; [by exists cs1|].
        exists cs1. rewrite lookup_insert_ne; [done|]. intros ->. congruence.
    - exists cs. destruct (write_slot_fields node i new_var s) as (_ & -> & _). done. }
  destruct (remove_client_keep var (node, i) e' reason
              (set_clients <[new_var := csn ++ [(node, i)]]> s2) cs2)
    as (cs2' & Hr2 & He2'' & Hrem'); [|done..|].
  { simpl. by rewrite lookup_insert_ne. }
  rewrite Hrem' in Hrem. injection Hrem as <-.
  by exists s2, csn, cs2, cs2'.
Qed.

(** [replace] that returned. *)
Lemma replace_Ret var new_var reason verbose import_missing s s' :
  replace E var new_var reason verbose import_missing s = Ret tt s' →
  ∃ new_var', filter_variable E (var_type E var) new_var = inr new_var' ∧
    (((var ∉ variables s)
      ∧ s' = set_io (λ l, l ++ [Warned var]) (printed E var new_var reason verbose s))
     ∨ (var ∈ variables s ∧ ∃ cs, clients s !! var = Some cs ∧
        for_each (λ '(node, i),
          let* _ := assert_client node i var in
          change_input E node i new_var' reason import_missing) cs
          (printed E var new_var reason verbose s) = Ret tt s')).
Proof.
  unfold replace, printed. intros Hrun.
  apply bind_Ret_inv in Hrun as (u & s1 & Hp & Hrun).
  assert (s1 = if default (optimizer_verbose E) verbose
               then set_io (λ l, l ++ [Printed reason var new_var]) s else s) as ->.
  { destruct (default (optimizer_verbose E) verbose).
    - by apply modify_Ret in Hp.
    - by apply ret_Ret in Hp as [_ ->]. }
  clear Hp.
  destruct (filter_variable E (var_type E var) new_var) as [|new_var']; [done|].
  exists new_var'. split; [done|].
  apply bind_Ret_inv in Hrun as (vs & s1 & Hvs & Hrun).
  apply gets_Ret in Hvs as [-> ->].
  assert (variables (if default (optimizer_verbose E) verbose
            then set_io (λ l, l ++ [Printed reason var new_var]) s else s)
          = variables s) as Hvar by (by destruct (default _ verbose)).
  assert (clients (if default (optimizer_verbose E) verbose
            then set_io (λ l, l ++ [Printed reason var new_var]) s else s)
          = clients s) as Hcl by (by destruct (default _ verbose)).
  rewrite Hvar in Hrun. case_decide.
  - right. split; [done|].
    apply bind_Ret_inv in Hrun as (u1 & s1 & Htv & Hrun).
    assert (s1 = if default (optimizer_verbose E) verbose
               then set_io (λ l, l ++ [Printed reason var new_var]) s else s) as ->.
    { unfold check_test_values in Htv. repeat case_match; by inv_ret. }
    unfold get_clients in Hrun.
    apply bind_Ret_inv in Hrun as (cs & s1 & Hcs & Hrun).
    apply bind_Ret_inv in Hcs as (c & s1' & Hc & Hcs).
    apply gets_Ret in Hc as [-> ->]. rewrite Hcl in Hcs.
    destruct (clients s !! var) as [cs0|]; [|done].
    apply ret_Ret in Hcs as [-> ->]. by exists cs0.
  - left. split; [done|]. by apply modify_Ret in Hrun.
Qed.

Lemma edge_live_well_formed full s v cs c i :
  well_formed full s → clients s !! v = Some cs → (c, i) ∈ cs →
  0 ≤ i ∧ slot s c i = Some v ∧ member s c.
Proof.
  intros [[_ Hlive] _ _ _] Hv He.
  destruct (Hlive v cs _ Hv He) as [Hl|Hin]; [done|by apply elem_of_nil in Hin].
Qed.

(** The loop of [replace] over the clients that are left, all of them
    still in the client list of [var]. *)
Lemma well_formed_replace_loop full var new_var reason import_missing rem s s' :
  well_formed full s → NoDup rem →
  (∀ e, e ∈ rem → ∃ cs, clients s !! var = Some cs ∧ e ∈ cs) →
  for_each (λ '(node, i),
    let* _ := assert_client node i var in
    change_input E node i new_var reason import_missing) rem s = Ret tt s' →
  well_formed full s'.
Proof.
  revert s. induction rem as [|[node i] rem IH]; intros s Hs Hnd Hrem Hrun; simpl in Hrun.
  { by apply ret_Ret in Hrun as [_ ->]. }
  apply bind_Ret_inv in Hrun as (u & s1 & Hturn & Hrun). destruct u.
  apply bind_Ret_inv in Hturn as (u & s0 & Hassert & Hturn).
  apply assert_client_Ret in Hassert as [-> Hslot].
  destruct (Hrem (node, i)) as (cs & Hv & He); [left|].
  destruct (edge_live_well_formed _ _ _ _ _ _ Hs Hv He) as (Hi & _ & Hm).
  apply NoDup_cons in Hnd as [Hni Hnd].
  apply (IH s1); [by eapply well_formed_change_input|done| |done].
  intros e' He'. destruct (Hrem e') as (cs0 & Hv0 & He0); [by right|].
  assert (cs0 = cs) as -> by congruence.
  destruct (decide (var = new_var)) as [<-|Hne].
  { rewrite (change_input_same E _ _ _ _ reason import_missing Hslot) in Hturn.
    injection Hturn as <-. by exists cs. }
  destruct (change_input_quiet node i var new_var reason import_missing s s1 cs e'
              Hi Hslot Hne Hv He He0)
    as (s2 & csn & cs2 & cs2' & Himp & Hcsn & Hcs2 & Hr2 & ->);
    [by intros ->|exact Hturn|].
  exists cs2'. simpl. rewrite lookup_insert_eq. split; [done|].
  assert (∃ cs3, clients s2 !! var = Some cs3 ∧ e' ∈ cs3) as (cs3 & Hv3 & He3).
  { eapply (preserves_Ret (λ s, ∃ cs3, clients s !! var = Some cs3 ∧ e' ∈ cs3));
      [| |exact Himp].
    - apply preserves_import_var. split; try done.
      + intros s0 v (cs1 & H1 & H2) Hc.
        exists cs1. simpl. rewrite lookup_insert_ne; [done|]. intros ->. congruence.
      + intros s0 v cs1 e0 (cs4 & H1 & H2) Hc. simpl.
        destruct (decide (v = var)) as [->|Hvv].
        * exists (cs1 ++ [e0]). rewrite lookup_insert_eq.
          assert (cs4 = cs1) as -> by congruence.
          split; [done|apply elem_of_app; by left].
        * exists cs4. by rewrite lookup_insert_ne.
      + intros s0 v (cs1 & H1 & H2) Hmiss.
        rewrite add_input_true_Ret by (by eapply is_missing_input_not_in). simpl.
        destruct (clients s0 !! v) eqn:Hcv; [by exists cs1|].
        exists cs1. rewrite lookup_insert_ne; [done|]. intros ->. congruence.
    - exists cs. destruct (write_slot_fields node i new_var s) as (_ & -> & _). done. }
  assert (cs3 = cs2) as -> by congruence.
  apply (list_remove_elem_of _ e' _ _ Hr2) in He3 as [->|He3]; [|done].
  exfalso. apply Hni. done.
Qed.

Lemma well_formed_replace full var new_var reason verbose import_missing s s' :
  well_formed full s →
  replace E var new_var reason verbose import_missing s = Ret tt s' →
  well_formed full s'.
Proof.
  intros Hs Hrun.
  assert (well_formed full (printed E var new_var reason verbose s)) as Hp.
  { eapply graph_inv_core; [|exact Hs]. unfold printed.
    by destruct (default (optimizer_verbose E) verbose). }
  apply replace_Ret in Hrun as (new_var' & _ & [[_ ->]|(_ & cs & Hcs & Hloop)]).
  - eapply graph_inv_core; [|exact Hp]. by repeat split.
  - eapply well_formed_replace_loop; [exact Hp| | |exact Hloop].
    + by eapply (inv_nodup _ _ (gi_sound _ _ _ _ _ Hs)).
    + intros e He. exists cs. split; [|done].
      unfold printed. by destruct (default (optimizer_verbose E) verbose).
Qed.

End ReplaceInv.

(** ** The invariant of a new graph *)

Section InitInv.
Variable E : Env.

Lemma attach_feature_core f s : same_core s (final (attach_feature E f s)).
Proof.
  unfold attach_feature, bind, gets. case_decide; [done|].
  destruct (has_method E f on_attach); [|done].
  unfold call_feature. destruct (call_method E f OnAttach s) as [x|]; [|done].
  by destruct x.
Qed.

(** The fields of the state [init_features] leaves. *)
Definition fresh_graph (outs : list Var) (s : State) : Prop :=
  outputs s = outs ∧ apply_nodes s = ∅ ∧ clients s = ∅.

Lemma init_features_fresh outs features s s' :
  init_features E outs features s = Ret tt s' → fresh_graph outs s'.
Proof.
  intros Hrun. unfold init_features in Hrun.
  apply bind_Ret_inv in Hrun as (u & s1 & Hm & Hrun). apply modify_Ret in Hm as ->.
  assert (preserves (fresh_graph outs) (let* _ := for_each (attach_feature E) features in
                                        attach_feature E (ReplaceValidate E))) as Hp.
  { assert (∀ f, preserves (fresh_graph outs) (attach_feature E f)) as Hf.
    { intros f s0 (H1 & H2 & H3).
      destruct (attach_feature_core f s0) as (_ & Ho & Ha & Hc).
      unfold fresh_graph. by rewrite <- Ho, <- Ha, <- Hc. }
    pstep; [pstep|]; apply Hf. }
  eapply (preserves_Ret _ _ _ _ _ Hp); [|exact Hrun]. done.
Qed.

Lemma graph_inv_fresh full outs s :
  fresh_graph outs s →
  graph_inv full s [] (λ e, e.1 = COutput) (λ _ e, e.1 = COutput).
Proof.
  intros (Ho & Ha & Hc). split; [split| | |].
  - intros v cs. by rewrite Hc, lookup_empty.
  - intros v cs e. by rewrite Hc, lookup_empty.
  - intros _. split; [|by intros v e ?%elem_of_nil].
    intros v [[|n] i] (_ & _ & Hm) Hh; simpl in *; [done|].
    rewrite Ha in Hm. by apply not_elem_of_empty in Hm.
  - by intros v e ?%elem_of_nil.
  - intros v [c i] Hc'. simpl in Hc'. subst c. split; [done|].
    intros cs. by rewrite Hc, lookup_empty.
Qed.

(** The last loop of [__init__]: at the [k]-th turn the edges of the first
    [k] outputs are in the client lists. *)
Definition adding_outputs (full : bool) (outs : list Var) (k : nat) (s : State) : Prop :=
  graph_inv full s [] (λ e, e.1 = COutput ∧ Z.of_nat k ≤ e.2) (λ _ _, False)
  ∧ (∀ v cs j, clients s !! v = Some cs → (COutput, j) ∈ cs → j < Z.of_nat k)
  ∧ outputs s = outs.

Lemma adding_outputs_step full outs j x s s' :
  outs !! j = Some x →
  adding_outputs full outs j s →
  add_client x (COutput, Z.of_nat j) s = Ret tt s' →
  adding_outputs full outs (S j) s'.
Proof.
  intros Hx (H1 & H2 & H3) Hrun. unfold add_client, get_clients in Hrun.
  apply bind_Ret_inv in Hrun as (cs & s0 & Hcs & Hadd).
  apply bind_Ret_inv in Hcs as (c & s0' & Hc & Hcs).
  apply gets_Ret in Hc as [-> ->].
  destruct (clients s !! x) as [cs0|] eqn:Hv; [|done].
  apply ret_Ret in Hcs as [-> ->]. apply modify_Ret in Hadd as ->.
  assert (edge_live s x (COutput, Z.of_nat j)) as Hlive.
  { split_and!; simpl; [lia| |done].
    rewrite H3, py_getitem_nonneg by lia. by rewrite Nat2Z.id. }
  assert ((COutput, Z.of_nat j) ∉ cs0) as Hfresh.
  { intros Hin. specialize (H2 _ _ _ Hv Hin). lia. }
  split_and!.
  - eapply graph_inv_hole.
    + eapply graph_inv_append; [exact H1|done|done|done|]. by intros [].
    + intros v [c i] Hl [[Hc Hi] Hne]; simpl in *. split; [done|].
      subst c. assert (i ≠ Z.of_nat j) by congruence. lia.
  - intros v cs' i. simpl. destruct (decide (x = v)) as [<-|Hne].
    + rewrite lookup_insert_eq. intros [= <-] [Hin|Hin]%elem_of_app.
      * specialize (H2 _ _ _ Hv Hin). lia.
      * apply list_elem_of_singleton in Hin. injection Hin as ->. lia.
    + rewrite lookup_insert_ne by done. intros Hv' Hin.
      specialize (H2 _ _ _ Hv' Hin). lia.
  - done.
Qed.

Lemma well_formed_init_graph full ins outs features s s' :
  init_graph E ins outs features s = Ret tt s' → well_formed full s'.
Proof.
  intros Hrun. unfold init_graph in Hrun.
  apply bind_Ret_inv in Hrun as (u & s1 & Hfeat & Hrun). destruct u.
  apply init_features_fresh in Hfeat.
  apply bind_Ret_inv in Hrun as (u & s2 & Hm & Hrun). apply modify_Ret in Hm as ->.
  clear u. apply bind_Ret_inv in Hrun as (u & s3 & Hins & Hrun). destruct u.
  apply bind_Ret_inv in Hrun as (u & s4 & Houts & Hrun). destruct u.
  pose (I := λ s, graph_inv full s [] (λ e, e.1 = COutput) (λ (_ : Var) (e : Client * Z), e.1 = COutput)
                  ∧ outputs s = outs).
  assert (I (set_inputs (λ _, []) s1)) as H2.
  { split; [|by destruct Hfeat].
    eapply graph_inv_core; [|by eapply graph_inv_fresh]. by repeat split. }
  assert (I s3) as H3.
  { eapply (for_each_Ret I); [|exact H2|exact Hins].
    intros v s5 s6 _ [Hg Ho] Hadd. destruct (var_owner E v); [done|]. split.
    - by eapply (preserves_Ret _ _ _ _ _ (graph_inv_add_input _ _ _ _ v false)).
    - rewrite add_input_false_Ret in Hadd. by injection Hadd as <-. }
  assert (I s4) as [H4 Ho4].
  { eapply (for_each_Ret I); [|exact H3|exact Houts].
    intros v s5 s6 _ [Hg Ho] Himp. split; [by eapply graph_inv_import_var|].
    eapply (preserves_Ret (λ s, node_inputs s = node_inputs s5 ∧ outputs s = outs));
      [| |exact Himp]; [|done].
    apply preserves_import_var, slots_import_stable. }
  unfold enumerate in Hrun.
  eapply (for_each_enumerate_Ret (adding_outputs full outs)) in Hrun.
  - destruct Hrun as (Hg & _ & Ho). eapply graph_inv_hole; [exact Hg|].
    intros v [c i] (H0 & Hsl & _) [Hc Hi]. simpl in *. subst c. simpl in Hsl.
    rewrite Ho, py_getitem_nonneg in Hsl by done.
    apply lookup_lt_Some in Hsl. lia.
  - intros j x s5 s6 Hx Hi Hstep. simpl in *. by eapply adding_outputs_step.
  - split_and!; [| |done].
    + eapply graph_inv_hole.
      * eapply graph_inv_absent; [exact H4|]. by intros.
      * intros v e (H0 & _) Hc. split; [done|]. simpl. lia.
    + intros v cs j Hv Hin. exfalso.
      by apply (proj2 (gi_absent _ _ _ _ _ H4 v (COutput, j) eq_refl) cs Hv).
Qed.

Lemma well_formed_init full ins outs features clone s s' :
  __init__ E ins outs features clone s = Ret tt s' → well_formed full s'.
Proof.
  unfold __init__. destruct outs as [outs|]; [|done]. intros Hrun.
  apply bind_Ret_inv in Hrun as (h & s0 & Hh & Hrun).
  apply bind_Ret_inv in Hrun as ([ins' outs'] & s1 & _ & Hrun).
  by eapply well_formed_init_graph.
Qed.

End InitInv.

(** * Further properties of the container *)

(** ** Exact client lists

    A graph is consistent when its client lists say exactly who uses what:
    no list has an entry twice, every entry [(c, i)] of [clients[v]] is a
    position [i ≥ 0] of a member [c] whose slot holds [v], and every such
    position of a member is an entry of the list of the variable it holds.
    A graph is sound when the first two hold. *)
Definition clients_sound (s : State) : Prop :=
  (∀ v cs, clients s !! v = Some cs → NoDup cs)
  ∧ (∀ v cs c i, clients s !! v = Some cs → (c, i) ∈ cs →
       0 ≤ i ∧ slot s c i = Some v ∧ member s c).

Definition clients_complete (s : State) : Prop :=
  ∀ v c i, 0 ≤ i → slot s c i = Some v → member s c →
    ∃ cs, clients s !! v = Some cs ∧ (c, i) ∈ cs.

Definition consistent (s : State) : Prop := clients_sound s ∧ clients_complete s.

Lemma well_formed_sound full s : well_formed full s → clients_sound s.
Proof.
  intros Hwf. split.
  - apply (inv_nodup _ _ (gi_sound _ _ _ _ _ Hwf)).
  - intros v cs c i. by apply edge_live_well_formed with full.
Qed.

Lemma sound_well_formed s : clients_sound s → well_formed false s.
Proof.
  intros [Hnd Hs]. split; [split| | |]; try done.
  - intros v cs [c i] Hv He. left. by apply (Hs v cs).
  - by intros v e ?%elem_of_nil.
Qed.

Lemma well_formed_consistent s : well_formed true s ↔ consistent s.
Proof.
  split.
  - intros Hwf. split; [by eapply well_formed_sound|].
    intros v c i Hi Hsl Hm.
    apply (inv_complete _ _ _ (gi_complete _ _ _ _ _ Hwf eq_refl) v (c, i)); [done|].
    by intros [].
  - intros [[Hnd Hs] Hc]. split; [split| | |]; try done.
    + intros v cs [c i] Hv He. left. by apply (Hs v cs).
    + intros _. split; [|by intros v e ?%elem_of_nil].
      intros v [c i] (Hi & Hsl & Hm) _. by apply Hc.
    + by intros v e ?%elem_of_nil.
Qed.

Lemma consistent_back_edge_sound s : clients_sound s → back_edge_sound s.
Proof. intros [_ Hs] v cs c i Hv He. by apply (Hs v cs c i). Qed.

(** The positions of [v] in a list, counted from [k]. *)
Fixpoint positions_from (k : nat) (v : Var) (l : list Var) : list nat :=
  match l with
  | [] => []
  | w :: l' => if decide (w = v) then k :: positions_from (S k) v l'
               else positions_from (S k) v l'
  end.

Lemma elem_of_positions_from k v l j :
  j ∈ positions_from k v l ↔ (k ≤ j)%nat ∧ l !! (j - k)%nat = Some v.
Proof.
  revert k. induction l as [|w l IH]; intros k; simpl.
  - split; [by intros ?%elem_of_nil|by intros [_ ?]].
  - assert (j ∈ positions_from (S k) v l ↔ (k < j)%nat ∧ l !! (j - S k)%nat = Some v) as IH'.
    { rewrite IH. by replace (S k ≤ j)%nat with (k < j)%nat. }
    assert (∀ P : Prop, (k < j)%nat ∧ P ↔ (k ≤ j)%nat ∧ j ≠ k ∧ P) as Hlt.
    { intros P. split; [intros [? ?]|intros (? & ? & ?)]; split_and!; try done; lia. }
    destruct (decide (j = k)) as [->|Hne].
    + rewrite Nat.sub_diag. simpl. case_decide; subst.
      * split; [done|]. intros _. left.
      * rewrite IH'. split; [lia|]. intros [_ [= ?]]. done.
    + destruct (decide (k < j)%nat) as [Hlt'|Hge].
      2: { case_decide; rewrite ?elem_of_cons, IH';
             (split; [|intros [? _]; lia]);
             [intros [?|[? _]]; [done|lia]|intros [? _]; lia]. }
      replace (j - k)%nat with (S (j - S k)) by lia.
      simpl. case_decide; rewrite ?elem_of_cons, IH'.
      * split; [intros [?|[? ?]]; [done|split; [lia|done]]|].
        intros [? ?]. right. split; [lia|done].
      * split; [intros [? ?]; split; [lia|done]|]. intros [? ?]. split; [lia|done].
Qed.

Lemma positions_from_NoDup k v l : NoDup (positions_from k v l).
Proof.
  revert k. induction l as [|w l IH]; intros k; simpl; [constructor|].
  case_decide; [|done]. constructor; [|done].
  rewrite elem_of_positions_from. lia.
Qed.

Lemma length_positions_from k v l : length (positions_from k v l) = occurrences v l.
Proof.
  revert k. unfold occurrences. induction l as [|w l IH]; intros k; simpl; [done|].
  rewrite filter_cons. case_decide; simpl; by rewrite IH.
Qed.

Lemma consistent_multiplicities s : consistent s → multiplicities_match s.
Proof.
  intros [[Hnd Hs] Hc] n v Hn. split.
  - intros Hv. apply list_elem_of_lookup in Hv as [k Hk].
    destruct (Hc v (CNode n) (Z.of_nat k)) as (cs & Hcs & _); [lia| |done|by exists cs].
    simpl. rewrite py_getitem_nonneg by lia. by rewrite Nat2Z.id.
  - intros cs Hcs. unfold client_count.
    rewrite <- (length_positions_from 0).
    rewrite <- (length_fmap (λ k : nat, (CNode n, Z.of_nat k))).
    apply Permutation_length, NoDup_Permutation.
    + apply NoDup_filter, (Hnd v cs Hcs).
    + apply NoDup_fmap_2; [|apply positions_from_NoDup].
      intros k1 k2 [= ?]. lia.
    + intros [c i]. rewrite list_elem_of_filter, list_elem_of_fmap. simpl. split.
      * intros [-> He]. destruct (Hs v cs _ _ Hcs He) as (Hi & Hsl & _).
        exists (Z.to_nat i). split; [f_equal; lia|].
        apply elem_of_positions_from. split; [lia|].
        simpl in Hsl. rewrite py_getitem_nonneg in Hsl by done.
        by rewrite Nat.sub_0_r.
      * intros (k & [= -> ->] & Hk). split; [done|].
        apply elem_of_positions_from in Hk as [_ Hk]. rewrite Nat.sub_0_r in Hk.
        destruct (Hc v (CNode n) (Z.of_nat k)) as (cs' & Hcs' & He); [lia| |done|].
        { simpl. rewrite py_getitem_nonneg by lia. by rewrite Nat2Z.id. }
        by simplify_eq.
Qed.

Section Consistency.
Variable E : Env.

(** X1. The constructor makes exact client lists: in the graph a call of
    [__init__] that returns leaves, no client list has an entry twice, every
    entry [(c, i)] of [clients[v]] is a position of ["output"] or of a member
    node whose slot holds [v], and every input position of a member node and
    every position of [outputs] is an entry of the client list of the
    variable it holds. *)
Theorem init_consistent ins outs features clone s s' :
  __init__ E ins outs features clone s = Ret tt s' → consistent s'.
Proof. intros Hrun. apply well_formed_consistent. by eapply well_formed_init. Qed.

(** X2. The import methods keep the client lists exact: when [import_var]
    or [import_node] returns on a consistent graph, the graph it leaves is
    consistent; when only soundness held before, soundness holds after. *)
Theorem import_consistent v n check reason import_missing s s' :
  (import_var E v reason import_missing s = Ret tt s'
   ∨ import_node E n check reason import_missing s = Ret tt s') →
  (consistent s → consistent s') ∧ (clients_sound s → clients_sound s').
Proof.
  intros Hrun. split.
  - intros Hs%well_formed_consistent. apply well_formed_consistent.
    destruct Hrun as [Hrun|Hrun].
    + by eapply graph_inv_import_var.
    + by eapply graph_inv_import_node.
  - intros Hs%sound_well_formed. apply (well_formed_sound false).
    destruct Hrun as [Hrun|Hrun].
    + by eapply graph_inv_import_var.
    + by eapply graph_inv_import_node.
Qed.

(** X3. [change_input] keeps the client lists exact: called on a position
    [i ≥ 0] of ["output"] or of a member node of a consistent graph, a call
    that returns leaves a consistent graph. *)
Theorem change_input_consistent node i new_var reason import_missing s s' :
  consistent s → member s node → 0 ≤ i →
  change_input E node i new_var reason import_missing s = Ret tt s' →
  consistent s'.
Proof.
  intros Hs%well_formed_consistent Hm Hi Hrun. apply well_formed_consistent.
  by eapply well_formed_change_input.
Qed.

(** X4. [replace] keeps the client lists exact: a call that returns on a
    consistent graph leaves a consistent graph, whatever the two variables
    are. *)
Theorem replace_consistent var new_var reason verbose import_missing s s' :
  consistent s →
  replace E var new_var reason verbose import_missing s = Ret tt s' →
  consistent s'.
Proof.
  intros Hs%well_formed_consistent Hrun. apply well_formed_consistent.
  by eapply well_formed_replace.
Qed.

Lemma sound_inv_pend s pend pend' :
  sound_inv s pend → pend ⊆ pend' → sound_inv s pend'.
Proof.
  intros [Hnd Hl] Hsub. split; [done|].
  intros v cs e Hv He. destruct (Hl v cs e Hv He) as [?|Hin]; [by left|right].
  by apply Hsub.
Qed.

Lemma remove_client_sound_inv v e reason s s' :
  clients_sound s → remove_client E v e reason s = Ret tt s' → clients_sound s'.
Proof.
  intros Hs%sound_well_formed Hrun. apply (well_formed_sound false).
  apply removal_inv_graph with (hole := λ _, False).
  eapply (removal_inv_remove_client E false (λ _, False)); [|exact Hrun].
  split; [|done]. eapply sound_inv_pend; [apply Hs|]. by intros x ?%elem_of_nil.
Qed.

(** X5. A direct call of [remove_client] keeps the client lists sound:
    when the call returns, no client list has an entry twice and every
    entry is a position of a member whose slot holds the variable, whether
    or not the removed edge was in use and whether or not nodes were
    pruned. *)
Theorem remove_client_sound v e reason s s' :
  clients_sound s → remove_client E v e reason s = Ret tt s' → clients_sound s'.
Proof. apply remove_client_sound_inv. Qed.

Lemma reachable_well_formed direct_removal s :
  reachable E direct_removal s → well_formed (negb direct_removal) s.
Proof.
  induction 1 as [ins outs features clone s0 s Hrun
                 |v reason import_missing s s' _ IH Hrun
                 |n check reason import_missing s s' _ IH Hrun
                 |node i new_var reason import_missing s s' _ IH Hm Hi Hrun
                 |var new_var reason verbose import_missing s s' _ IH Hrun
                 |v e reason s s' Hd _ IH Hrun].
  - by eapply well_formed_init.
  - by eapply graph_inv_import_var.
  - by eapply graph_inv_import_node.
  - by eapply well_formed_change_input.
  - by eapply well_formed_replace.
  - subst direct_removal. simpl in *. apply sound_well_formed.
    eapply remove_client_sound_inv; [|exact Hrun]. by eapply well_formed_sound.
Qed.

(** X6. The back-edges of every graph the public operations make: after
    the constructor and any number of calls of [import_var], [import_node],
    [change_input] (on a position [i ≥ 0] of ["output"] or of a member node)
    and [replace], each returning normally, every pair [(c, i)] of
    [clients[v]] has [outputs[i] is v] or [c.inputs[i] is v], and a client
    list has as many entries for a member node as the variable has
    occurrences in the node's inputs. With direct calls of [remove_client]
    among the operations the first half still holds. *)
Theorem reachable_back_edges direct_removal s :
  reachable E direct_removal s →
  back_edge_sound s ∧ (direct_removal = false → multiplicities_match s).
Proof.
  intros Hs%reachable_well_formed. split.
  - by eapply consistent_back_edge_sound, well_formed_sound.
  - intros ->. by apply consistent_multiplicities, well_formed_consistent.
Qed.

End Consistency.

(** *** On the example graph *)

Lemma ex_graph_init :
  (__init__ ex_env (Some [1; 2]) (Some [4]) (Some [1]) false ex_world)%positive
  = Ret tt ex_graph.
Proof. by vm_compute. Qed.

Lemma ex_graph_consistent : consistent ex_graph.
Proof.
  apply well_formed_consistent. eapply well_formed_init. apply ex_graph_init.
Qed.

Lemma init_consistent_witness : consistent ex_graph.
Proof.
  refine (init_consistent ex_env (Some [1; 2]) (Some [4]) (Some [1]) false
            ex_world ex_graph _)%positive.
  apply ex_graph_init.
Defined.

Lemma import_consistent_witness :
  consistent (final (import_var ex_env 5 None false ex_graph)).
Proof.
  refine (proj1 (import_consistent ex_env 5 12 true None false ex_graph
                   (final (import_var ex_env 5 None false ex_graph)) _) _).
  - left. by vm_compute.
  - exact ex_graph_consistent.
Defined.

Lemma change_input_consistent_witness :
  consistent (final (change_input ex_env (CNode 11) 0 2 None false ex_graph)).
Proof.
  refine (change_input_consistent ex_env (CNode 11) 0 2 None false ex_graph
            (final (change_input ex_env (CNode 11) 0 2 None false ex_graph)) _ _ _ _).
  - exact ex_graph_consistent.
  - simpl. apply (bool_decide_unpack _). by vm_compute.
  - done.
  - by vm_compute.
Defined.

Lemma replace_consistent_witness :
  consistent (final (replace ex_env 3 2 None None false ex_graph)).
Proof.
  refine (replace_consistent ex_env 3 2 None None false ex_graph
            (final (replace ex_env 3 2 None None false ex_graph)) _ _).
  - exact ex_graph_consistent.
  - by vm_compute.
Defined.

Lemma remove_client_sound_witness :
  clients_sound (final (remove_client ex_env 1 (CNode 10, 0) None ex_graph)).
Proof.
  refine (remove_client_sound ex_env 1 (CNode 10, 0) None ex_graph
            (final (remove_client ex_env 1 (CNode 10, 0) None ex_graph)) _ _).
  - apply ex_graph_consistent.
  - by vm_compute.
Defined.

Lemma reachable_back_edges_witness :
  back_edge_sound ex_graph ∧ multiplicities_match ex_graph.
Proof.
  refine (let H := reachable_back_edges ex_env false ex_graph _ in
          conj (proj1 H) (proj2 H eq_refl)).
  eapply reach_init. apply ex_graph_init.
Defined.

(** ** The loop of [remove_client], turn by turn *)

(** [any(...)] is false exactly when every output has an empty client
    list. *)
Lemma any_output_has_clients_false E c outs :
  any_output_has_clients E c outs = inr false ↔ ∀ o, o ∈ outs → c !! o = Some [].
Proof.
  induction outs as [|o outs IH]; simpl.
  - split; [by intros _ o ?%elem_of_nil|done].
  - destruct (c !! o) as [[|e cs]|] eqn:Ho.
    + rewrite IH. split.
      * intros Hall o' [->|?]%elem_of_cons; [done|by apply Hall].
      * intros Hall o' Ho'. apply Hall. by right.
    + split.
      * unfold truth_value. by destruct (var_bool E o).
      * intros Hall. specialize (Hall o). rewrite Ho in Hall.
        by specialize (Hall ltac:(left)).
    + split; [done|]. intros Hall. specialize (Hall o). rewrite Ho in Hall.
      by specialize (Hall ltac:(left)).
Qed.

(** The state after the node [p] is pruned for [reason]. *)
Definition pruned (E : Env) (p : Apply) (reason : Reason) (s : State) : State :=
  set_calls (λ c, c ++ callbacks_of E (OnPrune p reason) (_features s))
    (set_variables (λ vs, vs ∖ list_to_set (node_outputs E p))
       (set_apply_nodes (λ ns, ns ∖ {[p]})
          (set_removed_by (λ t, <[p := default [] (t !! p) ++ [str_reason reason]]> t) s))).

Section RemovalTurns.
Variable E : Env.

(** The end of a turn that returned: nothing happens, or the variable
    leaves [variables], or the owner of the variable, a member none of
    whose outputs has a client, is pruned and its input edges are pushed. *)
Lemma remove_unused_Ret var reason s pushed s' :
  remove_unused E var reason s = Ret pushed s' →
  (pushed = [] ∧ (s' = s ∨ s' = set_variables (λ vs, vs ∖ {[var]}) s))
  ∨ (∃ p, var_owner E var = Some p ∧ p ∈ apply_nodes s
       ∧ (∀ o, o ∈ node_outputs E p → clients s !! o = Some [])
       ∧ s' = pruned E p reason s
       ∧ pushed = input_edges p (inputs_of s p)).
Proof.
  intros Hrun. unfold remove_unused in Hrun.
  destruct (var_owner E var) as [p|] eqn:Hp.
  - apply bind_Ret_inv in Hrun as (c & s0 & Hc & Hrun).
    apply gets_Ret in Hc as [-> ->].
    destruct (any_output_has_clients E (clients s) (node_outputs E p)) as [x|[|]] eqn:Hany;
      [done| |clear Hp].
    { apply ret_Ret in Hrun as [-> ->]. left. split; [done|by left]. }
    apply bind_Ret_inv in Hrun as (u0 & s0 & Htag & Hrun).
    apply modify_Ret in Htag as ->.
    apply bind_Ret_inv in Hrun as (ns & s0 & Hns & Hrun).
    apply gets_Ret in Hns as [-> ->]. simpl in Hrun.
    case_decide as Hmem; [|done].
    apply bind_Ret_inv in Hrun as (u1 & s1 & H1 & Hrun). apply modify_Ret in H1 as ->.
    apply bind_Ret_inv in Hrun as (u2 & s2 & H2 & Hrun). apply modify_Ret in H2 as ->.
    apply bind_Ret_inv in Hrun as (u3 & s3 & H3 & Hrun). destruct u3.
    apply execute_callbacks_Ret in H3 as ->.
    apply bind_Ret_inv in Hrun as (ins & s4 & H4 & Hrun).
    apply gets_Ret in H4 as [-> ->]. apply ret_Ret in Hrun as [-> ->].
    right. exists p. split_and!; try done.
    by apply (proj1 (any_output_has_clients_false E _ _)).
  - apply bind_Ret_inv in Hrun as (vs & s0 & Hvs & Hrun).
    apply gets_Ret in Hvs as [-> ->].
    case_decide; [|done].
    apply bind_Ret_inv in Hrun as (u & s1 & Hm & Hrun). apply modify_Ret in Hm as ->.
    apply ret_Ret in Hrun as [-> ->]. left. split; [done|by right].
Qed.

(** The popped edge is taken out of the client list of its variable when
    it is there; the turn then ends, or goes on with [remove_unused]. *)
Lemma remove_client_step_Ret var e reason s pushed s' :
  remove_client_step E var e reason s = Ret pushed s' →
  ∃ cs cs1, clients s !! var = Some cs ∧ cs1 ⊆ cs
    ∧ (list_remove e cs = Some cs1 ∨ ((e ∉ cs) ∧ cs1 = cs))
    ∧ ((pushed = [] ∧ s' = set_clients <[var := cs1]> s)
       ∨ remove_unused E var reason (set_clients <[var := cs1]> s) = Ret pushed s').
Proof.
  intros Hrun. unfold remove_client_step, get_clients in Hrun.
  apply bind_Ret_inv in Hrun as (cs & s0 & Hcs & Hrun).
  apply bind_Ret_inv in Hcs as (c & s1 & Hc & Hcs).
  apply gets_Ret in Hc as [-> ->].
  destruct (clients s !! var) as [cs0|] eqn:Hv; [|done].
  apply ret_Ret in Hcs as [-> ->]. exists cs0.
  apply bind_Ret_inv in Hrun as (var_clients & s1 & Hrem & Hrun).
  destruct (list_remove e cs0) as [cs'|] eqn:Hr.
  - apply bind_Ret_inv in Hrem as (u & s2 & Hm & Hrem).
    apply modify_Ret in Hm as ->. apply ret_Ret in Hrem as [-> ->].
    exists cs'. split_and!; [done| |by left|].
    + intros x Hx. apply (list_remove_elem_of _ x _ _ Hr). by right.
    + destruct cs'; [by right|]. left. by apply ret_Ret in Hrun as [-> ->].
  - apply ret_Ret in Hrem as [-> ->]. exists cs0.
    assert (set_clients <[var := cs0]> s = s) as ->.
    { destruct s. unfold set_clients. simpl in *. f_equal. by rewrite insert_id. }
    split_and!; [done|done| |by right].
    right. split; [|done]. by apply list_remove_None.
Qed.

(** Between the states before and after a turn: the fields a turn never
    writes, and the sets and lists that only lose elements. *)
Definition removal_frame (s s' : State) : Prop :=
  node_inputs s' = node_inputs s ∧ outputs s' = outputs s ∧ inputs s' = inputs s
  ∧ _features s' = _features s ∧ execute_callbacks_times s' = execute_callbacks_times s
  ∧ imported_by s' = imported_by s ∧ io s' = io s
  ∧ variables s' ⊆ variables s
  ∧ apply_nodes s' ⊆ apply_nodes s
  ∧ ∀ v, match clients s' !! v, clients s !! v with
         | Some cs', Some cs => cs' ⊆ cs
         | None, None => True
         | _, _ => False
         end.

Lemma removal_frame_refl s : removal_frame s s.
Proof. split_and!; try done. intros v. by destruct (clients s !! v). Qed.

Lemma removal_frame_trans s1 s2 s3 :
  removal_frame s1 s2 → removal_frame s2 s3 → removal_frame s1 s3.
Proof.
  intros (A1 & A2 & A3 & A4 & A5 & A6 & A7 & A8 & A9 & A10)
         (B1 & B2 & B3 & B4 & B5 & B6 & B7 & B8 & B9 & B10).
  split_and!; try congruence; [by etrans..|].
  intros v. specialize (A10 v). specialize (B10 v).
  destruct (clients s1 !! v), (clients s2 !! v), (clients s3 !! v); try done.
  by etrans.
Qed.

Lemma removal_frame_set_clients s var cs cs1 :
  clients s !! var = Some cs → cs1 ⊆ cs →
  removal_frame s (set_clients <[var := cs1]> s).
Proof.
  intros Hv Hsub. split_and!; try done. intros v. simpl.
  destruct (decide (var = v)) as [<-|Hne].
  - by rewrite lookup_insert_eq, Hv.
  - rewrite lookup_insert_ne by done. by destruct (clients s !! v).
Qed.

Lemma removal_frame_pruned p reason s : removal_frame s (pruned E p reason s).
Proof.
  split_and!; try done; simpl; [set_solver..|].
  intros v. by destruct (clients s !! v).
Qed.

Lemma remove_client_step_frame var e reason s pushed s' :
  remove_client_step E var e reason s = Ret pushed s' → removal_frame s s'.
Proof.
  intros (cs & cs1 & Hv & Hsub & _ & Hend)%remove_client_step_Ret.
  pose proof (removal_frame_set_clients s var cs cs1 Hv Hsub) as Hfr.
  destruct Hend as [[_ ->]|Hun]; [done|].
  eapply removal_frame_trans; [exact Hfr|].
  apply remove_unused_Ret in Hun as [[_ [->| ->]]|(p & _ & _ & _ & -> & _)].
  - apply removal_frame_refl.
  - split_and!; try done; simpl; [set_solver|].
    intros v. by destruct (_ !! v).
  - apply removal_frame_pruned.
Qed.

(** A turn prunes nothing, or prunes the owner of the popped variable. *)
Lemma remove_client_step_cases var e reason s pushed s' :
  remove_client_step E var e reason s = Ret pushed s' →
  (pushed = [] ∧ apply_nodes s' = apply_nodes s ∧ calls s' = calls s
   ∧ removed_by s' = removed_by s)
  ∨ (∃ p, var_owner E var = Some p ∧ p ∈ apply_nodes s
       ∧ apply_nodes s' = apply_nodes s ∖ {[p]}
       ∧ calls s' = calls s ++ callbacks_of E (OnPrune p reason) (_features s)
       ∧ removed_by s'
         = <[p := default [] (removed_by s !! p) ++ [str_reason reason]]> (removed_by s)
       ∧ (∀ o, o ∈ node_outputs E p → (o ∉ variables s') ∧ clients s' !! o = Some [])
       ∧ pushed = input_edges p (inputs_of s p)).
Proof.
  intros (cs & cs1 & Hv & Hsub & _ & Hend)%remove_client_step_Ret.
  destruct Hend as [[-> ->]|Hun]; [by left|].
  apply remove_unused_Ret in Hun
    as [[-> [->| ->]]|(p & Hp & Hm & Houts & -> & ->)]; [by left..|].
  right. exists p. split_and!; try done.
  intros o Ho. split; [|by apply Houts].
  simpl. intros [_ Hn]%elem_of_difference. apply Hn. by apply elem_of_list_to_set.
Qed.

(** The sum, over the member nodes, of one plus the number of inputs. *)
Definition removal_weight (s : State) : nat :=
  sum_list ((λ n, S (length (inputs_of s n))) <$> elements (apply_nodes s)).

Lemma removal_weight_prune s s' p :
  node_inputs s' = node_inputs s → p ∈ apply_nodes s →
  apply_nodes s' = apply_nodes s ∖ {[p]} →
  removal_weight s = (S (length (inputs_of s p)) + removal_weight s')%nat.
Proof.
  intros Hni Hp Ha. unfold removal_weight. rewrite Ha.
  rewrite (union_difference_singleton_L p (apply_nodes s) Hp) at 1.
  rewrite elements_union_singleton by set_solver. simpl.
  unfold inputs_of. by rewrite Hni.
Qed.

Lemma length_enumerate_from {A} k (l : list A) : length (enumerate_from k l) = length l.
Proof. revert k. induction l as [|x l IH]; intros k; simpl; [done|]. by rewrite IH. Qed.

Lemma length_input_edges p ins : length (input_edges p ins) = length ins.
Proof. unfold input_edges, enumerate. by rewrite length_fmap, length_enumerate_from. Qed.

Lemma remove_client_step_weight var e reason s pushed s' :
  remove_client_step E var e reason s = Ret pushed s' →
  (length pushed + removal_weight s' ≤ removal_weight s)%nat.
Proof.
  intros Hrun. pose proof (remove_client_step_frame _ _ _ _ _ _ Hrun) as (Hni & _).
  apply remove_client_step_cases in Hrun
    as [(-> & Ha & _)|(p & _ & Hp & Ha & _ & _ & _ & ->)].
  - unfold removal_weight, inputs_of. by rewrite Ha, Hni.
  - rewrite (removal_weight_prune s s' p Hni Hp Ha), length_input_edges. lia.
Qed.

(** The loop ends: with fuel for the entries of the stack and the weight
    of the graph, it does not run out. *)
Lemma remove_client_loop_total fuel stack reason s :
  (length stack + removal_weight s ≤ fuel)%nat →
  ∃ r, remove_client_loop E fuel stack reason s = Some r.
Proof.
  revert stack s. induction fuel as [|fuel IH]; intros [|[v e] rest] s Hf; simpl in *;
    [by eexists|lia|by eexists|].
  destruct (remove_client_step E v e reason s) as [pushed s1|x s1] eqn:Hstep;
    [|by eexists].
  apply IH. apply remove_client_step_weight in Hstep.
  rewrite length_app, length_reverse. lia.
Qed.

Lemma remove_client_loop_mono fuel fuel' stack reason s r :
  remove_client_loop E fuel stack reason s = Some r → (fuel ≤ fuel')%nat →
  remove_client_loop E fuel' stack reason s = Some r.
Proof.
  revert fuel' stack s. induction fuel as [|fuel IH]; intros fuel' [|[v e] rest] s;
    simpl; try done.
  - intros Hr _. by destruct fuel'.
  - intros Hr _. by destruct fuel'.
  - intros Hr Hle. destruct fuel' as [|fuel']; [lia|]. simpl.
    destruct (remove_client_step E v e reason s) as [pushed s1|x s1]; [|done].
    apply IH; [done|lia].
Qed.

(** X7. The loop of [remove_client] ends: whatever the graph and the
    edge, the worklist is empty or an exception is raised after at most one
    turn plus, for every member node, one turn plus one per input; the
    bound [removal_fuel] on the number of turns is never reached, and more
    turns allowed change nothing. *)
Theorem remove_client_terminates var client_to_remove reason s :
  ∃ r, remove_client E var client_to_remove reason s = r
    ∧ ∀ fuel, (removal_fuel s ≤ fuel)%nat →
        remove_client_loop E fuel [(var, client_to_remove)] reason s = Some r.
Proof.
  destruct (remove_client_loop_total (removal_fuel s) [(var, client_to_remove)] reason s)
    as [r Hr].
  { unfold removal_fuel, removal_weight. simpl. lia. }
  exists r. split.
  - unfold remove_client. by rewrite Hr.
  - intros fuel Hle. by eapply remove_client_loop_mono.
Qed.

(** The nodes a run of the loop pruned, oldest first, with what the run
    did to the graph. *)
Record pruning (reason : Reason) (s s' : State) (L : list Apply) : Prop := {
  pr_nodup : NoDup L;
  pr_members : ∀ p, p ∈ L → p ∈ apply_nodes s;
  pr_apply_nodes : apply_nodes s' = apply_nodes s ∖ list_to_set L;
  pr_calls : calls s' = calls s
             ++ concat ((λ p, callbacks_of E (OnPrune p reason) (_features s)) <$> L);
  pr_outputs : ∀ p o, p ∈ L → o ∈ node_outputs E p →
               (o ∉ variables s') ∧ clients s' !! o = Some []
}.

Lemma removal_frame_no_clients s s' o :
  removal_frame s s' → clients s !! o = Some [] → clients s' !! o = Some [].
Proof.
  intros (_ & _ & _ & _ & _ & _ & _ & _ & _ & Hcl) Ho. specialize (Hcl o).
  rewrite Ho in Hcl. destruct (clients s' !! o) as [[|e cs]|]; [done| |done].
  exfalso. by apply (not_elem_of_nil e), Hcl; left.
Qed.

Lemma remove_client_loop_Ret fuel stack reason s s' :
  remove_client_loop E fuel stack reason s = Some (Ret tt s') →
  removal_frame s s' ∧ ∃ L, pruning reason s s' L.
Proof.
  revert stack s. induction fuel as [|fuel IH]; intros [|[v e] rest] s; simpl; try done.
  1,2: intros [= <-]; split; [apply removal_frame_refl|]; exists [];
       split; simpl; [constructor|by intros p ?%elem_of_nil|set_solver
                     |by rewrite app_nil_r|by intros p o ?%elem_of_nil].
  destruct (remove_client_step E v e reason s) as [pushed s1|x s1] eqn:Hstep; [|done].
  intros Hloop. destruct (IH _ _ Hloop) as (Hfr' & L & [Hnd Hmem Ha Hc Ho]).
  pose proof (remove_client_step_frame _ _ _ _ _ _ Hstep) as Hfr.
  split; [by eapply removal_frame_trans|].
  pose proof Hfr as (_ & _ & _ & Hfe & _).
  apply remove_client_step_cases in Hstep
    as [(_ & Ha1 & Hc1 & _)|(p & _ & Hp & Ha1 & Hc1 & _ & Ho1 & _)].
  - exists L. split; try done.
    + intros p Hp. rewrite <- Ha1. by apply Hmem.
    + by rewrite Ha, Ha1.
    + by rewrite Hc, Hc1, Hfe.
  - exists (p :: L). split.
    + constructor; [|done]. intros Hin%Hmem. rewrite Ha1 in Hin. set_solver.
    + intros q [->|Hq%Hmem]%elem_of_cons; [done|]. rewrite Ha1 in Hq. set_solver.
    + rewrite Ha, Ha1. simpl. set_solver.
    + rewrite Hc, Hc1, Hfe. simpl. by rewrite app_assoc.
    + intros q o [->|Hq]%elem_of_cons Hout; [|by eapply Ho].
      destruct (Ho1 o Hout) as [Hv Hcl]. split.
      * intros Hin. apply Hv. by apply Hfr'.
      * by eapply removal_frame_no_clients.
Qed.

(** X8. What [remove_client] prunes, when it returns: the pruned nodes are
    pairwise distinct members of the graph, [apply_nodes] loses them and
    nothing else, none of their outputs is left in [variables] and each has
    an empty client list, and [on_prune] was called once per pruned node on
    every feature that has the method, nodes in the order of pruning and
    features in the order of the feature list; no other callback was made.
    The nodes' inputs, [inputs], [outputs] and the feature list are as
    before, [variables] has lost elements only and the client lists have
    lost entries only. *)
Theorem remove_client_prunes var client_to_remove reason s s' :
  remove_client E var client_to_remove reason s = Ret tt s' →
  removal_frame s s' ∧ ∃ L, pruning reason s s' L.
Proof.
  unfold remove_client.
  destruct (remove_client_loop E (removal_fuel s) [(var, client_to_remove)] reason s)
    as [r|] eqn:Hl; [|done].
  intros ->. by eapply remove_client_loop_Ret.
Qed.

End RemovalTurns.

(** ** What the import methods add *)

(** Between the states before and after an import: the fields an import
    never writes, and the sets, lists and client lists, which only grow;
    the callbacks made are [on_import] calls. *)
Definition import_frame (s s' : State) : Prop :=
  node_inputs s' = node_inputs s ∧ outputs s' = outputs s ∧ _features s' = _features s
  ∧ execute_callbacks_times s' = execute_callbacks_times s
  ∧ removed_by s' = removed_by s ∧ io s' = io s
  ∧ inputs s `prefix_of` inputs s'
  ∧ variables s ⊆ variables s'
  ∧ apply_nodes s ⊆ apply_nodes s'
  ∧ (∃ l, calls s' = calls s ++ l ∧ Forall (λ c, hook_name c.2 = on_import) l)
  ∧ ∀ v cs, clients s !! v = Some cs →
      ∃ cs', clients s' !! v = Some cs' ∧ cs `prefix_of` cs'.

Lemma import_frame_refl s : import_frame s s.
Proof.
  split_and!; try done.
  - exists []. by rewrite app_nil_r.
  - intros v cs Hv. by exists cs.
Qed.

Section ImportFrame.
Variable E : Env.

Lemma import_frame_stable s0 : import_stable E (import_frame s0).
Proof.
  split.
  - intros s l n reason (H1 & H2 & H3 & H4 & H5 & H6 & H7 & H8 & H9 & (l0 & Hl0 & Hall) & H11)
      Hl.
    split_and!; try done. exists (l0 ++ l). simpl. rewrite Hl0, app_assoc. split; [done|].
    apply Forall_app. split; [done|].
    eapply Forall_impl; [exact Hl|]. by intros c ->.
  - intros s n (H1 & H2 & H3 & H4 & H5 & H6 & H7 & H8 & H9 & H10 & H11).
    split_and!; try done. simpl. set_solver.
  - intros s f (H1 & H2 & H3 & H4 & H5 & H6 & H7 & H8 & H9 & H10 & H11).
    by split_and!.
  - intros s v (H1 & H2 & H3 & H4 & H5 & H6 & H7 & H8 & H9 & H10 & H11).
    split_and!; try done. simpl. set_solver.
  - intros s v (H1 & H2 & H3 & H4 & H5 & H6 & H7 & H8 & H9 & H10 & H11) Hv.
    split_and!; try done. intros w cs Hw. destruct (H11 w cs Hw) as (cs' & Hw' & Hpre).
    exists cs'. simpl. rewrite lookup_insert_ne; [done|]. intros ->. congruence.
  - intros s v cs e (H1 & H2 & H3 & H4 & H5 & H6 & H7 & H8 & H9 & H10 & H11) Hv.
    split_and!; try done. intros w cs0 Hw. destruct (H11 w cs0 Hw) as (cs' & Hw' & Hpre).
    simpl. destruct (decide (v = w)) as [<-|Hne].
    + rewrite lookup_insert_eq. exists (cs ++ [e]). split; [done|].
      assert (cs' = cs) as -> by congruence. by apply prefix_app_r.
    + rewrite lookup_insert_ne by done. by exists cs'.
  - intros s v (H1 & H2 & H3 & H4 & H5 & H6 & H7 & H8 & H9 & H10 & H11) Hm.
    rewrite add_input_true_Ret by (by eapply is_missing_input_not_in). simpl.
    split_and!; try done; simpl.
    + by apply prefix_app_r.
    + set_solver.
    + intros w cs Hw. destruct (H11 w cs Hw) as (cs' & Hw' & Hpre).
      exists cs'. split; [|done]. destruct (clients s !! v) eqn:Hv; [done|].
      rewrite lookup_insert_ne; [done|]. intros ->. congruence.
Qed.

(** X9. The import methods only add: however [import_var] or
    [import_node] ends, with a return or with an exception, the nodes'
    inputs, [outputs], the feature list and the [removed_by] tags are as
    before; [inputs] and every client list have their old content as a
    prefix; [variables] and [apply_nodes] have lost nothing; and the only
    callbacks made are [on_import] calls. *)
Theorem import_only_adds v n check reason import_missing s :
  import_frame s (final (import_var E v reason import_missing s))
  ∧ import_frame s (final (import_node E n check reason import_missing s)).
Proof.
  split.
  - apply (preserves_import_var E _ (import_frame_stable s)), import_frame_refl.
  - apply (preserves_import_node E _ (import_frame_stable s)), import_frame_refl.
Qed.

End ImportFrame.

Section ImportAccount.
Variable E : Env.

(** The fields that say which nodes are members and which callbacks were
    made. *)
Definition same_members (s s' : State) : Prop :=
  apply_nodes s' = apply_nodes s ∧ calls s' = calls s ∧ _features s' = _features s
  ∧ imported_by s' = imported_by s ∧ node_inputs s' = node_inputs s.

Lemma same_members_trans s1 s2 s3 :
  same_members s1 s2 → same_members s2 s3 → same_members s1 s3.
Proof. unfold same_members. intros (?&?&?&?&?) (?&?&?&?&?). split_and!; congruence. Qed.

Lemma same_members_add_input v check s :
  same_members s (final (add_input v check s)).
Proof.
  unfold add_input, bind at 1, gets at 1.
  by destruct (check && bool_decide (v ∈ inputs s)).
Qed.

Lemma import_node_check_members import_missing node s s' :
  import_node_check E import_missing node s = Ret tt s' → same_members s s'.
Proof.
  unfold import_node_check. intros (ins & s0 & Hi & Hrun)%bind_Ret_inv.
  apply gets_Ret in Hi as [-> ->].
  eapply (for_each_Ret (same_members s)); [|done|exact Hrun].
  intros var s1 s2 _ Hs1 Hstep.
  apply bind_Ret_inv in Hstep as (m & s3 & Hm & Hstep). apply gets_Ret in Hm as [-> ->].
  destruct (is_missing_input E s1 var); [|by apply ret_Ret in Hstep as [_ ->]].
  destruct import_missing; [|done].
  eapply same_members_trans; [exact Hs1|].
  pose proof (same_members_add_input var true s1) as Ha. by rewrite Hstep in Ha.
Qed.

(** A node imported: it was not a member, it is one now, its tag has the
    reason, and [on_import] was called on every feature that has it. *)
Lemma import_new_node_Ret reason node s s' :
  import_new_node E reason node s = Ret tt s' →
  (node ∉ apply_nodes s)
  ∧ apply_nodes s' = apply_nodes s ∪ {[node]}
  ∧ calls s' = calls s ++ callbacks_of E (OnImport node reason) (_features s)
  ∧ imported_by s'
    = <[node := default [] (imported_by s !! node) ++ [str_reason reason]]> (imported_by s)
  ∧ _features s' = _features s
  ∧ node_inputs s' = node_inputs s.
Proof.
  intros Hrun. unfold import_new_node, setup_node in Hrun.
  apply bind_Ret_inv in Hrun as (ns & s0 & Hns & Hrun).
  apply gets_Ret in Hns as [-> ->].
  destruct (decide (node ∈ apply_nodes s)) as [|Hnode]; [done|].
  apply bind_Ret_inv in Hrun as (u0 & s0 & Hsetup & Hrun).
  assert (s0 = s) as ->.
  { destruct (bad_view_map E node); [done|].
    destruct (bad_destroy_map E node); [done|]. by apply ret_Ret in Hsetup as [_ ->]. }
  clear Hsetup.
  apply bind_Ret_inv in Hrun as (u1 & s1 & Hadd & Hrun).
  apply modify_Ret in Hadd as ->.
  apply bind_Ret_inv in Hrun as (u2 & s2 & Htag & Hrun).
  apply modify_Ret in Htag as ->.
  apply bind_Ret_inv in Hrun as (u3 & s3 & Houts & Hrun). destruct u3.
  apply bind_Ret_inv in Hrun as (ins & s4 & Hins & Hrun).
  apply gets_Ret in Hins as [-> ->].
  apply bind_Ret_inv in Hrun as (u5 & s5 & Hloop & Hrun).
  destruct u5. apply execute_callbacks_Ret in Hrun as ->.
  match type of Houts with for_each _ _ ?s2 = _ =>
    assert (same_members s2 s3) as H3 end.
  { eapply (for_each_Ret (same_members _)); [| |exact Houts]; [|done].
    intros o s6 s7 _ Hs6 Ho.
    apply bind_Ret_inv in Ho as (u6 & s8 & Hsv & Hva).
    apply modify_Ret in Hsv as ->. apply modify_Ret in Hva as ->. exact Hs6. }
  assert (same_members s3 s5) as H5.
  { eapply (for_each_Ret (same_members _)); [| |exact Hloop]; [|done].
    intros [i x] s6 s7 _ Hs6 Hstep. unfold add_client, get_clients in Hstep.
    apply bind_Ret_inv in Hstep as (vs & s0 & Hvs & Hstep).
    apply gets_Ret in Hvs as [-> ->].
    apply bind_Ret_inv in Hstep as (u & s8 & Hset & Hstep).
    assert (same_members s6 s8) as Hs8.
    { case_decide.
      - by apply ret_Ret in Hset as [_ ->].
      - apply bind_Ret_inv in Hset as (u7 & s9 & Hsv & Hva).
        apply modify_Ret in Hsv as ->. by apply modify_Ret in Hva as ->. }
    apply bind_Ret_inv in Hstep as (cs & s9 & Hcs & Hstep).
    apply bind_Ret_inv in Hcs as (c & s10 & Hc & Hcs). apply gets_Ret in Hc as [-> ->].
    destruct (clients s8 !! x); [|done]. apply ret_Ret in Hcs as [-> ->].
    apply modify_Ret in Hstep as ->.
    eapply same_members_trans; [exact Hs6|]. exact Hs8. }
  destruct (same_members_trans _ _ _ H3 H5) as (Ha & Hc & Hf & Hi & Hn).
  simpl in *. split_and!; try done.
  by rewrite Hc, Hf.
Qed.

(** The nodes imported by a run of the second loop of [import_node]. *)
Lemma import_new_nodes_Ret reason new_nodes s s' :
  for_each (import_new_node E reason) new_nodes s = Ret tt s' →
  NoDup new_nodes
  ∧ (∀ p, p ∈ new_nodes → p ∉ apply_nodes s)
  ∧ apply_nodes s' = apply_nodes s ∪ list_to_set new_nodes
  ∧ calls s' = calls s
      ++ concat ((λ p, callbacks_of E (OnImport p reason) (_features s)) <$> new_nodes)
  ∧ _features s' = _features s
  ∧ (∀ p, p ∈ new_nodes → ∃ t, imported_by s' !! p = Some (t ++ [str_reason reason])).
Proof.
  revert s. induction new_nodes as [|p l IH]; intros s; simpl.
  - intros [_ ->]%ret_Ret. split_and!; try done.
    + constructor.
    + by intros p ?%elem_of_nil.
    + set_solver.
    + by rewrite app_nil_r.
    + by intros p ?%elem_of_nil.
  - intros (u & s1 & Hp & Hrun)%bind_Ret_inv. destruct u.
    apply import_new_node_Ret in Hp as (Hnew & Ha1 & Hc1 & Hi1 & Hf1 & _).
    destruct (IH _ Hrun) as (Hnd & Hfresh & Ha & Hc & Hf & Hi).
    assert (p ∉ l) as Hpl.
    { intros Hin. apply (Hfresh p Hin). rewrite Ha1. set_solver. }
    split_and!.
    + by constructor.
    + intros q [->|Hq]%elem_of_cons; [done|].
      intros Hin. apply (Hfresh q Hq). rewrite Ha1. set_solver.
    + rewrite Ha, Ha1. set_solver.
    + rewrite Hc, Hc1, Hf1. by rewrite app_assoc.
    + congruence.
    + intros q [->|Hq]%elem_of_cons; [|by apply Hi].
      assert (∀ q l0 s0 s2, for_each (import_new_node E reason) l0 s0 = Ret tt s2 →
                q ∉ l0 → imported_by s2 !! q = imported_by s0 !! q) as Hkeep.
      { clear. intros q. induction l0 as [|p l0 IH]; intros s0 s2; simpl.
        - by intros [_ ->]%ret_Ret.
        - intros (u & s1 & Hp & Hrun)%bind_Ret_inv Hq. destruct u.
          apply not_elem_of_cons in Hq as [Hne Hq].
          rewrite (IH _ _ Hrun Hq).
          apply import_new_node_Ret in Hp as (_ & _ & _ & -> & _).
          by rewrite lookup_insert_ne. }
      rewrite (Hkeep _ _ _ _ Hrun Hpl), Hi1, lookup_insert_eq. by eexists.
Qed.

(** X10. What [import_node] imports, when it returns: the nodes
    [io_toposort] lists are pairwise distinct and none was a member,
    [apply_nodes] gains exactly these nodes, each has the reason appended
    to its [imported_by] tag, and [on_import] was called once per imported
    node on every feature that has the method, nodes in the order of the
    list and features in the order of the feature list; no other callback
    was made. *)
Theorem import_node_imports apply_node check reason import_missing s s' :
  import_node E apply_node check reason import_missing s = Ret tt s' →
  let new_nodes := io_toposort E (node_inputs s) (variables s) (node_outputs E apply_node) in
  NoDup new_nodes
  ∧ (∀ p, p ∈ new_nodes → p ∉ apply_nodes s)
  ∧ apply_nodes s' = apply_nodes s ∪ list_to_set new_nodes
  ∧ calls s' = calls s
      ++ concat ((λ p, callbacks_of E (OnImport p reason) (_features s)) <$> new_nodes)
  ∧ (∀ p, p ∈ new_nodes → ∃ t, imported_by s' !! p = Some (t ++ [str_reason reason])).
Proof.
  intros Hrun new_nodes. unfold import_node in Hrun.
  apply bind_Ret_inv in Hrun as (nodes & s0 & Hn & Hrun).
  apply gets_Ret in Hn as [-> ->]. fold new_nodes in Hrun.
  apply bind_Ret_inv in Hrun as (u & s1 & Hcheck & Hrun). destruct u.
  assert (same_members s s1) as (Ha & Hc & Hf & Hi & _).
  { destruct check; [|by apply ret_Ret in Hcheck as [_ ->]].
    eapply (for_each_Ret (same_members s)); [|done|exact Hcheck].
    intros node s2 s3 _ Hs2 Hstep. eapply same_members_trans; [exact Hs2|].
    by eapply import_node_check_members. }
  apply import_new_nodes_Ret in Hrun as (Hnd & Hfresh & Ha' & Hc' & Hf' & Hi').
  rewrite Ha in *. rewrite Hc, Hf in Hc'. done.
Qed.

End ImportAccount.

(** *** On the example graph *)

(** Removing the one use of [3] prunes its owner [10], then takes the
    edges of [10] out of the client lists of [1] and [2]. *)
Lemma remove_client_prunes_witness :
  removal_frame ex_graph (final (remove_client ex_env 3 (CNode 11, 0) None ex_graph))
  ∧ ∃ L, pruning ex_env None ex_graph
           (final (remove_client ex_env 3 (CNode 11, 0) None ex_graph)) L.
Proof.
  refine (remove_client_prunes ex_env 3 (CNode 11, 0) None ex_graph
            (final (remove_client ex_env 3 (CNode 11, 0) None ex_graph)) _).
  by vm_compute.
Defined.

Lemma import_node_imports_witness :
  apply_nodes (final (import_node ex_env 12 true None false ex_graph))
  = apply_nodes ex_graph
    ∪ list_to_set (io_toposort ex_env (node_inputs ex_graph) (variables ex_graph)
                     (node_outputs ex_env 12)).
Proof.
  refine (proj1 (proj2 (proj2
            (import_node_imports ex_env 12 true None false ex_graph
               (final (import_node ex_env 12 true None false ex_graph)) _)))).
  by vm_compute.
Defined.

(** ** What [change_input] and [replace] do to the slots and the listeners *)

#[global] Instance member_dec s c : Decision (member s c).
Proof. destruct c; simpl; apply _. Defined.

Section Redirect.
Variable E : Env.

Lemma import_var_frame v reason import_missing s :
  import_frame s (final (import_var E v reason import_missing s)).
Proof. apply (preserves_import_var E _ (import_frame_stable E s)), import_frame_refl. Qed.

Lemma remove_client_Ret v e reason s s' :
  remove_client E v e reason s = Ret tt s' →
  removal_frame s s' ∧ ∃ L, pruning E reason s s' L.
Proof.
  unfold remove_client.
  destruct (remove_client_loop E (removal_fuel s) [(v, e)] reason s) as [r|] eqn:Hl; [|done].
  intros ->. by eapply remove_client_loop_Ret.
Qed.

Lemma Forall_callbacks_of h fs :
  Forall (λ c : Feature * Hook, c.2 = h) (callbacks_of E h fs).
Proof.
  unfold callbacks_of. apply Forall_fmap, Forall_forall. by intros f _.
Qed.

(** A [change_input] that returned, in one piece: the slots are those of
    the write, and the callbacks are those of the import, then those of the
    pruning, then [on_change_input]. *)
Lemma change_input_run node i new_var reason import_missing s s' r :
  0 ≤ i → slot s node i = Some r → r ≠ new_var →
  change_input E node i new_var reason import_missing s = Ret tt s' →
  node_inputs s' = node_inputs (write_slot node i new_var s)
  ∧ outputs s' = outputs (write_slot node i new_var s)
  ∧ _features s' = _features s
  ∧ ∃ l_import l_prune,
      calls s' = calls s ++ l_import ++ l_prune
                 ++ callbacks_of E (OnChangeInput node i r new_var reason) (_features s)
      ∧ Forall (λ c, hook_name c.2 = on_import) l_import
      ∧ Forall (λ c, hook_name c.2 = on_prune) l_prune.
Proof.
  intros Hi Hr Hne Hrun.
  destruct (change_input_Ret E _ _ _ _ _ _ _ _ Hi Hr Hne Hrun)
    as (s2 & csn & s4 & Himp & Hcsn & Hrem & ->).
  pose proof (import_var_frame new_var reason import_missing (write_slot node i new_var s))
    as Hfr. rewrite Himp in Hfr. simpl in Hfr.
  destruct Hfr as (Hni & Hou & Hfe & _ & _ & _ & _ & _ & _ & (l1 & Hc1 & Hall1) & _).
  apply remove_client_Ret in Hrem as [Hfr4 (L & [_ _ _ Hc4 _])].
  destruct Hfr4 as (Hni4 & Hou4 & _ & Hfe4 & _).
  destruct (write_slot_fields node i new_var s) as (_ & _ & _ & Hcw & Hfw & _).
  simpl in *. split_and!; [congruence..|].
  exists l1, (concat ((λ p, callbacks_of E (OnPrune p reason) (_features s2)) <$> L)).
  split_and!.
  - rewrite Hc4, Hc1, Hcw, Hfe4, Hfe, Hfw. by rewrite <- !app_assoc.
  - done.
  - apply Forall_concat, Forall_fmap, Forall_forall. intros p _. simpl.
    eapply Forall_impl; [apply Forall_callbacks_of|]. by intros c ->.
Qed.

(** X11. The callbacks of [change_input]: a call on a position [i ≥ 0]
    holding [r ≠ new_var] that returns has made [on_import] calls, then
    [on_prune] calls, then one [on_change_input(node, i, r, new_var,
    reason)] call on every feature that has the method, in the order of the
    feature list, and nothing after; the feature list is as before. *)
Theorem change_input_callbacks node i new_var reason import_missing s s' r :
  0 ≤ i → slot s node i = Some r → r ≠ new_var →
  change_input E node i new_var reason import_missing s = Ret tt s' →
  _features s' = _features s
  ∧ ∃ l_import l_prune,
      calls s' = calls s ++ l_import ++ l_prune
                 ++ callbacks_of E (OnChangeInput node i r new_var reason) (_features s)
      ∧ Forall (λ c, hook_name c.2 = on_import) l_import
      ∧ Forall (λ c, hook_name c.2 = on_prune) l_prune.
Proof.
  intros Hi Hr Hne Hrun.
  by destruct (change_input_run _ _ _ _ _ _ _ _ Hi Hr Hne Hrun) as (_ & _ & ? & ?).
Qed.

Lemma change_input_slots node i new_var reason import_missing s s' r c j :
  0 ≤ i → slot s node i = Some r → 0 ≤ j →
  change_input E node i new_var reason import_missing s = Ret tt s' →
  slot s' c j = if decide ((c, j) = (node, i)) then Some new_var else slot s c j.
Proof.
  intros Hi Hr Hj Hrun.
  rewrite <- (slot_write_slot s node i new_var r c j Hi Hr Hj).
  destruct (decide (r = new_var)) as [->|Hne].
  - rewrite (change_input_same E _ _ _ _ reason import_missing Hr) in Hrun.
    injection Hrun as <-.
    rewrite (slot_write_slot s node i new_var new_var c j Hi Hr Hj).
    case_decide as Heq; [|done]. by injection Heq as -> ->.
  - destruct (change_input_run _ _ _ _ _ _ _ _ Hi Hr Hne Hrun) as (Hni & Hou & _).
    destruct c; simpl; unfold inputs_of; by rewrite ?Hni, ?Hou.
Qed.

(** The loop of [replace]: every position of the list holds [new_var]
    at the end, and every other position what it held. *)
Lemma replace_loop_slots var new_var reason import_missing (rem : list (Client * Z)) s s' :
  (∀ c i, (c, i) ∈ rem → 0 ≤ i) →
  for_each (λ '(node, i),
    let* _ := assert_client node i var in
    change_input E node i new_var reason import_missing) rem s = Ret tt s' →
  ∀ c j, 0 ≤ j →
    slot s' c j = if decide ((c, j) ∈ rem) then Some new_var else slot s c j.
Proof.
  revert s. induction rem as [|[node i] rem IH]; intros s Hpos Hrun c j Hj; simpl in Hrun.
  { apply ret_Ret in Hrun as [_ ->]. rewrite decide_False; [done|]. apply not_elem_of_nil. }
  apply bind_Ret_inv in Hrun as (u & s1 & Hturn & Hrun). destruct u.
  apply bind_Ret_inv in Hturn as (u & s0 & Hassert & Hturn).
  apply assert_client_Ret in Hassert as [-> Hslot].
  assert (0 ≤ i) as Hi by (apply (Hpos node); left).
  rewrite (IH s1 (λ c i H, Hpos c i (list_elem_of_further _ _ _ H)) Hrun c j Hj).
  rewrite (change_input_slots _ _ _ _ _ _ _ _ c j Hi Hslot Hj Hturn).
  repeat case_decide; try done.
  - exfalso. set_solver.
  - exfalso. set_solver.
  - exfalso. set_solver.
Qed.

(** X12. [replace] redirects every use: when [replace(var, new_var)]
    returns on a consistent graph, with [new_var'] the variable the type of
    [var] made of [new_var], then for a member variable [var] every input
    position of a member node and every position of [outputs] that held
    [var] holds [new_var'], and every other position holds what it held;
    for a [var] that is not a member no position has changed. *)
Theorem replace_redirects var new_var reason verbose import_missing s s' :
  consistent s →
  replace E var new_var reason verbose import_missing s = Ret tt s' →
  ∃ new_var', filter_variable E (var_type E var) new_var = inr new_var'
    ∧ ∀ c j, 0 ≤ j →
        slot s' c j
        = if decide (var ∈ variables s ∧ member s c ∧ slot s c j = Some var)
          then Some new_var' else slot s c j.
Proof.
  intros [[Hnd Hs] Hc] Hrun.
  apply replace_Ret in Hrun as (new_var' & Hf & [[Hv ->]|(Hv & cs & Hcs & Hloop)]);
    exists new_var'; (split; [done|]); intros c j Hj.
  - rewrite decide_False by tauto.
    unfold printed. by destruct (default (optimizer_verbose E) verbose), c.
  - rewrite (replace_loop_slots _ _ _ _ _ _ _ (λ c i H, proj1 (Hs var cs c i Hcs H))
               Hloop c j Hj).
    assert (slot (printed E var new_var reason verbose s) c j = slot s c j) as ->.
    { unfold printed. by destruct (default (optimizer_verbose E) verbose), c. }
    destruct (decide ((c, j) ∈ cs)) as [Hin|Hout].
    + destruct (Hs var cs c j Hcs Hin) as (_ & Hsl & Hm). by rewrite decide_True.
    + rewrite decide_False; [done|]. intros (_ & Hm & Hsl). apply Hout.
      destruct (Hc var c j Hj Hsl Hm) as (cs' & Hcs' & Hin). congruence.
Qed.

End Redirect.

(** *** On the example graph *)

Lemma change_input_callbacks_witness :
  _features (final (change_input ex_env (CNode 11) 0 2 None false ex_graph))
  = _features ex_graph.
Proof.
  refine (proj1 (change_input_callbacks ex_env (CNode 11) 0 2 None false ex_graph
                   (final (change_input ex_env (CNode 11) 0 2 None false ex_graph)) 3
                   _ _ _ _)).
  - done.
  - by vm_compute.
  - discriminate.
  - by vm_compute.
Defined.

Lemma replace_redirects_witness :
  ∃ new_var', filter_variable ex_env (var_type ex_env 3) 2 = inr new_var'
    ∧ ∀ c j, 0 ≤ j →
        slot (final (replace ex_env 3 2 None None false ex_graph)) c j
        = if decide ((3%positive) ∈ variables ex_graph ∧ member ex_graph c
                     ∧ slot ex_graph c j = Some 3%positive)
          then Some new_var' else slot ex_graph c j.
Proof.
  refine (replace_redirects ex_env 3 2 None None false ex_graph
            (final (replace ex_env 3 2 None None false ex_graph)) _ _).
  - exact ex_graph_consistent.
  - by vm_compute.
Defined.

(** ** The feature list *)

(** The feature list has no feature twice, and every feature of the list
    has an entry in [execute_callbacks_times]. *)
Definition features_ok (s : State) : Prop :=
  NoDup (_features s) ∧ ∀ f, f ∈ _features s → f ∈ execute_callbacks_times s.

(** [P] looks at the feature list and at [execute_callbacks_times] only. *)
Definition features_only (P : State → Prop) : Prop :=
  ∀ s s', _features s = _features s' →
    execute_callbacks_times s = execute_callbacks_times s' → P s → P s'.

Section FeatureProps.
Variable E : Env.
Context (P : State → Prop) (Hfo : features_only P).

Ltac fmodify :=
  apply preserves_modify; let s := fresh "s" in let Hs := fresh "Hs" in
  intros s Hs; by apply (Hfo s).

Ltac fsteps :=
  repeat first
    [ pstep | fmodify
    | apply preserves_execute_callbacks;
      let s := fresh "s" in intros s ? ? ?; by apply (Hfo s) ].

Lemma features_only_stable : import_stable E P.
Proof.
  split; try (intros; by eapply Hfo; [| |eassumption]).
  intros s v Hs Hm.
  rewrite add_input_true_Ret by (by eapply is_missing_input_not_in).
  by apply (Hfo s).
Qed.

Lemma features_only_add_client v e : preserves P (add_client v e).
Proof. unfold add_client, get_clients. fsteps. Qed.

Lemma features_only_add_input v check : preserves P (add_input v check).
Proof. unfold add_input, setup_var, variables_add. fsteps. Qed.

Lemma features_only_remove_unused v reason : preserves P (remove_unused E v reason).
Proof. unfold remove_unused. fsteps. Qed.

Lemma features_only_remove_client_step v e reason :
  preserves P (remove_client_step E v e reason).
Proof.
  unfold remove_client_step, get_clients. fsteps; apply features_only_remove_unused.
Qed.

Lemma features_only_remove_client_loop fuel stack reason s r :
  P s → remove_client_loop E fuel stack reason s = Some r → P (final r).
Proof.
  revert stack s. induction fuel as [|fuel IH]; intros [|[v e] rest] s Hs; simpl;
    try (by intros [= <-]); try done.
  pose proof (features_only_remove_client_step v e reason s Hs) as Hstep.
  destruct (remove_client_step E v e reason s) as [pushed s'|x s']; simpl in Hstep.
  - by apply IH.
  - by intros [= <-].
Qed.

Lemma features_only_remove_client v e reason : preserves P (remove_client E v e reason).
Proof.
  intros s Hs. unfold remove_client.
  destruct (remove_client_loop E (removal_fuel s) [(v, e)] reason s) as [r|] eqn:Hr;
    [|done].
  by eapply features_only_remove_client_loop.
Qed.

Lemma features_only_change_input node i new_var reason import_missing :
  preserves P (change_input E node i new_var reason import_missing).
Proof.
  unfold change_input. pstep.
  { unfold change_slot. destruct node; fsteps. }
  case_decide; [apply preserves_ret|].
  pstep; [apply preserves_import_var, features_only_stable|].
  pstep; [apply features_only_add_client|].
  pstep; [apply features_only_remove_client|].
  apply preserves_execute_callbacks. intros s ? ? ?. by apply (Hfo s).
Qed.

Lemma features_only_replace var new_var reason verbose import_missing :
  preserves P (replace E var new_var reason verbose import_missing).
Proof.
  unfold replace, check_test_values, get_clients. fsteps.
  all: try (intros s0 Hs0; by rewrite assert_client_final).
  all: apply features_only_change_input.
Qed.

End FeatureProps.

Section FeatureList.
Variable E : Env.

Lemma features_ok_only : features_only features_ok.
Proof. intros s s' Hf Ht. unfold features_ok. by rewrite Hf, Ht. Qed.

Lemma features_ok_attach f : preserves features_ok (attach_feature E f).
Proof.
  unfold attach_feature. apply preserves_gets_bind. intros s Hs.
  case_decide as Hin; [done|].
  assert (∀ s', _features s' = _features s →
            execute_callbacks_times s' = execute_callbacks_times s →
            features_ok (final ((let* _ := modify (set_times (λ t, t ∪ {[f]})) in
              modify (set_features (λ l, l ++ [f]))) s'))) as Hatt.
  { intros s' Hf Ht. destruct Hs as [Hnd Hk]. split; simpl; rewrite Hf, ?Ht.
    - apply NoDup_app. split_and!; [done| |apply NoDup_singleton].
      intros x Hx ->%list_elem_of_singleton. done.
    - intros g [Hg| ->%list_elem_of_singleton]%elem_of_app; [|set_solver].
      apply elem_of_union. left. by apply Hk. }
  destruct (has_method E f on_attach); [|by apply Hatt].
  pose proof (call_feature_final E f OnAttach s) as Hc.
  destruct (call_feature E f OnAttach s) as [u s'|x s']; simpl in Hc; subst.
  - by apply Hatt.
  - destruct x; by apply (features_ok_only s).
Qed.

Lemma features_ok_remove f : preserves features_ok (remove_feature E f).
Proof.
  unfold remove_feature. apply preserves_gets_bind. intros s [Hnd Hk].
  destruct (list_remove f (_features s)) as [fs'|] eqn:Hr; [|done].
  assert (features_ok (set_features (λ _, fs') s)) as Hs'.
  { split; simpl.
    - by apply (list_remove_NoDup _ _ _ Hr).
    - intros g Hg. apply Hk. apply (list_remove_elem_of _ g _ _ Hr). by right. }
  unfold bind at 1, modify at 1.
  destruct (has_method E f on_detach); [|done].
  rewrite call_feature_final. by apply (features_ok_only (set_features (λ _, fs') s)).
Qed.

Lemma features_ok_init_features outs features s :
  features_ok (final (init_features E outs features s)).
Proof.
  unfold init_features. apply preserves_bind_at.
  - split; simpl; [constructor|by intros f ?%elem_of_nil].
  - intros _. pstep; [pstep|]; apply features_ok_attach.
Qed.

Lemma features_ok_init_graph ins outs features s :
  features_ok (final (init_graph E ins outs features s)).
Proof.
  pose proof features_ok_only as Hfo.
  unfold init_graph. apply preserves_bind_at; [apply features_ok_init_features|].
  intros _. pstep; [apply preserves_modify; intros s0 Hs0; by apply (Hfo s0)|].
  pstep.
  { pstep. destruct (var_owner E x); [apply preserves_raise|].
    by apply features_only_add_input. }
  pstep.
  { pstep. by apply (preserves_import_var E _ (features_only_stable E _ Hfo)). }
  apply preserves_for_each. intros [i o] _. by apply features_only_add_client.
Qed.

Lemma features_ok_init ins outs features clone s0 s :
  __init__ E ins outs features clone s0 = Ret tt s → features_ok s.
Proof.
  intros Hrun. unfold __init__ in Hrun. destruct outs as [outs|]; [|done].
  apply bind_Ret_inv in Hrun as (h & s1 & Hh & Hrun).
  apply bind_Ret_inv in Hrun as ([ins' outs'] & s2 & _ & Hrun).
  pose proof (features_ok_init_graph ins' outs' (default [] features) s2) as Hok.
  by rewrite Hrun in Hok.
Qed.

(** X13. The feature list is kept in order: in the graph a call of the
    constructor that returns leaves, and after any call of
    [attach_feature], [remove_feature], [import_var], [import_node],
    [change_input], [replace] or [remove_client] on a graph where it held,
    however that call ends, no feature is twice in the feature list and
    every feature of the list has an entry in [execute_callbacks_times]. *)
Theorem features_ok_invariant ins outs features clone s0 s :
  __init__ E ins outs features clone s0 = Ret tt s →
  features_ok s
  ∧ (∀ s, features_ok s →
     (∀ f, features_ok (final (attach_feature E f s)))
     ∧ (∀ f, features_ok (final (remove_feature E f s)))
     ∧ (∀ v reason import_missing,
        features_ok (final (import_var E v reason import_missing s)))
     ∧ (∀ n check reason import_missing,
        features_ok (final (import_node E n check reason import_missing s)))
     ∧ (∀ node i new_var reason import_missing,
        features_ok (final (change_input E node i new_var reason import_missing s)))
     ∧ (∀ var new_var reason verbose import_missing,
        features_ok (final (replace E var new_var reason verbose import_missing s)))
     ∧ (∀ v e reason, features_ok (final (remove_client E v e reason s)))).
Proof.
  pose proof features_ok_only as Hfo. intros Hrun. split.
  - by eapply features_ok_init.
  - clear s Hrun. intros s Hs. split_and!; intros.
    + by apply features_ok_attach.
    + by apply features_ok_remove.
    + by apply (preserves_import_var E _ (features_only_stable E _ Hfo)).
    + by apply (preserves_import_node E _ (features_only_stable E _ Hfo)).
    + by apply (features_only_change_input E _ Hfo).
    + by apply (features_only_replace E _ Hfo).
    + by apply (features_only_remove_client E _ Hfo).
Qed.

End FeatureList.

Section CallbackOutcome.
Variable E : Env.

Lemma callbacks_of_app h fs1 fs2 :
  callbacks_of E h (fs1 ++ fs2) = callbacks_of E h fs1 ++ callbacks_of E h fs2.
Proof. unfold callbacks_of. by rewrite filter_app, fmap_app. Qed.

Lemma callbacks_of_one h f :
  callbacks_of E h [f] = if has_method E f (hook_name h) then [(f, h)] else [].
Proof.
  unfold callbacks_of. rewrite filter_cons, filter_nil.
  destruct (has_method E f (hook_name h)); by case_decide.
Qed.

(** How the loop of [execute_callbacks] ends on a list of features that
    all have an entry in [execute_callbacks_times]. *)
Lemma execute_callbacks_loop_outcome h fs s :
  (∀ f, f ∈ fs → f ∈ execute_callbacks_times s) →
  match for_each (execute_callback E h) fs s with
  | Ret _ s' => s' = set_calls (λ c, c ++ callbacks_of E h fs) s
  | Exn e s' =>
      ∃ pre f post, fs = pre ++ f :: post
        ∧ has_method E f (hook_name h) = true
        ∧ call_method E f h (set_calls (λ c, c ++ callbacks_of E h pre) s) = Some e
        ∧ s' = set_calls (λ c, c ++ callbacks_of E h pre ++ [(f, h)]) s
  end.
Proof.
  revert s. induction fs as [|f fs IH]; intros s Hk; simpl.
  { by rewrite set_calls_nil. }
  unfold bind at 1, execute_callback at 1.
  destruct (has_method E f (hook_name h)) eqn:Hm.
  - unfold bind at 1, call_feature at 1.
    destruct (call_method E f h s) as [e|] eqn:Hc.
    + exists [], f, fs. split_and!; try done. by rewrite set_calls_nil.
    + unfold bind at 1, gets at 1. rewrite decide_True by (apply Hk; left). simpl.
      specialize (IH (set_calls (λ c, c ++ [(f, h)]) s)
                    (λ g Hg, Hk g (list_elem_of_further _ _ _ Hg))).
      destruct (for_each _ fs _) as [u s'|e s'].
      * subst s'. rewrite set_calls_app, (callbacks_of_cons E h f fs).
        by rewrite callbacks_of_one, Hm.
      * destruct IH as (pre & g & post & -> & Hg & Hcg & ->).
        exists (f :: pre), g, post. rewrite !set_calls_app in *.
        rewrite (callbacks_of_cons E h f pre), callbacks_of_one, Hm.
        by split_and!.
  - simpl. specialize (IH s (λ g Hg, Hk g (list_elem_of_further _ _ _ Hg))).
    destruct (for_each _ fs _) as [u s'|e s'].
    + subst s'. by rewrite (callbacks_of_cons E h f fs), callbacks_of_one, Hm.
    + destruct IH as (pre & g & post & -> & Hg & Hcg & ->).
      exists (f :: pre), g, post.
      rewrite (callbacks_of_cons E h f pre), callbacks_of_one, Hm. by split_and!.
Qed.

(** X14. How [execute_callbacks] ends on a graph whose features all have
    an entry in [execute_callbacks_times]: it returns after one call of the
    method on every feature that has it, in the order of the feature list,
    or it raises what the first raising listener raised, with the features
    before it called, that listener called, and no feature after it called.
    It raises nothing of its own: no [KeyError] for a missing entry. *)
Theorem execute_callbacks_outcome h s :
  features_ok s →
  match execute_callbacks E h s with
  | Ret _ s' => s' = set_calls (λ c, c ++ callbacks_of E h (_features s)) s
  | Exn e s' =>
      ∃ pre f post, _features s = pre ++ f :: post
        ∧ has_method E f (hook_name h) = true
        ∧ call_method E f h (set_calls (λ c, c ++ callbacks_of E h pre) s) = Some e
        ∧ s' = set_calls (λ c, c ++ callbacks_of E h pre ++ [(f, h)]) s
  end.
Proof.
  intros [_ Hk]. unfold execute_callbacks, bind, gets.
  by apply execute_callbacks_loop_outcome.
Qed.

Lemma list_remove_app_fresh {A} `{EqDecision A} (x : A) l :
  x ∉ l → list_remove x (l ++ [x]) = Some l.
Proof.
  induction l as [|y l IH]; intros Hx; simpl.
  - by rewrite decide_True.
  - apply not_elem_of_cons in Hx as [Hne Hx].
    rewrite decide_False by done. by rewrite (IH Hx).
Qed.

Lemma remove_feature_fields f s :
  _features (final (remove_feature E f s))
  = default (_features s) (list_remove f (_features s))
  ∧ execute_callbacks_times (final (remove_feature E f s)) = execute_callbacks_times s.
Proof.
  unfold remove_feature, bind, gets, modify.
  destruct (list_remove f (_features s)) as [fs'|]; [|done]. simpl.
  destruct (has_method E f on_detach); [|done]. by rewrite call_feature_final.
Qed.

Lemma attach_feature_fields f s :
  f ∉ _features s →
  (_features (final (attach_feature E f s)) = _features s
   ∧ execute_callbacks_times (final (attach_feature E f s)) = execute_callbacks_times s)
  ∨ (_features (final (attach_feature E f s)) = _features s ++ [f]
     ∧ execute_callbacks_times (final (attach_feature E f s))
       = execute_callbacks_times s ∪ {[f]}).
Proof.
  intros Hf. unfold attach_feature, bind, gets. rewrite decide_False by done.
  destruct (has_method E f on_attach); [|by right].
  unfold call_feature. destruct (call_method E f OnAttach s) as [e|]; [|by right].
  left. by destruct e.
Qed.

(** X15. Attaching and then removing a feature that was not attached
    gives the feature list back: whatever [on_attach] and [on_detach] do
    (return, raise [AlreadyThere], raise anything else), the feature list
    after [attach_feature(f)] followed by [remove_feature(f)] is the list
    before, and [execute_callbacks_times] has the entries it had, and one
    for [f] when [f] was attached: [remove_feature] leaves that entry. *)
Theorem attach_remove_round_trip f s :
  f ∉ _features s →
  let s1 := final (attach_feature E f s) in
  let s2 := final (remove_feature E f s1) in
  _features s2 = _features s
  ∧ execute_callbacks_times s2 = execute_callbacks_times s1
  ∧ (f ∈ _features s1 → f ∈ execute_callbacks_times s2).
Proof.
  intros Hf s1 s2. subst s2.
  destruct (remove_feature_fields f s1) as [-> ->]. subst s1.
  destruct (attach_feature_fields f s Hf) as [[-> ->]|[-> ->]].
  - rewrite (proj2 (list_remove_None f (_features s)) Hf). by split_and!.
  - rewrite (list_remove_app_fresh f _ Hf). split_and!; [done..|]. set_solver.
Qed.

End CallbackOutcome.

(** *** On the example graph *)

Lemma ex_graph_features_ok : features_ok ex_graph.
Proof. eapply features_ok_init. apply ex_graph_init. Qed.

Lemma features_ok_invariant_witness : features_ok ex_graph.
Proof.
  refine (proj1 (features_ok_invariant ex_env (Some [1; 2]) (Some [4]) (Some [1]) false
                   ex_world ex_graph _))%positive.
  apply ex_graph_init.
Defined.

Lemma execute_callbacks_outcome_witness :
  match execute_callbacks ex_env (OnPrune 10 None) ex_graph with
  | Ret _ s1 =>
      s1 = set_calls (λ c, c ++ callbacks_of ex_env (OnPrune 10 None) (_features ex_graph))
             ex_graph
  | Exn e s1 =>
      ∃ pre f post, _features ex_graph = pre ++ f :: post
        ∧ has_method ex_env f (hook_name (OnPrune 10 None)) = true
        ∧ call_method ex_env f (OnPrune 10 None)
            (set_calls (λ c, c ++ callbacks_of ex_env (OnPrune 10 None) pre) ex_graph)
          = Some e
        ∧ s1 = set_calls (λ c, c ++ callbacks_of ex_env (OnPrune 10 None) pre
                                 ++ [(f, OnPrune 10 None)]) ex_graph
  end.
Proof.
  refine (execute_callbacks_outcome ex_env (OnPrune 10 None) ex_graph _).
  exact ex_graph_features_ok.
Defined.

Lemma attach_remove_round_trip_witness :
  let s1 := final (attach_feature ex_env 5 ex_graph) in
  let s2 := final (remove_feature ex_env 5 s1) in
  _features s2 = _features ex_graph
  ∧ execute_callbacks_times s2 = execute_callbacks_times s1
  ∧ ((5%positive) ∈ _features s1 → (5%positive) ∈ execute_callbacks_times s2).
Proof.
  refine (attach_remove_round_trip ex_env 5 ex_graph _).
  apply (bool_decide_unpack _). by vm_compute.
Defined.

(** ** The loop of [disown]

    [disown] starts with [for f in self._features: self.remove_feature(f)].
    The iterator of a Python list keeps an index into the list object and
    stops when the index reaches the length the list has then;
    [remove_feature] takes [f] out of that very list while the loop runs.
    The assignments that follow the loop ([clients], [apply_nodes],
    [variables], [inputs], [outputs], ...) are not part of this model. *)

Section Disown.
Variable E : Env.

(** The loop at index [i]. [None]: the fuel ran out before the index
    reached the end of the list. *)
Fixpoint disown_loop (fuel : nat) (i : nat) (s : State) : option (Res unit) :=
  match _features s !! i with
  | None => Some (Ret tt s)
  | Some f =>
      match fuel with
      | O => None
      | S fuel' =>
          match remove_feature E f s with
          | Ret _ s' => disown_loop fuel' (S i) s'
          | Exn e s' => Some (Exn e s')
          end
      end
  end.

(** Every turn shortens the list by one, so its length bounds the number
    of turns. *)
Definition disown_features : M unit :=
  λ s, match disown_loop (length (_features s)) 0 s with
       | Some r => r
       | None => Exn IndexError s
       end.

End Disown.

(** The elements at positions 0, 2, 4, ... and at positions 1, 3, 5, ... *)
Fixpoint even_positions {A} (l : list A) : list A :=
  match l with
  | [] => []
  | x :: l' => x :: match l' with
                    | [] => []
                    | _ :: l'' => even_positions l''
                    end
  end.

Definition odd_positions {A} (l : list A) : list A :=
  match l with
  | [] => []
  | _ :: l' => even_positions l'
  end.

Lemma list_remove_middle {A} `{EqDecision A} (x : A) l1 l2 :
  x ∉ l1 → list_remove x (l1 ++ x :: l2) = Some (l1 ++ l2).
Proof.
  induction l1 as [|y l1 IH]; intros Hx; simpl.
  - by rewrite decide_True.
  - apply not_elem_of_cons in Hx as [Hne Hx].
    rewrite decide_False by done. by rewrite (IH Hx).
Qed.

Lemma set_features_id s : set_features (λ _, _features s) s = s.
Proof. by destruct s. Qed.

Section DisownProps.
Variable E : Env.

Lemma disown_loop_skips fuel kept rest s :
  _features s = kept ++ rest → NoDup (kept ++ rest) →
  (length rest ≤ fuel)%nat →
  (∀ f st, f ∈ rest → has_method E f on_detach = true →
     call_method E f OnDetach st = None) →
  disown_loop E fuel (length kept) s
  = Some (Ret tt (set_calls (λ c, c ++ callbacks_of E OnDetach (even_positions rest))
                    (set_features (λ _, kept ++ odd_positions rest) s))).
Proof.
  revert kept rest s. induction fuel as [|fuel IH]; intros kept rest s Hfs Hnd Hlen Hcall.
  - destruct rest; [|simpl in Hlen; lia].
    rewrite app_nil_r in Hfs. simpl.
    rewrite Hfs, lookup_ge_None_2 by done. simpl.
    rewrite app_nil_r, <- Hfs, set_features_id.
    unfold callbacks_of. simpl. by rewrite set_calls_nil.
  - destruct rest as [|x rest].
    { rewrite app_nil_r in Hfs. destruct (S fuel) eqn:Hfuel; [done|]. simpl.
      rewrite Hfs, lookup_ge_None_2 by done. simpl.
      rewrite app_nil_r, <- Hfs, set_features_id.
      unfold callbacks_of. simpl. by rewrite set_calls_nil. }
    simpl. rewrite Hfs, list_lookup_middle by done.
    assert (x ∉ kept) as Hx.
    { apply NoDup_app in Hnd as (_ & Hdis & _). intros Hin. apply (Hdis x Hin). left. }
    unfold remove_feature, bind at 1, gets at 1.
    rewrite Hfs, (list_remove_middle x kept rest Hx).
    unfold bind at 1, modify at 1.
    assert (NoDup (kept ++ rest)) as Hnd'.
    { apply NoDup_app in Hnd as (H1 & H2 & H3). apply NoDup_cons in H3 as [_ H3].
      apply NoDup_app. split_and!; [done| |done].
      intros y Hy Hin. apply (H2 y Hy). by right. }
    assert (∀ s1, _features s1 = kept ++ rest →
      disown_loop E fuel (S (length kept)) s1
      = Some (Ret tt (set_calls (λ c, c ++ callbacks_of E OnDetach
                                     (match rest with [] => [] | _ :: r => even_positions r end))
                        (set_features (λ _, kept ++ even_positions rest) s1)))) as Hnext.
    { intros s1 Hs1. destruct rest as [|y rest].
      - destruct fuel; simpl; rewrite Hs1, lookup_ge_None_2 by (rewrite length_app; simpl; lia);
          rewrite <- Hs1, set_features_id; unfold callbacks_of; simpl;
          by rewrite set_calls_nil.
      - replace (S (length kept)) with (length (kept ++ [y]))
          by (rewrite length_app; simpl; lia).
        rewrite (IH (kept ++ [y]) rest s1).
        + simpl. by rewrite <- !app_assoc.
        + by rewrite <- app_assoc.
        + by rewrite <- app_assoc.
        + simpl in Hlen. lia.
        + intros f st Hf. apply Hcall. by do 2 right. }
    destruct (has_method E x on_detach) eqn:Hm.
    + unfold call_feature. rewrite (Hcall x _ ltac:(left) Hm).
      rewrite Hnext by done. do 2 f_equal.
      rewrite (callbacks_of_cons E OnDetach x), callbacks_of_one. simpl. rewrite Hm.
      destruct s. unfold set_calls, set_features. simpl. f_equal.
      by rewrite <- app_assoc.
    + unfold ret. rewrite Hnext by done. do 2 f_equal.
      rewrite (callbacks_of_cons E OnDetach x), callbacks_of_one. simpl. rewrite Hm.
      by destruct s.
Qed.

(** X16. The loop of [disown] detaches every second feature only: on a
    feature list without duplicates whose [on_detach] methods all return,
    the loop returns after calling [remove_feature] on the features at
    positions 0, 2, 4, ... of the list, in that order (so [on_detach] is
    called on those that have it); the features at positions 1, 3, 5, ...
    are still in the feature list and their [on_detach] was not called. *)
Theorem disown_skips_features s :
  NoDup (_features s) →
  (∀ f st, f ∈ _features s → has_method E f on_detach = true →
     call_method E f OnDetach st = None) →
  disown_features E s
  = Ret tt (set_calls (λ c, c ++ callbacks_of E OnDetach (even_positions (_features s)))
              (set_features (λ _, odd_positions (_features s)) s)).
Proof.
  intros Hnd Hcall. unfold disown_features.
  pose proof (disown_loop_skips (length (_features s)) [] (_features s) s
                eq_refl Hnd (le_n _) Hcall) as Hloop.
  simpl in Hloop. by rewrite Hloop.
Qed.

End DisownProps.

(** On the example graph, whose features are [1] and the [ReplaceValidate]
    instance [100]: the loop detaches [1] and leaves [100] attached. *)
Lemma disown_skips_features_witness :
  disown_features ex_env ex_graph
  = Ret tt (set_calls (λ c, c ++ callbacks_of ex_env OnDetach
                                   (even_positions (_features ex_graph)))
              (set_features (λ _, odd_positions (_features ex_graph)) ex_graph)).
Proof.
  refine (disown_skips_features ex_env ex_graph _ _).
  - exact (proj1 ex_graph_features_ok).
  - intros f st _ _. reflexivity.
Defined.

(** ** [check_integrity]

    [applys_between] and [vars_between] of [aesara.graph.basic] are not
    among the sources; they are parameters here, functions of the nodes'
    current inputs and of [inputs] and [outputs]. A Python set is iterated
    in an order the language does not fix; the model takes the order of
    [elements]. Which exception ends a failing check may depend on that
    order; whether the check fails does not. *)

Section CheckIntegrity.
Variable E : Env.
Variable applys_between : gmap Apply (list Var) → list Var → list Var → list Apply.
Variable vars_between : gmap Apply (list Var) → list Var → list Var → list Var.

(** The body of the innermost loop, for the entry [(node, i)] of
    [clients[variable]]. *)
Definition check_client (nodes : gset Apply) (variable : Var) (e : Edge) : M unit :=
  match e.1 with
  | COutput =>
      let* outs := gets outputs in
      match py_getitem outs e.2 with
      | None => raise IndexError
      | Some o => if decide (o = variable) then ret tt else raise Exception
      end
  | CNode n =>
      if decide (n ∈ nodes) then
        let* ins := gets (λ s, inputs_of s n) in
        match py_getitem ins e.2 with
        | None => raise IndexError
        | Some o => if decide (o = variable) then ret tt else raise Exception
        end
      else raise Exception
  end.

Definition check_integrity : M unit :=
  let* nodes := gets (λ s,
    list_to_set (applys_between (node_inputs s) (inputs s) (outputs s)) : gset Apply) in
  let* ns := gets apply_nodes in
  if decide (ns = nodes) then
    let* _ := for_each (λ node,
                let* ins := gets (λ s, inputs_of s node) in
                for_each (λ '(i, variable),
                  let* cl := get_clients variable in
                  if decide ((CNode node, i) ∈ cl) then ret tt else raise Exception)
                  (enumerate ins))
                (elements nodes) in
    let* variables' := gets (λ s,
      list_to_set (vars_between (node_inputs s) (inputs s) (outputs s)) : gset Var) in
    let* vs := gets variables in
    if decide (vs = variables') then
      for_each (λ variable,
        let* missing := gets (λ s, is_missing_input E s variable) in
        if missing then raise Exception
        else
          let* cl := get_clients variable in
          for_each (check_client nodes variable) cl)
        (elements variables')
    else raise Exception
  else raise Exception.

(** What [check_integrity] checks. *)
Definition integrity (s : State) : Prop :=
  apply_nodes s = list_to_set (applys_between (node_inputs s) (inputs s) (outputs s))
  ∧ (∀ n i v, n ∈ apply_nodes s → inputs_of s n !! i = Some v →
       ∃ cl, clients s !! v = Some cl ∧ (CNode n, Z.of_nat i) ∈ cl)
  ∧ variables s = list_to_set (vars_between (node_inputs s) (inputs s) (outputs s))
  ∧ (∀ v, v ∈ variables s →
       is_missing_input E s v = false
       ∧ ∃ cl, clients s !! v = Some cl
           ∧ ∀ c i, (c, i) ∈ cl → slot s c i = Some v ∧ member s c).

End CheckIntegrity.

(** A check: a computation that returns with the state as it was when [P]
    holds, and raises with the state as it was when [P] does not. *)
Definition checks (m : M unit) (s : State) (P : Prop) : Prop :=
  (m s = Ret tt s ∧ P) ∨ ((∃ e, m s = Exn e s) ∧ ¬ P).

Lemma checks_ret s : checks (ret tt) s True.
Proof. by left. Qed.

Lemma checks_raise e s : checks (raise e) s False.
Proof. right. split; [by exists e|tauto]. Qed.

Lemma checks_iff m s P Q : checks m s P → (P ↔ Q) → checks m s Q.
Proof. intros [[? ?]|[? ?]] HPQ; [left|right]; split; tauto. Qed.

Lemma checks_seq m1 m2 s P Q :
  checks m1 s P → (P → checks m2 s Q) → checks (let* _ := m1 in m2) s (P ∧ Q).
Proof.
  intros [[H1 HP]|[[e H1] HP]] H2; unfold checks, bind; rewrite H1.
  - destruct (H2 HP) as [[? ?]|[? ?]]; [left|right]; split; tauto.
  - right. split; [by exists e|tauto].
Qed.

Lemma checks_gets {A} (f : State → A) (k : A → M unit) s P :
  checks (k (f s)) s P → checks (let* x := gets f in k x) s P.
Proof. done. Qed.

Lemma checks_decide (P : Prop) `{Decision P} e s :
  checks (if decide P then ret tt else raise e) s P.
Proof.
  case_decide; [by left|]. right. split; [by exists e|done].
Qed.

Lemma checks_get_clients (k : list (Client * Z) → M unit) v s (Q : list (Client * Z) → Prop) :
  (∀ cl, clients s !! v = Some cl → checks (k cl) s (Q cl)) →
  checks (let* cl := get_clients v in k cl) s
    (∃ cl, clients s !! v = Some cl ∧ Q cl).
Proof.
  intros Hk. unfold checks, get_clients, bind, gets. cbv beta.
  destruct (clients s !! v) as [cl|] eqn:Hv; simpl.
  - destruct (Hk cl eq_refl) as [[Hr HQ]|[Hr HQ]].
    + left. split; [done|]. by exists cl.
    + right. split; [done|]. intros (cl' & [= <-] & ?). done.
  - right. split; [by exists KeyError|]. by intros (cl & ? & _).
Qed.

Lemma checks_for_each {A} (f : A → M unit) (ok : A → Prop) l s :
  (∀ x, x ∈ l → checks (f x) s (ok x)) →
  checks (for_each f l) s (∀ x, x ∈ l → ok x).
Proof.
  induction l as [|x l IH]; intros Hf; simpl.
  - left. split; [done|]. by intros x ?%elem_of_nil.
  - eapply checks_iff.
    + apply (checks_seq _ _ _ (ok x) (∀ y, y ∈ l → ok y)); [apply Hf; left|].
      intros _. apply IH. intros y Hy. apply Hf. by right.
    + split.
      * intros [Hx Hl] y [->|Hy]%elem_of_cons; [done|by apply Hl].
      * intros Hall. split; [apply Hall; left|]. intros y Hy. apply Hall. by right.
Qed.

Lemma checks_if_raise (b : bool) e m s P :
  (b = false → checks m s P) →
  checks (if b then raise e else m) s (b = false ∧ P).
Proof.
  destruct b; intros Hm.
  - right. split; [by exists e|]. by intros [? _].
  - destruct (Hm eq_refl) as [[? ?]|[? ?]]; [left|right]; split; tauto.
Qed.

Lemma checks_getitem (l : list Var) i v s :
  checks (match py_getitem l i with
          | None => raise IndexError
          | Some o => if decide (o = v) then ret tt else raise Exception
          end) s (py_getitem l i = Some v).
Proof.
  destruct (py_getitem l i) as [o|].
  - case_decide; [left; by subst|]. right. split; [by eexists|]. by intros [= ?].
  - right. split; [by eexists|done].
Qed.

Section CheckIntegrityProps.
Variable E : Env.
Variable applys_between : gmap Apply (list Var) → list Var → list Var → list Apply.
Variable vars_between : gmap Apply (list Var) → list Var → list Var → list Var.

Lemma checks_check_client v e s :
  checks (check_client (apply_nodes s) v e) s (slot s e.1 e.2 = Some v ∧ member s e.1).
Proof.
  destruct e as [[|n] i]; unfold check_client; simpl.
  - eapply checks_iff; [apply checks_gets, checks_getitem|]. tauto.
  - case_decide as Hn.
    + eapply checks_iff; [apply checks_gets, checks_getitem|]. tauto.
    + eapply checks_iff; [apply checks_raise|]. tauto.
Qed.

(** X17. [check_integrity] is a check of four things and changes
    nothing: it returns, with the graph as it was, exactly when
    [apply_nodes] is the set of nodes between [inputs] and [outputs], every
    input position of such a node is an entry of the client list of the
    variable it holds, [variables] is the set of variables between [inputs]
    and [outputs], and every such variable is an input, a Constant or an
    owned variable and has a client list whose every entry [(c, i)] is
    ["output"] with [outputs[i] is v] or a member node with
    [c.inputs[i] is v]; otherwise it raises, with the graph as it was. It
    does not check that the positions of [outputs] are entries of the
    client lists. *)
Theorem check_integrity_checks s :
  checks (check_integrity E applys_between vars_between) s
    (integrity E applys_between vars_between s).
Proof.
  unfold check_integrity, integrity.
  apply checks_gets, checks_gets. case_decide as Hnodes.
  2: { eapply checks_iff; [apply checks_raise|]. tauto. }
  rewrite <- Hnodes.
  eapply (checks_iff _ _
    ((∀ node, node ∈ elements (apply_nodes s) →
        ∀ x, x ∈ enumerate (inputs_of s node) →
          ∃ cl, clients s !! x.2 = Some cl ∧ (CNode node, x.1) ∈ cl)
     ∧ (variables s = list_to_set (vars_between (node_inputs s) (inputs s) (outputs s))
        ∧ ∀ v, v ∈ elements (list_to_set
                  (vars_between (node_inputs s) (inputs s) (outputs s)) : gset Var) →
            is_missing_input E s v = false
            ∧ ∃ cl, clients s !! v = Some cl
                ∧ ∀ e, e ∈ cl → slot s e.1 e.2 = Some v ∧ member s e.1))).
  - apply checks_seq.
    + apply (checks_for_each _ (λ node, ∀ x, x ∈ enumerate (inputs_of s node) →
               ∃ cl, clients s !! x.2 = Some cl ∧ (CNode node, x.1) ∈ cl)).
      intros node Hnode. apply checks_gets.
      apply (checks_for_each _ (λ x : Z * Var,
               ∃ cl, clients s !! x.2 = Some cl ∧ (CNode node, x.1) ∈ cl)).
      intros [i variable] Hiv.
      apply (checks_get_clients _ _ _ (λ cl, (CNode node, i) ∈ cl)).
      intros cl Hcl. apply checks_decide.
    + intros _. apply checks_gets, checks_gets. case_decide as Hvars.
      * eapply checks_iff.
        -- apply (checks_for_each _ (λ v, is_missing_input E s v = false
               ∧ ∃ cl, clients s !! v = Some cl
                   ∧ ∀ e, e ∈ cl → slot s e.1 e.2 = Some v ∧ member s e.1)).
           intros variable Hvar.
           apply checks_gets. apply checks_if_raise. intros _.
           apply (checks_get_clients _ _ _
                    (λ cl, ∀ e, e ∈ cl → slot s e.1 e.2 = Some variable ∧ member s e.1)).
           intros cl Hcl.
           apply (checks_for_each _ (λ e : Client * Z,
                    slot s e.1 e.2 = Some variable ∧ member s e.1)).
           intros e He. apply checks_check_client.
        -- tauto.
      * eapply checks_iff; [apply checks_raise|]. tauto.
  - split.
    + intros (Hins & Hvars & Hrest). split_and!; [done| |done|].
      * intros n i v Hn Hv.
        apply (Hins n (proj2 (elem_of_elements _ _) Hn) (Z.of_nat i, v)).
        apply elem_of_enumerate_from. by exists i.
      * intros v Hv. destruct (Hrest v) as (Hmiss & cl & Hcl & Hall).
        { apply elem_of_elements. by rewrite <- Hvars. }
        split; [done|]. exists cl. split; [done|]. intros c i Hci. by apply (Hall (c, i)).
    + intros (_ & Hins & Hvars & Hrest). split_and!; [|done|].
      * intros node Hnode%elem_of_elements [i variable] (j & -> & Hj)%elem_of_enumerate_from.
        by apply (Hins node j variable).
      * intros variable Hvar%elem_of_elements.
        rewrite <- Hvars in Hvar. destruct (Hrest variable Hvar) as (Hmiss & cl & Hcl & Hall).
        split; [done|]. exists cl. split; [done|]. intros [c i] Hci. by apply Hall.
Qed.

End CheckIntegrityProps.

(** ** Variables left without clients *)

Lemma any_output_has_clients_true E c outs :
  any_output_has_clients E c outs = inr true →
  ∃ o e cs, o ∈ outs ∧ c !! o = Some (e :: cs).
Proof.
  induction outs as [|o outs IH]; simpl; [done|].
  destruct (c !! o) as [[|e cs]|] eqn:Ho; [|intros _|done].
  - intros (o' & e & cs & Hin & Hc)%IH. exists o', e, cs. split; [by right|done].
  - exists o, e, cs. split; [left|done].
Qed.

Section Unused.
Variable E : Env.

(** The three ways [remove_unused] returns. *)
Lemma remove_unused_kinds var reason s pushed s' :
  remove_unused E var reason s = Ret pushed s' →
  (var_owner E var = None ∧ pushed = []
   ∧ s' = set_variables (λ vs, vs ∖ {[var]}) s)
  ∨ (∃ p o e cs, var_owner E var = Some p ∧ o ∈ node_outputs E p
       ∧ clients s !! o = Some (e :: cs) ∧ pushed = [] ∧ s' = s)
  ∨ (∃ p, var_owner E var = Some p ∧ s' = pruned E p reason s).
Proof.
  intros Hrun. unfold remove_unused in Hrun.
  destruct (var_owner E var) as [p|] eqn:Hp.
  - apply bind_Ret_inv in Hrun as (c & s0 & Hc & Hrun).
    apply gets_Ret in Hc as [-> ->].
    destruct (any_output_has_clients E (clients s) (node_outputs E p)) as [x|[|]] eqn:Hany;
      [done| |].
    + apply ret_Ret in Hrun as [-> ->]. right. left.
      apply any_output_has_clients_true in Hany as (o & e & cs & Ho & Hc).
      by exists p, o, e, cs.
    + right. right. exists p. split; [done|].
      apply bind_Ret_inv in Hrun as (u0 & s0 & Htag & Hrun).
      apply modify_Ret in Htag as ->.
      apply bind_Ret_inv in Hrun as (ns & s0 & Hns & Hrun).
      apply gets_Ret in Hns as [-> ->]. simpl in Hrun.
      case_decide as Hmem; [|done].
      apply bind_Ret_inv in Hrun as (u1 & s1 & H1 & Hrun). apply modify_Ret in H1 as ->.
      apply bind_Ret_inv in Hrun as (u2 & s2 & H2 & Hrun). apply modify_Ret in H2 as ->.
      apply bind_Ret_inv in Hrun as (u3 & s3 & H3 & Hrun). destruct u3.
      apply execute_callbacks_Ret in H3 as ->.
      apply bind_Ret_inv in Hrun as (ins & s4 & H4 & Hrun).
      apply gets_Ret in H4 as [-> ->]. by apply ret_Ret in Hrun as [_ ->].
  - apply bind_Ret_inv in Hrun as (vs & s0 & Hvs & Hrun).
    apply gets_Ret in Hvs as [-> ->].
    case_decide; [|done].
    apply bind_Ret_inv in Hrun as (u & s1 & Hm & Hrun). apply modify_Ret in Hm as ->.
    apply ret_Ret in Hrun as [-> ->]. by left.
Qed.

(** The first turn of the loop, with what it leaves of the client list of
    [var]: the list is not empty and the turn ends there, or the turn goes
    on with [remove_unused]. *)
Lemma remove_client_step_kinds var e reason s pushed s' :
  remove_client_step E var e reason s = Ret pushed s' →
  (∃ x cs1, pushed = [] ∧ clients s' !! var = Some (x :: cs1) ∧ removal_frame s s')
  ∨ (∃ s0, removal_frame s s0 ∧ remove_unused E var reason s0 = Ret pushed s').
Proof.
  intros Hrun. unfold remove_client_step, get_clients in Hrun.
  apply bind_Ret_inv in Hrun as (cs & s0 & Hcs & Hrun).
  apply bind_Ret_inv in Hcs as (c & s1 & Hc & Hcs).
  apply gets_Ret in Hc as [-> ->].
  destruct (clients s !! var) as [cs0|] eqn:Hv; [|done].
  apply ret_Ret in Hcs as [-> ->].
  apply bind_Ret_inv in Hrun as (var_clients & s1 & Hrem & Hrun).
  destruct (list_remove e cs0) as [cs'|] eqn:Hr.
  - apply bind_Ret_inv in Hrem as (u & s2 & Hm & Hrem).
    apply modify_Ret in Hm as ->. apply ret_Ret in Hrem as [-> ->].
    assert (removal_frame s (set_clients <[var := cs']> s)) as Hfr.
    { apply (removal_frame_set_clients s var cs0 cs' Hv).
      intros x Hx. apply (list_remove_elem_of _ x _ _ Hr). by right. }
    destruct cs' as [|x cs1].
    + right. by eexists.
    + left. apply ret_Ret in Hrun as [-> ->]. exists x, cs1.
      split_and!; [done| |done]. simpl. by rewrite lookup_insert_eq.
  - apply ret_Ret in Hrem as [-> ->]. right. exists s. split; [|done].
    apply removal_frame_refl.
Qed.

Lemma remove_client_unused_at var client_to_remove reason s s' :
  remove_client E var client_to_remove reason s = Ret tt s' →
  clients s' !! var = Some [] →
  match var_owner E var with
  | None => var ∉ variables s'
  | Some p =>
      (∀ o, o ∈ node_outputs E p → clients s' !! o = Some []) →
      (p ∉ apply_nodes s') ∧ ∀ o, o ∈ node_outputs E p → o ∉ variables s'
  end.
Proof.
  unfold remove_client, removal_fuel. simpl.
  destruct (remove_client_step E var client_to_remove reason s) as [pushed s1|x s1]
    eqn:Hstep; [|done].
  rewrite app_nil_r.
  destruct (remove_client_loop E _ (reverse pushed) reason s1) as [r|] eqn:Hloop; [|done].
  intros -> Hempty.
  destruct (remove_client_loop_Ret E _ _ _ _ _ Hloop)
    as [(_ & _ & _ & _ & _ & _ & _ & Hvars & Hnodes & _) _].
  apply remove_client_step_kinds in Hstep
    as [(x & cs1 & -> & Hx & _)|(s0 & _ & Hun)].
  { rewrite remove_client_loop_nil in Hloop. injection Hloop as <-. congruence. }
  apply remove_unused_kinds in Hun
    as [(Hown & _ & ->)|[(p & o & e & cs & Hown & Ho & Hc & -> & ->)|(p & Hown & ->)]];
    rewrite Hown.
  - intros Hin%Hvars. simpl in Hin. set_solver.
  - intros Hall. rewrite remove_client_loop_nil in Hloop. injection Hloop as <-.
    specialize (Hall o Ho). congruence.
  - intros _. split.
    + intros Hin%Hnodes. simpl in Hin. set_solver.
    + intros o Ho Hin%Hvars. simpl in Hin.
      apply elem_of_difference in Hin as [_ Hn]. apply Hn. by apply elem_of_list_to_set.
Qed.

(** X18. [remove_client] removes what is left without clients: when the
    call returns and [var] has an empty client list afterwards, a [var]
    without owner is no longer in [variables]; and for a [var] with an
    owner, when every output of the owner has an empty client list
    afterwards, the owner is no longer in [apply_nodes] and none of its
    outputs is in [variables]. *)
Theorem remove_client_unused var client_to_remove reason s s' :
  remove_client E var client_to_remove reason s = Ret tt s' →
  clients s' !! var = Some [] →
  match var_owner E var with
  | None => var ∉ variables s'
  | Some p =>
      (∀ o, o ∈ node_outputs E p → clients s' !! o = Some []) →
      (p ∉ apply_nodes s') ∧ ∀ o, o ∈ node_outputs E p → o ∉ variables s'
  end.
Proof. apply remove_client_unused_at. Qed.

End Unused.

Lemma for_each_app_Ret {A} (f : A → M unit) l1 l2 s s' :
  for_each f (l1 ++ l2) s = Ret tt s' →
  ∃ s1, for_each f l1 s = Ret tt s1 ∧ for_each f l2 s1 = Ret tt s'.
Proof.
  revert s. induction l1 as [|x l1 IH]; intros s; simpl.
  - intros Hrun. by exists s.
  - intros (u & s0 & Hx & Hrun)%bind_Ret_inv. destruct u.
    destruct (IH _ Hrun) as (s1 & H1 & H2). exists s1. split; [|done].
    by rewrite (bind_Ret _ _ _ _ _ Hx).
Qed.

Section ReplacePrunes.
Variable E : Env.

(** X19. [replace] prunes what it disconnects: when [replace(var,
    new_var)] returns on a graph with sound client lists, for a member
    variable [var] with at least one client and a replacement other than
    [var] itself, and [var] has an empty client list afterwards, then a
    [var] without owner is no longer in [variables]; and for a [var] with an
    owner, when every output of the owner has an empty client list
    afterwards, the owner is no longer in [apply_nodes] and none of its
    outputs is in [variables]. *)
Theorem replace_prunes var new_var new_var' reason verbose import_missing s s' :
  clients_sound s →
  filter_variable E (var_type E var) new_var = inr new_var' →
  var ∈ variables s → new_var' ≠ var →
  (∃ e cs, clients s !! var = Some (e :: cs)) →
  replace E var new_var reason verbose import_missing s = Ret tt s' →
  clients s' !! var = Some [] →
  match var_owner E var with
  | None => var ∉ variables s'
  | Some p =>
      (∀ o, o ∈ node_outputs E p → clients s' !! o = Some []) →
      (p ∉ apply_nodes s') ∧ ∀ o, o ∈ node_outputs E p → o ∉ variables s'
  end.
Proof.
  intros [_ Hs] Hf Hv Hne (e & cs & Hcs) Hrun Hempty.
  apply replace_Ret in Hrun as (nv & Hf' & [[Hv' _]|(_ & cs0 & Hcs0 & Hloop)]); [done|].
  assert (nv = new_var') as -> by congruence.
  assert (cs0 = e :: cs) as -> by congruence.
  destruct (exists_last (l := e :: cs)) as (init & [node i] & Heq); [done|].
  rewrite Heq in Hloop. apply for_each_app_Ret in Hloop as (s1 & _ & Hlast).
  simpl in Hlast. apply bind_Ret_inv in Hlast as (u & s2 & Hturn & Hend). destruct u.
  apply ret_Ret in Hend as [_ ->].
  apply bind_Ret_inv in Hturn as (u & s0 & Hassert & Hturn).
  apply assert_client_Ret in Hassert as [-> Hslot].
  assert (0 ≤ i) as Hi.
  { apply (Hs var (e :: cs) node i Hcs). rewrite Heq. apply elem_of_app. right. left. }
  destruct (change_input_Ret E _ _ _ _ _ _ _ _ Hi Hslot (not_eq_sym Hne) Hturn)
    as (s3 & csn & s4 & _ & _ & Hrem & ->).
  simpl in Hempty. pose proof (remove_client_unused_at E _ _ _ _ _ Hrem Hempty) as Hun.
  by destruct (var_owner E var).
Qed.

End ReplacePrunes.

(** *** On the example graph *)

(** Removing the one use of [3] leaves it without clients: its owner [10]
    is pruned. *)
Lemma remove_client_unused_witness :
  ((10%positive) ∉ apply_nodes (final (remove_client ex_env 3 (CNode 11, 0) None ex_graph)))
  ∧ ∀ o, o ∈ node_outputs ex_env 10 →
      o ∉ variables (final (remove_client ex_env 3 (CNode 11, 0) None ex_graph)).
Proof.
  refine (remove_client_unused ex_env 3 (CNode 11, 0) None ex_graph
            (final (remove_client ex_env 3 (CNode 11, 0) None ex_graph)) _ _ _).
  - by vm_compute.
  - by vm_compute.
  - intros o Ho. apply list_elem_of_singleton in Ho as ->. by vm_compute.
Defined.

Lemma replace_prunes_witness :
  ((10%positive) ∉ apply_nodes (final (replace ex_env 3 2 None None false ex_graph)))
  ∧ ∀ o, o ∈ node_outputs ex_env 10 →
      o ∉ variables (final (replace ex_env 3 2 None None false ex_graph)).
Proof.
  refine (replace_prunes ex_env 3 2 2 None None false ex_graph
            (final (replace ex_env 3 2 None None false ex_graph)) _ _ _ _ _ _ _ _).
  - exact (proj1 ex_graph_consistent).
  - by vm_compute.
  - apply (bool_decide_unpack _). by vm_compute.
  - discriminate.
  - exists (CNode 11, 0), []. by vm_compute.
  - by vm_compute.
  - by vm_compute.
  - intros o Ho. apply list_elem_of_singleton in Ho as ->. by vm_compute.
Defined.

(** ** How [change_input] fails *)

Section ChangeFailures.
Variable E : Env.

Lemma change_slot_write node i new_var s r :
  0 ≤ i → slot s node i = Some r → var_type E r = var_type E new_var →
  change_slot E node i new_var s = Ret r (write_slot node i new_var s).
Proof.
  intros Hi Hr Hty.
  assert (∀ l : list Var, py_getitem l i = Some r →
            py_setitem l i new_var = Some (<[Z.to_nat i := new_var]> l)) as Hset.
  { intros l Hl. destruct (py_setitem_is_Some l i r new_var Hl) as [l' Hl'].
    rewrite Hl'. f_equal. by apply py_setitem_nonneg. }
  destruct node as [|n]; simpl in *; unfold bind, gets.
  - rewrite Hr, (Hset _ Hr). by rewrite decide_True.
  - rewrite Hr, (Hset _ Hr). by rewrite decide_True.
Qed.

(** X20. The failures of [change_input] other than a type mismatch: with
    an index outside the list the call raises [IndexError] and leaves the
    graph as it was; with a [new_var] of the right type that is a missing
    input (no owner, not a Constant, not in [inputs], not of the null type)
    and [import_missing] off, the call raises [MissingInputError] after the
    slot was written: the slot holds [new_var], and nothing else has
    changed, so [(node, i)] is still in the client list of the old value
    and not in one of [new_var]. *)
Theorem change_input_failures node i new_var reason s :
  (∀ import_missing, slot s node i = None →
     change_input E node i new_var reason import_missing s = Exn IndexError s)
  ∧ (∀ r, 0 ≤ i → slot s node i = Some r → r ≠ new_var →
     var_type E r = var_type E new_var →
     is_missing_input E s new_var = true →
     is_NullType E (var_type E new_var) = false →
     change_input E node i new_var reason false s
     = Exn MissingInputError (write_slot node i new_var s)).
Proof.
  split.
  - intros import_missing Hnone. unfold change_input. apply bind_Exn.
    destruct node as [|n]; simpl in *; unfold bind, gets; by rewrite Hnone.
  - intros r Hi Hr Hne Hty Hmiss Hnull. unfold change_input.
    rewrite (bind_Ret _ _ _ _ _ (change_slot_write _ _ _ _ _ Hi Hr Hty)).
    rewrite decide_False by done. apply bind_Exn.
    unfold import_var, bind at 1 2, gets at 1 2. apply bind_Exn.
    assert (is_missing_input E (write_slot node i new_var s) new_var = true) as ->.
    { unfold is_missing_input in *.
      by destruct (write_slot_fields node i new_var s) as (_ & _ & _ & _ & _ & ->). }
    unfold is_missing_input in Hmiss.
    apply andb_prop in Hmiss as [[Ho _]%andb_prop _]. apply bool_decide_eq_true in Ho.
    by rewrite Ho, Hnull.
Qed.

End ChangeFailures.

(** On the example graph: the first input of node [10] is changed to the
    undeclared variable [7]. *)
Lemma change_input_failures_witness :
  change_input ex_env (CNode 10) 0 7 None false ex_graph
  = Exn MissingInputError (write_slot (CNode 10) 0 7 ex_graph).
Proof.
  refine (proj2 (change_input_failures ex_env (CNode 10) 0 7 None ex_graph) 1%positive
            _ _ _ _ _ _).
  - done.
  - by vm_compute.
  - discriminate.
  - by vm_compute.
  - by vm_compute.
  - by vm_compute.
Defined.

(** * [aesara/typed_list/opt.py]

    The local optimizer that swaps a typed-list operation for its in-place
    variant. [Op.__call__] of [aesara.graph.op] is not among the sources:
    the value of the call of [new_op] on the inputs of the node is kept as
    the pair of the op and the inputs it is applied to. *)

Module TypedList.

(** The class of an [Op] instance: one of the five typed-list classes the
    optimizer tracks, or any other class. *)
Inductive OpClass :=
  | Append
  | Extend
  | Insert
  | Reverse
  | Remove
  | OtherClass (name : string).

(** An [Op] instance: its class and its [inplace] attribute. *)
Record Op := mkOp { op_class : OpClass; inplace : bool }.

(** [node.op] and [node.inputs] *)
Record Node := mkNode { op : Op; node_args : list positive }.

(** The call of [new_op] on [node.inputs] *)
Record Call := mkCall { call_op : Op; call_args : list positive }.

(** [isinstance(op, (Append, Extend, Insert, Reverse, Remove))] *)
Definition is_list_op (o : Op) : bool :=
  match op_class o with
  | OtherClass _ => false
  | _ => true
  end.

(** [typed_list_inplace_opt(fgraph, node)]; [None] is the [False] of a
    pass that does not apply. [fgraph] is not read. *)
Definition typed_list_inplace_opt (node : Node) : option (list Call) :=
  if is_list_op (op node) && negb (inplace (op node)) then
    let new_op := mkOp (op_class (op node)) true in
    let new_node := mkCall new_op (node_args node) in
    Some [new_node]
  else None.

(** X21. The in-place optimizer of typed lists fires once: it applies
    exactly to the nodes whose op is an [Append], [Extend], [Insert],
    [Reverse] or [Remove] that is not in place; it then returns one
    replacement, the op of the same class with [inplace=True] applied to the
    same inputs in the same order; and it does not apply to a node of the
    op it returned, whatever the inputs. *)
Theorem typed_list_inplace_opt_once node :
  match typed_list_inplace_opt node with
  | Some l =>
      is_list_op (op node) = true ∧ inplace (op node) = false
      ∧ ∃ c, l = [c]
          ∧ op_class (call_op c) = op_class (op node)
          ∧ inplace (call_op c) = true
          ∧ call_args c = node_args node
          ∧ ∀ args, typed_list_inplace_opt (mkNode (call_op c) args) = None
  | None => is_list_op (op node) = false ∨ inplace (op node) = true
  end.
Proof.
  unfold typed_list_inplace_opt.
  destruct (is_list_op (op node)) eqn:Hl, (inplace (op node)) eqn:Hi; simpl;
    [by right| |by left|by left].
  split_and!; [done..|]. eexists. split_and!; try done.
  intros args. unfold typed_list_inplace_opt. simpl.
  by rewrite andb_false_r.
Qed.

End TypedList.

(** ** Every member variable has a client list *)

(** [clients[v]] is defined for every [v] of [variables]. *)
Definition variables_have_clients (s : State) : Prop :=
  ∀ v, v ∈ variables s → is_Some (clients s !! v).

(** Between two states: no client list was deleted, and every new member
    variable has one. *)
Definition keys_kept (s s' : State) : Prop :=
  (∀ v, is_Some (clients s !! v) → is_Some (clients s' !! v))
  ∧ (∀ v, v ∈ variables s' → v ∈ variables s ∨ is_Some (clients s' !! v)).

Lemma keys_kept_refl s : keys_kept s s.
Proof. split; [done|]. intros v Hv. by left. Qed.

Lemma keys_kept_trans s1 s2 s3 : keys_kept s1 s2 → keys_kept s2 s3 → keys_kept s1 s3.
Proof.
  intros [A1 A2] [B1 B2]. split; [by auto|].
  intros v Hv. destruct (B2 v Hv) as [Hv2|?]; [|by right].
  destruct (A2 v Hv2) as [?|Hc]; [by left|right]. by apply B1.
Qed.

Lemma keys_kept_variables s s' :
  keys_kept s s' → variables_have_clients s → variables_have_clients s'.
Proof.
  intros [H1 H2] Hs v Hv. destruct (H2 v Hv) as [Hin|?]; [|done]. by apply H1, Hs.
Qed.

(** The changes that keep the keys: those that leave [variables] and the
    keys of [clients] as they are, or take variables out. *)
Lemma keys_kept_same s s' :
  variables s' ⊆ variables s → dom (clients s) ⊆ dom (clients s') → keys_kept s s'.
Proof.
  intros Hv Hd. split.
  - intros v Hc%elem_of_dom. by apply elem_of_dom, Hd.
  - intros v Hin. left. by apply Hv.
Qed.

Section ClientKeys.
Variable E : Env.

(** Running [m] keeps the keys, however it ends. *)
Definition keeps_keys {A} (m : M A) : Prop := ∀ s, keys_kept s (final (m s)).

Lemma keeps_keys_bind {A B} (m : M A) (k : A → M B) :
  keeps_keys m → (∀ a, keeps_keys (k a)) → keeps_keys (bind m k).
Proof.
  intros Hm Hk s. unfold bind. specialize (Hm s).
  destruct (m s) as [a s1|e s1]; simpl in *; [|done].
  eapply keys_kept_trans; [exact Hm|apply Hk].
Qed.

Lemma keeps_keys_ret {A} (a : A) : keeps_keys (ret a).
Proof. intros s. apply keys_kept_refl. Qed.

Lemma keeps_keys_raise {A} e : keeps_keys (@raise A e).
Proof. intros s. apply keys_kept_refl. Qed.

Lemma keeps_keys_gets {A} (f : State → A) : keeps_keys (gets f).
Proof. intros s. apply keys_kept_refl. Qed.

Lemma keeps_keys_for_each {A} (f : A → M unit) l :
  (∀ x, keeps_keys (f x)) → keeps_keys (for_each f l).
Proof.
  intros Hf. induction l as [|x l IH]; simpl; [apply keeps_keys_ret|].
  apply keeps_keys_bind; [apply Hf|]. by intros _.
Qed.

Lemma keeps_keys_modify f :
  (∀ s, variables (f s) ⊆ variables s ∧ dom (clients s) ⊆ dom (clients (f s))) →
  keeps_keys (modify f).
Proof. intros Hf s. simpl. by apply keys_kept_same; apply Hf. Qed.

Lemma keeps_keys_setup_add v :
  keeps_keys (let* _ := setup_var v in variables_add v).
Proof.
  intros s. unfold setup_var, variables_add, bind, modify. simpl. split; simpl.
  - intros w Hw. destruct (clients s !! v) eqn:Hv; [done|].
    destruct (decide (v = w)) as [<-|Hne]; [by rewrite lookup_insert_eq|].
    by rewrite lookup_insert_ne.
  - intros w [Hw|Hw%elem_of_singleton]%elem_of_union; [by left|]. subst w. right.
    destruct (clients s !! v) eqn:Hv; [by rewrite Hv|]. by rewrite lookup_insert_eq.
Qed.

Lemma keeps_keys_add_input v check : keeps_keys (add_input v check).
Proof.
  unfold add_input. apply keeps_keys_bind; [apply keeps_keys_gets|]. intros ins.
  destruct (check && bool_decide (v ∈ ins)); [apply keeps_keys_ret|].
  apply keeps_keys_bind; [by apply keeps_keys_modify|]. intros _.
  apply keeps_keys_setup_add.
Qed.

Lemma keeps_keys_add_client v e : keeps_keys (add_client v e).
Proof.
  intros s. unfold add_client, get_clients, bind, gets.
  destruct (clients s !! v) as [cs|] eqn:Hv; simpl; [|apply keys_kept_refl].
  apply keys_kept_same; [done|]. simpl. rewrite dom_insert_L. set_solver.
Qed.

Lemma keeps_keys_execute_callbacks h : keeps_keys (execute_callbacks E h).
Proof.
  intros s. destruct (execute_callbacks_final E h s) as (l & _ & ->).
  by apply keys_kept_same.
Qed.

Lemma keeps_keys_import_node n check reason import_missing :
  keeps_keys (import_node E n check reason import_missing).
Proof.
  unfold import_node. apply keeps_keys_bind; [apply keeps_keys_gets|]. intros nodes.
  apply keeps_keys_bind.
  { destruct check; [|apply keeps_keys_ret]. apply keeps_keys_for_each. intros node.
    unfold import_node_check. apply keeps_keys_bind; [apply keeps_keys_gets|]. intros ins.
    apply keeps_keys_for_each. intros var.
    apply keeps_keys_bind; [apply keeps_keys_gets|]. intros [|]; [|apply keeps_keys_ret].
    destruct import_missing; [apply keeps_keys_add_input|apply keeps_keys_raise]. }
  intros _. apply keeps_keys_for_each. intros node. unfold import_new_node, setup_node.
  apply keeps_keys_bind; [apply keeps_keys_gets|]. intros ns.
  case_decide; [apply keeps_keys_raise|].
  apply keeps_keys_bind.
  { destruct (bad_view_map E node); [apply keeps_keys_raise|].
    destruct (bad_destroy_map E node); [apply keeps_keys_raise|apply keeps_keys_ret]. }
  intros _. apply keeps_keys_bind; [by apply keeps_keys_modify|]. intros _.
  apply keeps_keys_bind; [by apply keeps_keys_modify|]. intros _.
  apply keeps_keys_bind.
  { apply keeps_keys_for_each. intros o. apply keeps_keys_setup_add. }
  intros _. apply keeps_keys_bind; [apply keeps_keys_gets|]. intros ins.
  apply keeps_keys_bind; [|intros _; apply keeps_keys_execute_callbacks].
  apply keeps_keys_for_each. intros [i input].
  apply keeps_keys_bind; [apply keeps_keys_gets|]. intros vs.
  apply keeps_keys_bind; [|intros _; apply keeps_keys_add_client].
  case_decide; [apply keeps_keys_ret|apply keeps_keys_setup_add].
Qed.

Lemma keeps_keys_import_var v reason import_missing :
  keeps_keys (import_var E v reason import_missing).
Proof.
  unfold import_var. apply keeps_keys_bind; [apply keeps_keys_gets|]. intros ns.
  apply keeps_keys_bind; [apply keeps_keys_gets|]. intros missing.
  apply keeps_keys_bind; [|intros _; apply keeps_keys_setup_add].
  destruct (var_owner E v) as [owner|].
  - case_decide; [apply keeps_keys_ret|apply keeps_keys_import_node].
  - destruct missing; [|apply keeps_keys_ret].
    destruct (is_NullType E (var_type E v)); [apply keeps_keys_raise|].
    destruct import_missing; [apply keeps_keys_add_input|apply keeps_keys_raise].
Qed.

Lemma keeps_keys_remove_unused v reason : keeps_keys (remove_unused E v reason).
Proof.
  unfold remove_unused. destruct (var_owner E v) as [p|].
  - apply keeps_keys_bind; [apply keeps_keys_gets|]. intros c.
    destruct (any_output_has_clients E c (node_outputs E p)) as [x|[|]];
      [apply keeps_keys_raise|apply keeps_keys_ret|].
    apply keeps_keys_bind; [by apply keeps_keys_modify|]. intros _.
    apply keeps_keys_bind; [apply keeps_keys_gets|]. intros ns.
    case_decide; [|apply keeps_keys_raise].
    apply keeps_keys_bind; [by apply keeps_keys_modify|]. intros _.
    apply keeps_keys_bind.
    { apply keeps_keys_modify. intros s. simpl. set_solver. }
    intros _. apply keeps_keys_bind; [apply keeps_keys_execute_callbacks|]. intros _.
    apply keeps_keys_bind; [apply keeps_keys_gets|]. intros ins. apply keeps_keys_ret.
  - apply keeps_keys_bind; [apply keeps_keys_gets|]. intros vs.
    case_decide; [|apply keeps_keys_raise].
    apply keeps_keys_bind; [|intros _; apply keeps_keys_ret].
    apply keeps_keys_modify. intros s. simpl. set_solver.
Qed.

Lemma keeps_keys_remove_client_step v e reason :
  keeps_keys (remove_client_step E v e reason).
Proof.
  intros s. unfold remove_client_step, get_clients. unfold bind at 1 2, gets at 1.
  destruct (clients s !! v) as [cs|] eqn:Hv; simpl; [|apply keys_kept_refl].
  apply keeps_keys_bind.
  - destruct (list_remove e cs) as [cs'|]; [|apply keeps_keys_ret].
    apply keeps_keys_bind; [|intros _; apply keeps_keys_ret].
    apply keeps_keys_modify. intros s0. simpl. rewrite dom_insert_L. set_solver.
  - intros [[|x l]|]; [| |]; first [apply keeps_keys_ret|apply keeps_keys_remove_unused].
Qed.

Lemma keeps_keys_remove_client_loop fuel stack reason s r :
  remove_client_loop E fuel stack reason s = Some r → keys_kept s (final r).
Proof.
  revert stack s. induction fuel as [|fuel IH]; intros [|[v e] rest] s; simpl;
    try (by intros [= <-]; apply keys_kept_refl); try done.
  pose proof (keeps_keys_remove_client_step v e reason s) as Hstep.
  destruct (remove_client_step E v e reason s) as [pushed s'|x s']; simpl in Hstep.
  - intros Hr%IH. by eapply keys_kept_trans.
  - by intros [= <-].
Qed.

Lemma keeps_keys_remove_client v e reason : keeps_keys (remove_client E v e reason).
Proof.
  intros s. unfold remove_client.
  destruct (remove_client_loop E (removal_fuel s) [(v, e)] reason s) as [r|] eqn:Hr.
  - by eapply keeps_keys_remove_client_loop.
  - apply keys_kept_refl.
Qed.

Lemma keeps_keys_change_input node i new_var reason import_missing :
  keeps_keys (change_input E node i new_var reason import_missing).
Proof.
  unfold change_input. apply keeps_keys_bind.
  { unfold change_slot. destruct node as [|n];
      (apply keeps_keys_bind; [apply keeps_keys_gets|]); intros l;
      destruct (py_getitem l i), (py_setitem l i new_var); try apply keeps_keys_raise;
      (case_decide; [|apply keeps_keys_raise]);
      (apply keeps_keys_bind; [by apply keeps_keys_modify|]); intros _;
      apply keeps_keys_ret. }
  intros r. case_decide; [apply keeps_keys_ret|].
  apply keeps_keys_bind; [apply keeps_keys_import_var|]. intros _.
  apply keeps_keys_bind; [apply keeps_keys_add_client|]. intros _.
  apply keeps_keys_bind; [apply keeps_keys_remove_client|]. intros _.
  apply keeps_keys_execute_callbacks.
Qed.

Lemma keeps_keys_replace var new_var reason verbose import_missing :
  keeps_keys (replace E var new_var reason verbose import_missing).
Proof.
  unfold replace. apply keeps_keys_bind.
  { destruct (default _ verbose); [by apply keeps_keys_modify|apply keeps_keys_ret]. }
  intros _. destruct (filter_variable E _ new_var) as [e|nv]; [apply keeps_keys_raise|].
  apply keeps_keys_bind; [apply keeps_keys_gets|]. intros vs.
  case_decide; [|by apply keeps_keys_modify].
  apply keeps_keys_bind.
  { unfold check_test_values. destruct (compute_test_value E); [|apply keeps_keys_ret].
    destruct (test_value_shape E var), (test_value_shape E nv); try apply keeps_keys_ret.
    case_decide; [apply keeps_keys_ret|apply keeps_keys_raise]. }
  intros _. apply keeps_keys_bind.
  { unfold get_clients. apply keeps_keys_bind; [apply keeps_keys_gets|]. intros c.
    destruct (c !! var); [apply keeps_keys_ret|apply keeps_keys_raise]. }
  intros cs. apply keeps_keys_for_each. intros [node i].
  apply keeps_keys_bind; [|intros _; apply keeps_keys_change_input].
  intros s. rewrite assert_client_final. apply keys_kept_refl.
Qed.

Lemma keeps_keys_attach_feature f : keeps_keys (attach_feature E f).
Proof.
  intros s. apply keys_kept_same.
  - unfold attach_feature, bind, gets. case_decide; [done|].
    destruct (has_method E f on_attach); [|done].
    unfold call_feature. destruct (call_method E f OnAttach s) as [x|]; [|done].
    by destruct x.
  - by destruct (attach_feature_core E f s) as (_ & _ & _ & <-).
Qed.

Lemma keeps_keys_remove_feature f : keeps_keys (remove_feature E f).
Proof.
  intros s. unfold remove_feature, bind, gets, modify.
  destruct (list_remove f (_features s)); [|apply keys_kept_refl]. simpl.
  destruct (has_method E f on_detach); [|by apply keys_kept_same].
  rewrite call_feature_final. by apply keys_kept_same.
Qed.

Lemma variables_have_clients_bind {A B} (m : M A) (k : A → M B) s :
  variables_have_clients (final (m s)) → (∀ a, keeps_keys (k a)) →
  variables_have_clients (final (bind m k s)).
Proof.
  intros Hm Hk. unfold bind. destruct (m s) as [a s1|e s1]; simpl in *; [|done].
  by eapply keys_kept_variables; [apply Hk|].
Qed.

Lemma variables_have_clients_init_graph ins outs features s :
  variables_have_clients (final (init_graph E ins outs features s)).
Proof.
  unfold init_graph. apply variables_have_clients_bind.
  { unfold init_features. apply variables_have_clients_bind.
    - by intros v ?%not_elem_of_empty.
    - intros _. apply keeps_keys_bind; [|intros _; apply keeps_keys_attach_feature].
      apply keeps_keys_for_each, keeps_keys_attach_feature. }
  intros _. apply keeps_keys_bind; [by apply keeps_keys_modify|]. intros _.
  apply keeps_keys_bind.
  { apply keeps_keys_for_each. intros v.
    destruct (var_owner E v); [apply keeps_keys_raise|apply keeps_keys_add_input]. }
  intros _. apply keeps_keys_bind.
  { apply keeps_keys_for_each. intros v. apply keeps_keys_import_var. }
  intros _. apply keeps_keys_for_each. intros [i o]. apply keeps_keys_add_client.
Qed.

Lemma variables_have_clients_init ins outs features clone s0 s :
  __init__ E ins outs features clone s0 = Ret tt s → variables_have_clients s.
Proof.
  intros Hrun. unfold __init__ in Hrun. destruct outs as [outs|]; [|done].
  apply bind_Ret_inv in Hrun as (h & s1 & Hh & Hrun).
  apply bind_Ret_inv in Hrun as ([ins' outs'] & s2 & _ & Hrun).
  pose proof (variables_have_clients_init_graph ins' outs' (default [] features) s2) as Hok.
  by rewrite Hrun in Hok.
Qed.

(** X22. Every member variable has a client list: in the graph a call of
    the constructor that returns leaves, and after any call of
    [import_var], [import_node], [change_input], [replace],
    [remove_client], [add_input], [attach_feature] or [remove_feature] on a
    graph where it held, however that call ends, [clients[v]] is defined
    for every [v] of [variables]; on such a graph [get_clients(v)] returns
    for every member variable [v], with the graph as it was. *)
Theorem variables_have_clients_invariant ins outs features clone s0 s :
  __init__ E ins outs features clone s0 = Ret tt s →
  variables_have_clients s
  ∧ (∀ s, variables_have_clients s →
     (∀ v reason import_missing,
        variables_have_clients (final (import_var E v reason import_missing s)))
     ∧ (∀ n check reason import_missing,
        variables_have_clients (final (import_node E n check reason import_missing s)))
     ∧ (∀ node i new_var reason import_missing,
        variables_have_clients
          (final (change_input E node i new_var reason import_missing s)))
     ∧ (∀ var new_var reason verbose import_missing,
        variables_have_clients
          (final (replace E var new_var reason verbose import_missing s)))
     ∧ (∀ v e reason, variables_have_clients (final (remove_client E v e reason s)))
     ∧ (∀ v check, variables_have_clients (final (add_input v check s)))
     ∧ (∀ f, variables_have_clients (final (attach_feature E f s)))
     ∧ (∀ f, variables_have_clients (final (remove_feature E f s)))
     ∧ (∀ v, v ∈ variables s → ∃ cs, get_clients v s = Ret cs s)).
Proof.
  intros Hrun. split; [by eapply variables_have_clients_init|].
  clear s Hrun. intros s Hs. split_and!; intros.
  - eapply keys_kept_variables; [apply keeps_keys_import_var|done].
  - eapply keys_kept_variables; [apply keeps_keys_import_node|done].
  - eapply keys_kept_variables; [apply keeps_keys_change_input|done].
  - eapply keys_kept_variables; [apply keeps_keys_replace|done].
  - eapply keys_kept_variables; [apply keeps_keys_remove_client|done].
  - eapply keys_kept_variables; [apply keeps_keys_add_input|done].
  - eapply keys_kept_variables; [apply keeps_keys_attach_feature|done].
  - eapply keys_kept_variables; [apply keeps_keys_remove_feature|done].
  - destruct (Hs v) as [cs Hcs]; [done|]. exists cs.
    unfold get_clients, bind, gets. by rewrite Hcs.
Qed.

End ClientKeys.

Lemma variables_have_clients_invariant_witness : variables_have_clients ex_graph.
Proof.
  refine (proj1 (variables_have_clients_invariant ex_env (Some [1; 2]) (Some [4])
                   (Some [1]) false ex_world ex_graph _))%positive.
  apply ex_graph_init.
Defined.

(** ** [orderings]

    A feature may have an [orderings] method; called with the graph it
    returns a dict from nodes to the nodes that must be computed before
    them. An [OrderedDict] is kept as the list of its items in insertion
    order; a dict has no key twice. *)

(** A value of such a dict: a list, an [OrderedSet], or a value of another
    type. *)
Inductive Prereqs :=
  | PList (nodes : list Apply)
  | POrderedSet (nodes : list Apply)
  | POther.

(** What [feature.orderings(fgraph)] returns: an [OrderedDict], or a value
    of another type. *)
Inductive OrderingsValue :=
  | AnOrderedDict (items : list (Apply * Prereqs))
  | NotAnOrderedDict.

(** [isinstance(prereqs, (list, OrderedSet))] *)
Definition is_ordered (p : Prereqs) : bool :=
  match p with
  | POther => false
  | _ => true
  end.

(** The nodes [extend] takes from a value. *)
Definition prereq_nodes (p : Prereqs) : list Apply :=
  match p with
  | PList l | POrderedSet l => l
  | POther => []
  end.

(** [ords.setdefault(node, []).extend(prereqs)] *)
Fixpoint setdefault_extend (ords : list (Apply * list Apply)) (node : Apply)
    (prereqs : list Apply) : list (Apply * list Apply) :=
  match ords with
  | [] => [(node, prereqs)]
  | (n, l) :: rest =>
      if decide (n = node) then (n, l ++ prereqs) :: rest
      else (n, l) :: setdefault_extend rest node prereqs
  end.

(** The loop that combines the dicts. *)
Definition merge_orderings (all_orderings : list (list (Apply * Prereqs)))
    : list (Apply * list Apply) :=
  foldl (λ ords orderings,
           foldl (λ ords item, setdefault_extend ords item.1 (prereq_nodes item.2))
             ords orderings)
    [] all_orderings.

Section Orderings.
(** [hasattr(feature, "orderings")], and the call, which returns or
    raises. *)
Variable feature_orderings : Feature → option (State → Exc + OrderingsValue).

(** The first loop of [orderings]: the dicts that are not empty, in the
    order of the features. *)
Fixpoint collect_orderings (fs : list Feature) (s : State)
    : Exc + list (list (Apply * Prereqs)) :=
  match fs with
  | [] => inr []
  | feature :: fs' =>
      match feature_orderings feature with
      | None => collect_orderings fs' s
      | Some call =>
          match call s with
          | inl e => inl e
          | inr NotAnOrderedDict => inl TypeError
          | inr (AnOrderedDict []) => collect_orderings fs' s
          | inr (AnOrderedDict (item :: items)) =>
              if forallb (λ it, is_ordered it.2) (item :: items) then
                match collect_orderings fs' s with
                | inl e => inl e
                | inr all_orderings => inr ((item :: items) :: all_orderings)
                end
              else inl TypeError
          end
      end
  end.

(** [orderings()]: one dict is returned as a copy, several are combined
    into a dict of lists. *)
Definition orderings : M (list (Apply * Prereqs)) :=
  let* fs := gets _features in
  λ s, match collect_orderings fs s with
       | inl e => Exn e s
       | inr [od] => Ret od s
       | inr all_orderings =>
           Ret ((λ it, (it.1, PList it.2)) <$> merge_orderings all_orderings) s
       end.

End Orderings.

(** [d.get(node, [])], as a list of nodes. *)
Fixpoint prereqs_in (od : list (Apply * Prereqs)) (node : Apply) : list Apply :=
  match od with
  | [] => []
  | (n, p) :: rest => if decide (n = node) then prereq_nodes p else prereqs_in rest node
  end.

Fixpoint lists_in (od : list (Apply * list Apply)) (node : Apply) : list Apply :=
  match od with
  | [] => []
  | (n, l) :: rest => if decide (n = node) then l else lists_in rest node
  end.

Lemma prereqs_in_fmap od node :
  prereqs_in ((λ it, (it.1, PList it.2)) <$> od) node = lists_in od node.
Proof.
  induction od as [|[n l] od IH]; simpl; [done|]. case_decide; [done|apply IH].
Qed.

Lemma prereqs_in_not_key od node : node ∉ od.*1 → prereqs_in od node = [].
Proof.
  induction od as [|[n p] od IH]; simpl; [done|].
  intros [Hne Hin]%not_elem_of_cons. rewrite decide_False by done. by apply IH.
Qed.

Lemma setdefault_extend_lists ords node prereqs n :
  lists_in (setdefault_extend ords node prereqs) n
  = if decide (n = node) then lists_in ords n ++ prereqs else lists_in ords n.
Proof.
  induction ords as [|[k l] ords IH]; simpl.
  - repeat case_decide; congruence.
  - destruct (decide (k = node)) as [->|Hk]; simpl.
    + repeat case_decide; congruence.
    + rewrite IH. repeat case_decide; congruence.
Qed.

Lemma setdefault_extend_keys ords node prereqs :
  (setdefault_extend ords node prereqs).*1
  = if decide (node ∈ ords.*1) then ords.*1 else ords.*1 ++ [node].
Proof.
  induction ords as [|[k l] ords IH]; [done|]. cbn [setdefault_extend].
  destruct (decide (k = node)) as [->|Hk]; rewrite !fmap_cons; cbn [fst].
  - rewrite decide_True; [done|left].
  - rewrite IH. destruct (decide (node ∈ ords.*1)) as [Hin|Hout].
    + rewrite decide_True; [done|by right].
    + rewrite decide_False; [done|]. intros [?|?]%elem_of_cons; congruence.
Qed.

Lemma merge_one_lists (od : list (Apply * Prereqs)) ords n :
  NoDup od.*1 →
  lists_in (foldl (λ ords item, setdefault_extend ords item.1 (prereq_nodes item.2))
              ords od) n
  = lists_in ords n ++ prereqs_in od n.
Proof.
  revert ords. induction od as [|[k p] od IH]; intros ords Hnd; simpl.
  - by rewrite app_nil_r.
  - apply NoDup_cons in Hnd as [Hk Hnd]. rewrite (IH _ Hnd), setdefault_extend_lists.
    destruct (decide (n = k)) as [->|Hne].
    + rewrite decide_True by done. by rewrite (prereqs_in_not_key od k Hk), app_nil_r.
    + by rewrite decide_False by congruence.
Qed.

Lemma merge_one_keys (od : list (Apply * Prereqs)) ords :
  NoDup ords.*1 →
  NoDup (foldl (λ ords item, setdefault_extend ords item.1 (prereq_nodes item.2))
           ords od).*1
  ∧ ∀ n, n ∈ (foldl (λ ords item, setdefault_extend ords item.1 (prereq_nodes item.2))
                ords od).*1 ↔ n ∈ ords.*1 ∨ n ∈ od.*1.
Proof.
  revert ords. induction od as [|[k p] od IH]; intros ords Hnd; simpl.
  - split; [done|]. intros n. rewrite elem_of_nil. tauto.
  - assert (NoDup (setdefault_extend ords k (prereq_nodes p)).*1) as Hnd'.
    { rewrite setdefault_extend_keys. case_decide; [done|].
      apply NoDup_app. split_and!; [done| |apply NoDup_singleton].
      intros x Hx ->%list_elem_of_singleton. done. }
    destruct (IH _ Hnd') as [H1 H2]. split; [done|].
    intros n. rewrite H2, setdefault_extend_keys, elem_of_cons.
    case_decide as Hk; [|rewrite elem_of_app, list_elem_of_singleton];
      split; try tauto.
    intros [?|[->|?]]; tauto.
Qed.

Lemma merge_orderings_from all ords n :
  Forall (λ od : list (Apply * Prereqs), NoDup od.*1) all →
  lists_in (foldl (λ ords orderings,
              foldl (λ ords item, setdefault_extend ords item.1 (prereq_nodes item.2))
                ords orderings) ords all) n
  = lists_in ords n ++ concat ((λ od, prereqs_in od n) <$> all).
Proof.
  revert ords. induction all as [|od all IH]; intros ords Hall; simpl.
  - by rewrite app_nil_r.
  - apply Forall_cons in Hall as [Hod Hall].
    rewrite (IH _ Hall), merge_one_lists by done. by rewrite app_assoc.
Qed.

Lemma merge_orderings_keys all ords :
  NoDup ords.*1 →
  NoDup (foldl (λ ords orderings,
           foldl (λ ords item, setdefault_extend ords item.1 (prereq_nodes item.2))
             ords orderings) ords all).*1.
Proof.
  revert ords. induction all as [|od all IH]; intros ords Hnd; simpl; [done|].
  apply IH. by apply merge_one_keys.
Qed.

Section OrderingsProps.
Variable feature_orderings : Feature → option (State → Exc + OrderingsValue).

(** The dicts the features return that are not empty, in the order of the
    features. *)
Definition nonempty_dicts (fs : list Feature) (s : State) : list (list (Apply * Prereqs)) :=
  omap (λ f, match feature_orderings f with
             | Some call =>
                 match call s with
                 | inr (AnOrderedDict (item :: items)) => Some (item :: items)
                 | _ => None
                 end
             | None => None
             end) fs.

Lemma collect_orderings_inr fs s all :
  collect_orderings feature_orderings fs s = inr all → all = nonempty_dicts fs s.
Proof.
  revert all. induction fs as [|f fs IH]; intros all; simpl.
  - by intros [= <-].
  - unfold nonempty_dicts. simpl. fold (nonempty_dicts fs s).
    destruct (feature_orderings f) as [call|]; [|apply IH].
    destruct (call s) as [e|[[|item items]|]]; [done|apply IH| |done].
    match goal with |- (if ?b then _ else _) = _ → _ => destruct b end; [|done].
    destruct (collect_orderings feature_orderings fs s) as [e|all']; [done|].
    intros [= <-]. by rewrite (IH all' eq_refl).
Qed.

Lemma nonempty_dicts_NoDup fs s :
  (∀ f call items, f ∈ fs → feature_orderings f = Some call →
     call s = inr (AnOrderedDict items) → NoDup items.*1) →
  Forall (λ od : list (Apply * Prereqs), NoDup od.*1) (nonempty_dicts fs s).
Proof.
  induction fs as [|f fs IH]; intros Hnd; [constructor|].
  unfold nonempty_dicts. simpl. fold (nonempty_dicts fs s).
  assert (Forall (λ od : list (Apply * Prereqs), NoDup od.*1) (nonempty_dicts fs s)) as Hrest.
  { apply IH. intros g call items Hg. apply Hnd. by right. }
  destruct (feature_orderings f) as [call|] eqn:Hf; [|done].
  destruct (call s) as [e|[[|item items]|]] eqn:Hc; try done.
  constructor; [|done]. apply (Hnd f call (item :: items)); [left|done..].
Qed.

(** X23. [orderings] combines what the features ask for: when no dict a
    feature returns has a key twice and [orderings()] returns, the graph is
    as it was, the dict returned has no key twice, and for every node the
    prerequisites it gives are those of the dicts of the features, in the
    order of the feature list, one after the other (features without the
    method or with an empty dict give none). *)
Theorem orderings_merges s ords s' :
  (∀ f call items, f ∈ _features s → feature_orderings f = Some call →
     call s = inr (AnOrderedDict items) → NoDup items.*1) →
  orderings feature_orderings s = Ret ords s' →
  s' = s
  ∧ NoDup ords.*1
  ∧ ∀ node, prereqs_in ords node
            = concat ((λ od, prereqs_in od node) <$> nonempty_dicts (_features s) s).
Proof.
  intros Hnd Hrun. unfold orderings, bind, gets in Hrun.
  destruct (collect_orderings feature_orderings (_features s) s) as [e|all] eqn:Hall;
    [done|].
  apply collect_orderings_inr in Hall as ->.
  pose proof (nonempty_dicts_NoDup _ _ Hnd) as Hdicts.
  assert (∀ all, Forall (λ od : list (Apply * Prereqs), NoDup od.*1) all →
    NoDup ((λ it : Apply * list Apply, (it.1, PList it.2)) <$> merge_orderings all).*1
    ∧ ∀ node, prereqs_in ((λ it, (it.1, PList it.2)) <$> merge_orderings all) node
              = concat ((λ od, prereqs_in od node) <$> all)) as Hmerge.
  { intros all Hall. split.
    - rewrite <- list_fmap_compose.
      apply (merge_orderings_keys all []). constructor.
    - intros node. rewrite prereqs_in_fmap. unfold merge_orderings.
      by rewrite merge_orderings_from. }
  destruct (nonempty_dicts (_features s) s) as [|od [|od' all]] eqn:Hd.
  - injection Hrun as <- <-. split; [done|]. by apply (Hmerge []).
  - injection Hrun as <- <-. split; [done|]. split.
    + by apply Forall_cons in Hdicts as [? _].
    + intros node. simpl. by rewrite app_nil_r.
  - injection Hrun as <- <-. split; [done|]. by apply Hmerge.
Qed.

End OrderingsProps.

(** Two features with an [orderings] method on the example graph. *)
Definition ex_orderings (f : Feature) : option (State → Exc + OrderingsValue) :=
  if decide (f = 1%positive) then
    Some (λ _, inr (AnOrderedDict [(10%positive, PList [11%positive])]))
  else if decide (f = 100%positive) then
    Some (λ _, inr (AnOrderedDict [(10%positive, POrderedSet [12%positive]);
                                   (11%positive, PList [10%positive])]))
  else None.

Lemma orderings_merges_witness :
  ex_graph = ex_graph
  ∧ NoDup [(10%positive, PList [11; 12]%positive); (11%positive, PList [10%positive])].*1
  ∧ ∀ node, prereqs_in [(10%positive, PList [11; 12]%positive);
                        (11%positive, PList [10%positive])] node
            = concat ((λ od, prereqs_in od node)
                        <$> nonempty_dicts ex_orderings (_features ex_graph) ex_graph).
Proof.
  refine (orderings_merges ex_orderings ex_graph
            [(10%positive, PList [11; 12]%positive); (11%positive, PList [10%positive])]
            ex_graph _ _).
  - intros f call items Hf Hcall Hitems. unfold ex_orderings in Hcall.
    repeat case_decide; simplify_eq; simpl; apply (bool_decide_unpack _); by vm_compute.
  - by vm_compute.
Defined.


(** ** Member variables are closed under use

    In a graph at rest every variable a member uses is a member variable:
    the inputs of the member nodes, the elements of [outputs], and the
    outputs of the member nodes are in [variables]. This needs the outputs
    of a node to know their owner. *)

(** [node.outputs] and [var.owner] agree. *)
Definition env_wf (E : Env) : Prop :=
  ∀ n o, o ∈ node_outputs E n → var_owner E o = Some n.

(** Every variable held by a position of a member outside [hole], and
    every output of a member node, is in [variables]. *)
Definition closed_but (E : Env) (hole : Client * Z → bool) (s : State) : Prop :=
  (∀ v e, edge_live s v e → hole e = false → v ∈ variables s)
  ∧ (∀ n o, n ∈ apply_nodes s → o ∈ node_outputs E n → o ∈ variables s).

Definition closed (E : Env) (s : State) : Prop := closed_but E (λ _, false) s.

Lemma edge_live_same s s' v e :
  node_inputs s' = node_inputs s → outputs s' = outputs s →
  apply_nodes s' = apply_nodes s →
  edge_live s' v e ↔ edge_live s v e.
Proof.
  intros Hn Ho Ha. unfold edge_live.
  destruct e as [[|n] i]; simpl; unfold inputs_of; by rewrite ?Hn, ?Ho, ?Ha.
Qed.

Lemma closed_but_mono E hole s s' :
  node_inputs s' = node_inputs s → outputs s' = outputs s →
  apply_nodes s' = apply_nodes s → variables s ⊆ variables s' →
  closed_but E hole s → closed_but E hole s'.
Proof.
  intros Hn Ho Ha Hv [H1 H2]. split.
  - intros v e Hl Hh. apply Hv, (H1 v e); [|done]. by apply (edge_live_same s s').
  - intros n o Hin Hout. apply Hv, (H2 n o); [|done]. by rewrite <- Ha.
Qed.

Lemma for_each_adds {A} (g : A → Var) (f : A → M unit) l s s' :
  (∀ x s1 s2, f x s1 = Ret tt s2 → variables s1 ⊆ variables s2 ∧ g x ∈ variables s2) →
  for_each f l s = Ret tt s' →
  variables s ⊆ variables s' ∧ ∀ x, x ∈ l → g x ∈ variables s'.
Proof.
  intros Hf. revert s. induction l as [|x l IH]; intros s; simpl.
  - intros [_ ->]%ret_Ret. split; [done|]. by intros x ?%elem_of_nil.
  - intros (u & s1 & Hx & Hrun)%bind_Ret_inv. destruct u.
    destruct (Hf _ _ _ Hx) as [Hsub Hin]. destruct (IH _ Hrun) as [Hsub' Hall].
    split; [by etrans|]. intros y [->|Hy]%elem_of_cons; [by apply Hsub'|by apply Hall].
Qed.

Section ClosedImport.
Variable E : Env.

Lemma import_new_node_frame reason node s :
  import_frame s (final (import_new_node E reason node s)).
Proof.
  apply (preserves_import_new_node E _ (import_frame_stable E s)), import_frame_refl.
Qed.

Lemma setup_add_Ret v s s' :
  (let* _ := setup_var v in variables_add v) s = Ret tt s' →
  variables s' = variables s ∪ {[v]}.
Proof.
  intros (u & s1 & Hsv & Hva)%bind_Ret_inv.
  apply modify_Ret in Hsv as ->. by apply modify_Ret in Hva as ->.
Qed.

(** A node imported: its outputs and its inputs are member variables. *)
Lemma import_new_node_variables reason node s s' :
  import_new_node E reason node s = Ret tt s' →
  (∀ o, o ∈ node_outputs E node → o ∈ variables s')
  ∧ (∀ v, v ∈ inputs_of s node → v ∈ variables s').
Proof.
  intros Hrun. unfold import_new_node, setup_node in Hrun.
  apply bind_Ret_inv in Hrun as (ns & s0 & Hns & Hrun).
  apply gets_Ret in Hns as [-> ->].
  destruct (decide (node ∈ apply_nodes s)) as [|Hnode]; [done|].
  apply bind_Ret_inv in Hrun as (u0 & s0 & Hsetup & Hrun).
  assert (s0 = s) as ->.
  { destruct (bad_view_map E node); [done|].
    destruct (bad_destroy_map E node); [done|]. by apply ret_Ret in Hsetup as [_ ->]. }
  clear Hsetup.
  apply bind_Ret_inv in Hrun as (u1 & s1 & Hadd & Hrun).
  apply modify_Ret in Hadd as ->.
  apply bind_Ret_inv in Hrun as (u2 & s2 & Htag & Hrun).
  apply modify_Ret in Htag as ->.
  apply bind_Ret_inv in Hrun as (u3 & s3 & Houts & Hrun). destruct u3.
  apply bind_Ret_inv in Hrun as (ins & s4 & Hins & Hrun).
  apply gets_Ret in Hins as [-> ->].
  apply bind_Ret_inv in Hrun as (u5 & s5 & Hloop & Hrun).
  destruct u5. apply execute_callbacks_Ret in Hrun as ->.
  pose proof Houts as Houts'.
  apply (for_each_adds (λ o, o)) in Houts as [Hsub3 Houts].
  2: { intros o s6 s7 Ho%setup_add_Ret. rewrite Ho. set_solver. }
  assert (node_inputs s3 = node_inputs s) as Hni.
  { eapply (for_each_Ret (λ s', node_inputs s' = node_inputs s)); [| |exact Houts']; [|done].
    intros o s6 s7 _ Hs6 (u & s8 & Hsv & Hva)%bind_Ret_inv.
    apply modify_Ret in Hsv as ->. by apply modify_Ret in Hva as ->. }
  unfold inputs_of in Hloop. rewrite Hni in Hloop. fold (inputs_of s node) in Hloop.
  apply (for_each_adds (λ x : Z * Var, x.2)) in Hloop as [Hsub5 Hins].
  2: { intros [i x] s6 s7 Hstep. unfold add_client, get_clients in Hstep.
       apply bind_Ret_inv in Hstep as (vs & s0 & Hvs & Hstep).
       apply gets_Ret in Hvs as [-> ->].
       apply bind_Ret_inv in Hstep as (u & s8 & Hset & Hstep). destruct u.
       apply bind_Ret_inv in Hstep as (cs & s9 & Hcs & Hstep).
       apply bind_Ret_inv in Hcs as (c & s10 & Hc & Hcs). apply gets_Ret in Hc as [-> ->].
       destruct (clients s8 !! x); [|done]. apply ret_Ret in Hcs as [-> ->].
       apply modify_Ret in Hstep as ->. simpl.
       case_decide as Hin.
       - apply ret_Ret in Hset as [_ ->]. done.
       - apply setup_add_Ret in Hset. rewrite Hset. set_solver. }
  simpl. split.
  - intros o Ho. by apply Hsub5, Houts.
  - intros v [k Hk]%list_elem_of_lookup.
    apply (Hins (Z.of_nat k, v)). apply elem_of_enumerate_from. by exists k.
Qed.

Lemma closed_but_import_new_node hole reason node s s' :
  closed_but E hole s → import_new_node E reason node s = Ret tt s' →
  closed_but E hole s'.
Proof.
  intros [H1 H2] Hrun.
  pose proof (import_new_node_frame reason node s) as Hfr. rewrite Hrun in Hfr.
  destruct Hfr as (Hni & Hou & _ & _ & _ & _ & _ & Hvars & _). simpl in *.
  destruct (import_new_node_variables _ _ _ _ Hrun) as [Houts Hins].
  apply import_new_node_Ret in Hrun as (_ & Ha & _).
  split.
  - intros v [c i] (H0 & Hsl & Hm) Hh. simpl in *.
    destruct (decide (c = CNode node)) as [->|Hne].
    + apply Hins. simpl in Hsl. unfold inputs_of in *. rewrite Hni in Hsl.
      rewrite py_getitem_nonneg in Hsl by done. by eapply list_elem_of_lookup_2.
    + apply Hvars, (H1 v (c, i)); [|done]. split_and!; [done| |]; simpl.
      * destruct c; simpl in *; unfold inputs_of in *; by rewrite <- ?Hni, <- ?Hou.
      * destruct c as [|n]; simpl in *; [done|]. rewrite Ha in Hm.
        apply elem_of_union in Hm as [?|Hm%elem_of_singleton]; [done|congruence].
  - intros n o Hn Ho. rewrite Ha in Hn.
    apply elem_of_union in Hn as [Hn|Hn%elem_of_singleton].
    + by apply Hvars, (H2 n o).
    + subst n. by apply Houts.
Qed.

Lemma closed_but_import_node hole apply_node check reason import_missing s s' :
  closed_but E hole s →
  import_node E apply_node check reason import_missing s = Ret tt s' →
  closed_but E hole s'.
Proof.
  intros Hs Hrun. unfold import_node in Hrun.
  apply bind_Ret_inv in Hrun as (new_nodes & s0 & Hn & Hrun).
  apply gets_Ret in Hn as [-> ->].
  apply bind_Ret_inv in Hrun as (u & s1 & Hcheck & Hrun). destruct u.
  assert (closed_but E hole s1) as Hs1.
  { destruct check; [|by apply ret_Ret in Hcheck as [_ ->]].
    eapply (for_each_Ret (closed_but E hole)); [|exact Hs|exact Hcheck].
    intros node s2 s3 _ Hs2 Hstep.
    pose proof (preserves_import_node_check E _ (import_frame_stable E s2)
                  import_missing node s2 (import_frame_refl s2)) as Hfr.
    rewrite Hstep in Hfr. destruct Hfr as (Hni & Hou & _ & _ & _ & _ & _ & Hvars & _).
    apply import_node_check_members in Hstep as (Ha & _).
    by apply (closed_but_mono E hole s2 s3). }
  eapply (for_each_Ret (closed_but E hole)); [|exact Hs1|exact Hrun].
  intros node s2 s3 _. apply closed_but_import_new_node.
Qed.

Lemma closed_but_import_var hole v reason import_missing s s' :
  closed_but E hole s →
  import_var E v reason import_missing s = Ret tt s' →
  closed_but E hole s' ∧ v ∈ variables s'.
Proof.
  intros Hs Hrun. unfold import_var in Hrun.
  apply bind_Ret_inv in Hrun as (ns & s0 & Hn & Hrun).
  apply gets_Ret in Hn as [-> ->].
  apply bind_Ret_inv in Hrun as (missing & s0 & Hm & Hrun).
  apply gets_Ret in Hm as [-> ->].
  apply bind_Ret_inv in Hrun as (u & s1 & Himp & Hrun). destruct u.
  assert (closed_but E hole s1) as Hs1.
  { destruct (var_owner E v) as [owner|].
    - case_decide; [by apply ret_Ret in Himp as [_ ->]|]. by eapply closed_but_import_node.
    - destruct (is_missing_input E s v) eqn:Hmiss; [|by apply ret_Ret in Himp as [_ ->]].
      destruct (is_NullType E (var_type E v)); [done|].
      destruct import_missing; [|done].
      rewrite add_input_true_Ret in Himp by (by eapply is_missing_input_not_in).
      injection Himp as <-. apply (closed_but_mono E hole s); try done. simpl. set_solver. }
  apply setup_add_Ret in Hrun as Hv.
  apply bind_Ret_inv in Hrun as (u & s2 & Hsv & Hva).
  apply modify_Ret in Hsv as ->. apply modify_Ret in Hva as ->.
  split; [|simpl; set_solver].
  apply (closed_but_mono E hole s1); try done. simpl. set_solver.
Qed.

End ClosedImport.

Lemma NoDup_enumerate_from {A} k (l : list A) : NoDup (enumerate_from k l).
Proof.
  revert k. induction l as [|x l IH]; intros k; simpl; constructor; [|apply IH].
  intros (j & Hj & _)%elem_of_enumerate_from. lia.
Qed.

Lemma NoDup_input_edges p ins : NoDup (input_edges p ins).
Proof.
  unfold input_edges, enumerate. apply NoDup_fmap_2; [|apply NoDup_enumerate_from].
  intros [i x] [j y] [= -> ->]. done.
Qed.

Section ClosedRemoval.
Variable E : Env.
Hypothesis Hwf : env_wf E.

(** The invariant of the loop of [remove_client] on a graph whose client
    lists are exact: the entries of the worklist are pairwise distinct and
    still in the client lists, and the member variables are closed under
    use. *)
Record prune_inv (s : State) (stack : list (Var * (Client * Z))) : Prop := {
  pi_inv : removal_inv true s stack (λ _, False);
  pi_nodup : NoDup stack;
  pi_present : ∀ v e, (v, e) ∈ stack → ∃ cs, clients s !! v = Some cs ∧ e ∈ cs;
  pi_closed : closed E s
}.

(** [remove_unused] that returned, with everything it did. *)
Lemma remove_unused_full var reason s pushed s' :
  remove_unused E var reason s = Ret pushed s' →
  (var_owner E var = None ∧ pushed = []
   ∧ s' = set_variables (λ vs, vs ∖ {[var]}) s)
  ∨ (pushed = [] ∧ s' = s)
  ∨ (∃ p, var_owner E var = Some p ∧ p ∈ apply_nodes s
       ∧ (∀ o, o ∈ node_outputs E p → clients s !! o = Some [])
       ∧ s' = pruned E p reason s
       ∧ pushed = input_edges p (inputs_of s p)).
Proof.
  intros Hrun. unfold remove_unused in Hrun.
  destruct (var_owner E var) as [p|] eqn:Hp.
  - apply bind_Ret_inv in Hrun as (c & s0 & Hc & Hrun).
    apply gets_Ret in Hc as [-> ->].
    destruct (any_output_has_clients E (clients s) (node_outputs E p)) as [x|[|]] eqn:Hany;
      [done| |].
    { apply ret_Ret in Hrun as [-> ->]. right. by left. }
    apply bind_Ret_inv in Hrun as (u0 & s0 & Htag & Hrun).
    apply modify_Ret in Htag as ->.
    apply bind_Ret_inv in Hrun as (ns & s0 & Hns & Hrun).
    apply gets_Ret in Hns as [-> ->]. simpl in Hrun.
    case_decide as Hmem; [|done].
    apply bind_Ret_inv in Hrun as (u1 & s1 & H1 & Hrun). apply modify_Ret in H1 as ->.
    apply bind_Ret_inv in Hrun as (u2 & s2 & H2 & Hrun). apply modify_Ret in H2 as ->.
    apply bind_Ret_inv in Hrun as (u3 & s3 & H3 & Hrun). destruct u3.
    apply execute_callbacks_Ret in H3 as ->.
    apply bind_Ret_inv in Hrun as (ins & s4 & H4 & Hrun).
    apply gets_Ret in H4 as [-> ->]. apply ret_Ret in Hrun as [-> ->].
    right. right. exists p. split_and!; try done.
    by apply (proj1 (any_output_has_clients_false E _ _)).
  - apply bind_Ret_inv in Hrun as (vs & s0 & Hvs & Hrun).
    apply gets_Ret in Hvs as [-> ->].
    case_decide; [|done].
    apply bind_Ret_inv in Hrun as (u & s1 & Hm & Hrun). apply modify_Ret in Hm as ->.
    apply ret_Ret in Hrun as [-> ->]. by left.
Qed.

(** The end of a turn on a variable whose client list is empty. *)
Lemma prune_inv_remove_unused s v rest reason pushed s' :
  prune_inv s rest → clients s !! v = Some [] →
  remove_unused E v reason s = Ret pushed s' →
  prune_inv s' (reverse pushed ++ rest).
Proof.
  intros [Hri Hnd Hpres [Hc1 Hc2]] Hv Hrun.
  pose proof (removal_inv_remove_unused E true _ _ _ _ _ _ _ Hri Hrun) as Hri'.
  destruct Hri as [_ Hcomp]. destruct (Hcomp eq_refl) as [Hco Hde].
  apply remove_unused_full in Hrun
    as [(Hown & -> & ->)|[[-> ->]|(p & Hown & Hp & Houts & -> & ->)]].
  - split; [done|done|done|]. split.
    + intros w e' Hl _. simpl. apply elem_of_difference. split; [by eapply Hc1|].
      intros ->%elem_of_singleton.
      destruct (Hco v e') as (cs & Hcs & He'); [done|by intros []|].
      rewrite Hv in Hcs. injection Hcs as <-. by apply elem_of_nil in He'.
    + intros n o Hn Ho. simpl in *. apply elem_of_difference. split; [by eapply Hc2|].
      intros ->%elem_of_singleton. apply Hwf in Ho. congruence.
  - by split.
  - split; [done| | |].
    + apply NoDup_app. split_and!; [rewrite reverse_Permutation; apply NoDup_input_edges| |done].
      intros [w e'] Hin Hrest. rewrite elem_of_reverse in Hin.
      apply elem_of_input_edges in Hin as (j & -> & Hj).
      apply (Hde w (CNode p, Z.of_nat j) Hrest). split_and!; simpl; [lia| |done].
      by rewrite py_getitem_nonneg, Nat2Z.id by lia.
    + intros w e' [Hin|Hin]%elem_of_app; [|by apply Hpres].
      rewrite elem_of_reverse in Hin. apply elem_of_input_edges in Hin as (j & -> & Hj).
      apply Hco; [|by intros []]. split_and!; simpl; [lia| |done].
      by rewrite py_getitem_nonneg, Nat2Z.id by lia.
    + split.
      * intros w [c i] (H0 & Hsl & Hm) _. simpl in *.
        assert (edge_live s w (c, i)) as Hl.
        { split_and!; [done..|]. destruct c as [|n]; simpl in *; [done|].
          by apply elem_of_difference in Hm as [Hm _]. }
        apply elem_of_difference. split; [by eapply Hc1|].
        intros Ho%elem_of_list_to_set.
        destruct (Hco w (c, i)) as (cs & Hcs & He'); [done|by intros []|].
        rewrite (Houts w Ho) in Hcs. injection Hcs as <-. by apply elem_of_nil in He'.
      * intros n o Hn Ho. simpl in *. apply elem_of_difference in Hn as [Hn Hne].
        apply elem_of_difference. split; [by eapply Hc2|].
        intros Ho'%elem_of_list_to_set. apply Hwf in Ho, Ho'.
        apply Hne, elem_of_singleton. congruence.
Qed.

Lemma prune_inv_step s v e rest reason pushed s' :
  prune_inv s ((v, e) :: rest) →
  remove_client_step E v e reason s = Ret pushed s' →
  prune_inv s' (reverse pushed ++ rest).
Proof.
  intros [Hri Hnd Hpres Hcl] Hrun. unfold remove_client_step, get_clients in Hrun.
  apply bind_Ret_inv in Hrun as (cs & s0 & Hcs & Hrun).
  apply bind_Ret_inv in Hcs as (c & s1 & Hc & Hcs).
  apply gets_Ret in Hc as [-> ->].
  destruct (clients s !! v) as [cs0|] eqn:Hv; [|done].
  apply ret_Ret in Hcs as [-> ->].
  apply bind_Ret_inv in Hrun as (var_clients & s1 & Hrem & Hrun).
  destruct (Hpres v e) as (cs1 & Hv1 & He); [left|].
  assert (cs1 = cs0) as -> by congruence.
  destruct (list_remove e cs0) as [cs'|] eqn:Hr.
  2: { by apply list_remove_None in Hr. }
  apply bind_Ret_inv in Hrem as (u & s2 & Hm & Hrem).
  apply modify_Ret in Hm as ->. apply ret_Ret in Hrem as [-> ->].
  apply NoDup_cons in Hnd as [Hfresh Hnd].
  assert (prune_inv (set_clients <[v := cs']> s) rest) as Hs1.
  { split; [by eapply removal_inv_remove|done| |].
    - intros w e' Hin. destruct (Hpres w e') as (cs & Hw & He'); [by right|].
      simpl. destruct (decide (v = w)) as [<-|Hne].
      + exists cs'. rewrite lookup_insert_eq. split; [done|].
        assert (cs = cs0) as -> by congruence.
        apply (list_remove_elem_of _ e' _ _ Hr) in He' as [->|He']; done.
      + exists cs. by rewrite lookup_insert_ne.
    - by apply (closed_but_mono E _ s). }
  destruct cs' as [|x cs'].
  - eapply prune_inv_remove_unused; [exact Hs1| |exact Hrun].
    simpl. by rewrite lookup_insert_eq.
  - by apply ret_Ret in Hrun as [-> ->].
Qed.

Lemma prune_inv_loop fuel stack reason s s' :
  prune_inv s stack →
  remove_client_loop E fuel stack reason s = Some (Ret tt s') →
  prune_inv s' [].
Proof.
  revert stack s. induction fuel as [|fuel IH]; intros [|[v e] rest] s Hs; simpl;
    try (by intros [= <-]); try done.
  destruct (remove_client_step E v e reason s) as [pushed s1|x s1] eqn:Hstep; [|done].
  apply IH. by eapply prune_inv_step.
Qed.

Lemma prune_inv_remove_client v e reason s s' :
  prune_inv s [(v, e)] →
  remove_client E v e reason s = Ret tt s' →
  prune_inv s' [].
Proof.
  intros Hs. unfold remove_client.
  destruct (remove_client_loop E (removal_fuel s) [(v, e)] reason s) as [r|] eqn:Hl;
    [|done].
  intros ->. by eapply prune_inv_loop.
Qed.

End ClosedRemoval.

Section ClosedChange.
Variable E : Env.
Hypothesis Hwf : env_wf E.

(** An import leaves the entries of the client lists where they are. *)
Lemma import_var_keeps_client v reason import_missing s s' r e cs :
  import_var E v reason import_missing s = Ret tt s' →
  clients s !! r = Some cs → e ∈ cs →
  ∃ cs', clients s' !! r = Some cs' ∧ e ∈ cs'.
Proof.
  intros Hrun Hr He. pose proof (import_var_frame E v reason import_missing s) as Hfr.
  rewrite Hrun in Hfr. destruct Hfr as (_ & _ & _ & _ & _ & _ & _ & _ & _ & _ & Hcl).
  destruct (Hcl r cs Hr) as (cs' & Hr' & Hpre). exists cs'. split; [done|].
  destruct Hpre as [k ->]. apply elem_of_app. by left.
Qed.

Lemma closed_change_input node i new_var reason import_missing s s' :
  well_formed true s → closed E s → member s node → 0 ≤ i →
  change_input E node i new_var reason import_missing s = Ret tt s' →
  closed E s'.
Proof.
  intros Hs Hcl Hm Hi Hrun.
  pose proof Hrun as Hrun0. unfold change_input in Hrun0.
  apply bind_Ret_inv in Hrun0 as (r & s1 & Hslot & _).
  apply change_slot_Ret in Hslot as (Hr & _ & _); [|done]. clear s1.
  destruct (decide (r = new_var)) as [->|Hne].
  { rewrite (change_input_same E _ _ _ _ reason import_missing Hr) in Hrun.
    by injection Hrun as <-. }
  destruct (change_input_Ret E _ _ _ _ _ _ _ _ Hi Hr Hne Hrun)
    as (s2 & csn & s4 & Himp & Hcsn & Hrem & ->).
  pose proof (graph_inv_write_slot true s node i new_var r Hs Hm Hi Hr Hne) as H1.
  pose proof (graph_inv_import_var E _ _ _ _ _ _ _ _ _ H1 Himp) as H2.
  destruct (write_slot_fields node i new_var s) as (Ha & Hc & Hvars & _).
  assert (node_inputs s2 = node_inputs (write_slot node i new_var s)
          ∧ outputs s2 = outputs (write_slot node i new_var s)) as [Hni Hou].
  { eapply (preserves_Ret _ _ _ _ _
      (preserves_import_var E _ (slots_import_stable E _ _) new_var reason import_missing));
      [|exact Himp]. done. }
  assert (member s2 node) as Hm2.
  { apply (gi_pend _ _ _ _ _ H2 r (node, i)). left. }
  assert (slot s2 node i = Some new_var) as Hnew.
  { assert (slot s2 node i = slot (write_slot node i new_var s) node i) as ->.
    { destruct node; simpl; unfold inputs_of; by rewrite ?Hni, ?Hou. }
    rewrite (slot_write_slot s node i new_var r node i) by done.
    by rewrite decide_True. }
  assert ((node, i) ∉ csn) as Hfresh.
  { by apply (gi_absent _ _ _ _ _ H2 new_var (node, i)). }
  assert (graph_inv true (set_clients <[new_var := csn ++ [(node, i)]]> s2)
            [(r, (node, i))] (λ _, False) (λ _ _, False)) as H3.
  { eapply graph_inv_hole.
    - eapply graph_inv_append; [|done..|].
      + eapply graph_inv_absent; [exact H2|]. by intros.
      + by intros [].
    - intros v e _ [-> Hc']. done. }
  assert (closed_but E (λ e, bool_decide (e = (node, i))) (write_slot node i new_var s))
    as Hc1.
  { destruct Hcl as [Hl Ho]. split.
    - intros v [c j] (H0 & Hsl & Hmem) Hh%bool_decide_eq_false. rewrite Hvars.
      apply (Hl v (c, j)); [|done]. simpl in *.
      rewrite (slot_write_slot s node i new_var r c j), decide_False in Hsl by done.
      split_and!; [done..|]. destruct c; simpl in *; by rewrite <- ?Ha.
    - intros n o Hn Ho'. rewrite Hvars. apply (Ho n o); [|done]. by rewrite <- Ha. }
  destruct (closed_but_import_var E _ _ _ _ _ _ Hc1 Himp) as [[Hl2 Ho2] Hin].
  assert (prune_inv E (set_clients <[new_var := csn ++ [(node, i)]]> s2)
            [(r, (node, i))]) as Hp.
  { split.
    - by eapply graph_inv_removal.
    - apply NoDup_singleton.
    - intros v e Hve%list_elem_of_singleton. injection Hve as -> ->.
      destruct (gi_complete _ _ _ _ _ Hs eq_refl) as [Hco _].
      destruct (Hco r (node, i)) as (cs & Hcs & He); [done|by intros []|].
      rewrite <- Hc in Hcs.
      destruct (import_var_keeps_client _ _ _ _ _ _ _ _ Himp Hcs He) as (cs' & Hcs' & He').
      exists cs'. simpl. by rewrite lookup_insert_ne.
    - split.
      + intros v e Hl _. destruct (decide (e = (node, i))) as [->|Hne'].
        * destruct Hl as (_ & Hsl & _). simpl in Hsl.
          change (slot s2 node i = Some v) in Hsl. by assert (v = new_var) as -> by congruence.
        * apply (Hl2 v e); [done|]. by apply bool_decide_eq_false.
      + done. }
  apply (prune_inv_remove_client E Hwf _ _ _ _ _ Hp) in Hrem as [_ _ _ Hc4].
  by apply (closed_but_mono E _ s4).
Qed.

(** The loop of [replace], for any property [change_input] keeps on the
    graphs whose client lists are exact. *)
Lemma replace_loop_keeps (P : State → Prop) var new_var reason import_missing rem s s' :
  (∀ node i s s1, well_formed true s → P s → member s node → 0 ≤ i →
     change_input E node i new_var reason import_missing s = Ret tt s1 → P s1) →
  well_formed true s → P s → NoDup rem →
  (∀ e, e ∈ rem → ∃ cs, clients s !! var = Some cs ∧ e ∈ cs) →
  for_each (λ '(node, i),
    let* _ := assert_client node i var in
    change_input E node i new_var reason import_missing) rem s = Ret tt s' →
  P s'.
Proof.
  intros HP. revert s.
  induction rem as [|[node i] rem IH]; intros s Hs Hp Hnd Hrem Hrun; simpl in Hrun.
  { by apply ret_Ret in Hrun as [_ ->]. }
  apply bind_Ret_inv in Hrun as (u & s1 & Hturn & Hrun). destruct u.
  apply bind_Ret_inv in Hturn as (u & s0 & Hassert & Hturn).
  apply assert_client_Ret in Hassert as [-> Hslot].
  destruct (Hrem (node, i)) as (cs & Hv & He); [left|].
  destruct (edge_live_well_formed _ _ _ _ _ _ Hs Hv He) as (Hi & _ & Hm).
  apply NoDup_cons in Hnd as [Hni Hnd].
  apply (IH s1); [by eapply well_formed_change_input|by eapply HP|done| |done].
  intros e' He'. destruct (Hrem e') as (cs0 & Hv0 & He0); [by right|].
  assert (cs0 = cs) as -> by congruence.
  destruct (decide (var = new_var)) as [<-|Hne].
  { rewrite (change_input_same E _ _ _ _ reason import_missing Hslot) in Hturn.
    injection Hturn as <-. by exists cs. }
  destruct (change_input_quiet E node i var new_var reason import_missing s s1 cs e'
              Hi Hslot Hne Hv He He0)
    as (s2 & csn & cs2 & cs2' & Himp & Hcsn & Hcs2 & Hr2 & ->);
    [by intros ->|exact Hturn|].
  exists cs2'. simpl. rewrite lookup_insert_eq. split; [done|].
  destruct (write_slot_fields node i new_var s) as (_ & Hc & _). rewrite <- Hc in Hv.
  destruct (import_var_keeps_client _ _ _ _ _ _ _ _ Himp Hv He0) as (cs3 & Hv3 & He3).
  assert (cs3 = cs2) as -> by congruence.
  apply (list_remove_elem_of _ e' _ _ Hr2) in He3 as [->|He3]; [|done].
  exfalso. apply Hni. done.
Qed.

Lemma closed_replace var new_var reason verbose import_missing s s' :
  well_formed true s → closed E s →
  replace E var new_var reason verbose import_missing s = Ret tt s' →
  closed E s'.
Proof.
  intros Hs Hcl Hrun.
  assert (same_core s (printed E var new_var reason verbose s)
          ∧ variables (printed E var new_var reason verbose s) = variables s) as [Hcore Hvars].
  { unfold printed. by destruct (default (optimizer_verbose E) verbose). }
  assert (well_formed true (printed E var new_var reason verbose s)) as Hp.
  { eapply graph_inv_core; [|exact Hs]. done. }
  assert (closed E (printed E var new_var reason verbose s)) as Hcp.
  { destruct Hcore as (? & ? & ? & ?). apply (closed_but_mono E _ s); try done.
    by rewrite Hvars. }
  apply replace_Ret in Hrun as (new_var' & _ & [[_ ->]|(_ & cs & Hcs & Hloop)]).
  - by apply (closed_but_mono E _ (printed E var new_var reason verbose s)).
  - eapply (replace_loop_keeps (closed E)); [|exact Hp|exact Hcp| | |exact Hloop].
    + intros node i s1 s2. apply closed_change_input.
    + by eapply (inv_nodup _ _ (gi_sound _ _ _ _ _ Hs)).
    + intros e He. exists cs. split; [|done].
      destruct Hcore as (_ & _ & _ & <-). done.
Qed.

Lemma closed_but_import_vars hole reason import_missing l s s' :
  closed_but E hole s →
  for_each (λ v, import_var E v reason import_missing) l s = Ret tt s' →
  closed_but E hole s' ∧ outputs s' = outputs s ∧ variables s ⊆ variables s'
  ∧ ∀ v, v ∈ l → v ∈ variables s'.
Proof.
  revert s. induction l as [|o l IH]; intros s Hs Hrun; simpl in Hrun.
  - apply ret_Ret in Hrun as [_ ->]. split_and!; [done..|]. by intros o ?%elem_of_nil.
  - apply bind_Ret_inv in Hrun as (u & s1 & Himp & Hrun). destruct u.
    destruct (closed_but_import_var E _ _ _ _ _ _ Hs Himp) as [H1 Hin1].
    pose proof (import_var_frame E o reason import_missing s) as Hfr.
    rewrite Himp in Hfr. simpl in Hfr.
    destruct Hfr as (_ & Hou & _ & _ & _ & _ & _ & Hv & _).
    destruct (IH s1 H1 Hrun) as (H2 & Hou2 & Hv2 & Hall).
    split_and!; [done|congruence|by etrans|].
    intros o' [->|Ho']%elem_of_cons; [by apply Hv2|by apply Hall].
Qed.

Lemma closed_init_graph ins outs features s s' :
  init_graph E ins outs features s = Ret tt s' → closed E s'.
Proof.
  intros Hrun. unfold init_graph in Hrun.
  apply bind_Ret_inv in Hrun as (u & s1 & Hfeat & Hrun). destruct u.
  apply init_features_fresh in Hfeat as (Ho1 & Ha1 & _).
  apply bind_Ret_inv in Hrun as (u & s2 & Hm & Hrun). apply modify_Ret in Hm as ->.
  clear u. apply bind_Ret_inv in Hrun as (u & s3 & Hins & Hrun). destruct u.
  apply bind_Ret_inv in Hrun as (u & s4 & Houts & Hrun). destruct u.
  pose (hole := λ e : Client * Z, bool_decide (e.1 = COutput)).
  pose (I := λ s, closed_but E hole s ∧ outputs s = outs).
  assert (I (set_inputs (λ _, []) s1)) as H2.
  { split; [|done]. split.
    - intros v [[|n] i] (_ & _ & Hm) Hh; simpl in *; [done|].
      rewrite Ha1 in Hm. by apply not_elem_of_empty in Hm.
    - intros n o Hn. simpl in Hn. rewrite Ha1 in Hn. by apply not_elem_of_empty in Hn. }
  assert (I s3) as H3.
  { eapply (for_each_Ret I); [|exact H2|exact Hins].
    intros v s5 s6 _ [Hg Ho] Hadd. destruct (var_owner E v); [done|].
    rewrite add_input_false_Ret in Hadd. injection Hadd as <-. split; [|done].
    apply (closed_but_mono E hole s5); try done. simpl. set_solver. }
  destruct (closed_but_import_vars hole _ _ _ _ _ (proj1 H3) Houts)
    as (H4 & Hou4 & _ & Hin4).
  assert (outputs s4 = outs) as Ho4 by (rewrite Hou4; apply H3).
  assert (I s' ∧ variables s' = variables s4) as [[[Hl Ho] Hou] Hv].
  { eapply (for_each_Ret (λ s, I s ∧ variables s = variables s4));
      [|split; [by split|done]|exact Hrun].
    intros [i o] s5 s6 _ [[Hg Ho] Hv] Hadd. unfold add_client, get_clients in Hadd.
    apply bind_Ret_inv in Hadd as (cs & s0 & Hcs & Hadd).
    apply bind_Ret_inv in Hcs as (c & s0' & Hc & Hcs).
    apply gets_Ret in Hc as [-> ->].
    destruct (clients s5 !! o) as [cs0|] eqn:Hv'; [|done].
    apply ret_Ret in Hcs as [-> ->]. apply modify_Ret in Hadd as ->.
    split; [split; [|done]|done]. by apply (closed_but_mono E hole s5). }
  split; [|done].
  intros v [c i] Hlive _. destruct c as [|n].
  - destruct Hlive as (H0 & Hsl & _). simpl in *. rewrite Hv. apply Hin4.
    rewrite Hou, py_getitem_nonneg in Hsl by done. by eapply list_elem_of_lookup_2.
  - by apply (Hl v (CNode n, i)).
Qed.

Lemma closed_init ins outs features clone s s' :
  __init__ E ins outs features clone s = Ret tt s' → closed E s'.
Proof.
  unfold __init__. destruct outs as [outs|]; [|done]. intros Hrun.
  apply bind_Ret_inv in Hrun as (h & s0 & Hh & Hrun).
  apply bind_Ret_inv in Hrun as ([ins' outs'] & s1 & _ & Hrun).
  by eapply closed_init_graph.
Qed.

Lemma reachable_closed s : reachable E false s → closed E s.
Proof.
  intros Hreach. pose proof (reachable_well_formed E false) as Hwell. simpl in Hwell.
  induction Hreach as [ins outs features clone s0 s Hrun
                 |v reason import_missing s s' Hr IH Hrun
                 |n check reason import_missing s s' Hr IH Hrun
                 |node i new_var reason import_missing s s' Hr IH Hm Hi Hrun
                 |var new_var reason verbose import_missing s s' Hr IH Hrun
                 |v e reason s s' Hd _ IH Hrun].
  - by eapply closed_init.
  - by eapply closed_but_import_var.
  - by eapply closed_but_import_node.
  - eapply closed_change_input; [by apply Hwell|done..].
  - eapply closed_replace; [by apply Hwell|done..].
  - done.
Qed.

(** X24. Member variables are closed under use. In a graph made by the
    constructor and any number of calls of [import_var], [import_node],
    [change_input] (on a position [i ≥ 0] of ["output"] or of a member
    node) and [replace], each returning normally, every input of a member
    node, every element of [outputs] and every output of a member node is
    in [variables], whatever was pruned on the way; the outputs of a node
    are taken to have the node as their owner. *)
Theorem members_closed s :
  reachable E false s →
  (∀ n v, n ∈ apply_nodes s → v ∈ inputs_of s n → v ∈ variables s)
  ∧ (∀ v, v ∈ outputs s → v ∈ variables s)
  ∧ (∀ n o, n ∈ apply_nodes s → o ∈ node_outputs E n → o ∈ variables s).
Proof.
  intros [Hl Ho]%reachable_closed. split_and!.
  - intros n v Hn [k Hk]%list_elem_of_lookup.
    apply (Hl v (CNode n, Z.of_nat k)); [|done]. split_and!; simpl; [lia| |done].
    by rewrite py_getitem_nonneg, Nat2Z.id by lia.
  - intros v [k Hk]%list_elem_of_lookup.
    apply (Hl v (COutput, Z.of_nat k)); [|done]. split_and!; simpl; [lia| |done].
    by rewrite py_getitem_nonneg, Nat2Z.id by lia.
  - done.
Qed.

End ClosedChange.

(** *** On the example graph, after [replace(a, y)] has pruned [Add] *)

Lemma ex_env_wf : env_wf ex_env.
Proof.
  intros n o Ho. simpl in *.
  do 5 (try (destruct n as [n|n|]); simpl in Ho; try (by apply elem_of_nil in Ho)).
  all: repeat (apply elem_of_cons in Ho as [->|Ho]; [done|]); by apply elem_of_nil in Ho.
Qed.

Lemma members_closed_witness :
  (∀ n v, n ∈ apply_nodes (final (replace ex_env 3 2 None None false ex_graph)) →
     v ∈ inputs_of (final (replace ex_env 3 2 None None false ex_graph)) n →
     v ∈ variables (final (replace ex_env 3 2 None None false ex_graph)))
  ∧ (∀ v, v ∈ outputs (final (replace ex_env 3 2 None None false ex_graph)) →
       v ∈ variables (final (replace ex_env 3 2 None None false ex_graph)))
  ∧ (∀ n o, n ∈ apply_nodes (final (replace ex_env 3 2 None None false ex_graph)) →
       o ∈ node_outputs ex_env n →
       o ∈ variables (final (replace ex_env 3 2 None None false ex_graph))).
Proof.
  refine (members_closed ex_env _
            (final (replace ex_env 3 2 None None false ex_graph)) _).
  - exact ex_env_wf.
  - eapply (reach_replace ex_env false 3 2 None None false ex_graph).
    + eapply reach_init. apply ex_graph_init.
    + by vm_compute.
Defined.

(** * Back-edge soundness over the legal uses *)

(** The states of a legal use of the container: the constructor, the
    imports, [change_input] on a position [i ≥ 0] of ["output"] or of a
    member node, [replace], and [remove_client] for an edge that is not in
    use, each returning normally. The docstring of [remove_client] asks for
    "a [(node, i)] pair such that [node.inputs[i]] will no longer be [var]
    in this [FunctionGraph]". *)
Inductive legal (E : Env) : State → Prop :=
  | legal_init ins outs features clone s0 s :
      __init__ E ins outs features clone s0 = Ret tt s →
      legal E s
  | legal_import_var v reason import_missing s s' :
      legal E s →
      import_var E v reason import_missing s = Ret tt s' →
      legal E s'
  | legal_import_node n check reason import_missing s s' :
      legal E s →
      import_node E n check reason import_missing s = Ret tt s' →
      legal E s'
  | legal_change_input node i new_var reason import_missing s s' :
      legal E s →
      member s node → 0 ≤ i →
      change_input E node i new_var reason import_missing s = Ret tt s' →
      legal E s'
  | legal_replace var new_var reason verbose import_missing s s' :
      legal E s →
      replace E var new_var reason verbose import_missing s = Ret tt s' →
      legal E s'
  | legal_remove_client v e reason s s' :
      legal E s →
      ¬ edge_live s v e →
      remove_client E v e reason s = Ret tt s' →
      legal E s'.

Section BackEdges.
Variable E : Env.

(** [remove_client] for an edge that is not in use keeps the client lists
    exact. *)
Lemma well_formed_remove_dead v e reason s s' :
  well_formed true s → ¬ edge_live s v e →
  remove_client E v e reason s = Ret tt s' →
  well_formed true s'.
Proof.
  intros Hs Hdead Hrun. apply removal_inv_graph.
  eapply (removal_inv_remove_client E true (λ _, False)); [|exact Hrun].
  destruct Hs as [Hsound Hcomp _ _]. split.
  - eapply sound_inv_pend; [exact Hsound|]. by intros x ?%elem_of_nil.
  - intros _. destruct (Hcomp eq_refl) as [Hco _]. split; [done|].
    intros w e' Hin%list_elem_of_singleton. by injection Hin as -> ->.
Qed.

Lemma legal_well_formed s : legal E s → well_formed true s.
Proof.
  induction 1 as [ins outs features clone s0 s Hrun
                 |v reason import_missing s s' _ IH Hrun
                 |n check reason import_missing s s' _ IH Hrun
                 |node i new_var reason import_missing s s' _ IH Hm Hi Hrun
                 |var new_var reason verbose import_missing s s' _ IH Hrun
                 |v e reason s s' _ IH Hdead Hrun].
  - by eapply well_formed_init.
  - by eapply graph_inv_import_var.
  - by eapply graph_inv_import_node.
  - by eapply well_formed_change_input.
  - by eapply well_formed_replace.
  - by eapply well_formed_remove_dead.
Qed.

(** C1 (as amended). Back-edge soundness. After the constructor and any
    number of calls of [import_var], [import_node], [change_input] (on a
    position [i ≥ 0] of ["output"] or of a member node), [replace] and
    [remove_client], each returning normally, every pair [(c, i)] of
    [clients[v]] is ["output"] with [outputs[i] is v] or a node with
    [c.inputs[i] is v]. When [remove_client] was called only for edges that
    were not in use, a variable that occurs in the inputs of a member node
    has a client list, and a client list has exactly as many entries for a
    member node as its variable has occurrences in the node's inputs. *)
Theorem back_edge_soundness :
  (∀ s, reachable E true s →
     ∀ v cs c i, clients s !! v = Some cs → (c, i) ∈ cs → slot s c i = Some v)
  ∧ (∀ s, legal E s →
     (∀ v cs c i, clients s !! v = Some cs → (c, i) ∈ cs → slot s c i = Some v)
     ∧ (∀ n v, n ∈ apply_nodes s →
          (v ∈ inputs_of s n → is_Some (clients s !! v))
          ∧ ∀ cs, clients s !! v = Some cs →
              client_count n cs = occurrences v (inputs_of s n))).
Proof.
  split.
  - intros s Hs%reachable_well_formed.
    by eapply consistent_back_edge_sound, well_formed_sound.
  - intros s Hs%legal_well_formed. split.
    + by eapply consistent_back_edge_sound, well_formed_sound.
    + by apply consistent_multiplicities, well_formed_consistent.
Qed.

End BackEdges.

(** C1, the claim as stated fails, in three ways. [remove_client] is among
    the public operations, and called for the edge [(Mul, 1)] of [x], which
    is in use, it takes the entry out of [clients[x]] while [Mul.inputs[1]]
    is still [x]: [x] occurs once in the inputs of the member [Mul] and
    [clients[x]] has no entry for it. [change_input] at the index [-1] of
    [Mul] leaves [(Mul, 1)] in [clients[x]] although [Mul.inputs[1]] is then
    [y]. And [change_input] on [Split], which is not a member, followed by
    the import of [Split], leaves [(Split, 0)] twice in [clients[y]] for the
    one occurrence of [y] in the inputs of [Split]. *)
Lemma back_edge_soundness_counterexample :
  (∃ s, remove_client ex_env 1 (CNode 11, 1) None ex_graph = Ret tt s
     ∧ reachable ex_env true s
     ∧ (11%positive) ∈ apply_nodes s
     ∧ inputs_of s 11 = [3; 1]%positive
     ∧ clients s !! 1%positive = Some [(CNode 10, 0)]
     ∧ ¬ multiplicities_match s)
  ∧ (∃ s, change_input ex_env (CNode 11) (-1) 2 None false ex_graph = Ret tt s
     ∧ clients s !! 1%positive = Some [(CNode 10, 0); (CNode 11, 1)]
     ∧ slot s (CNode 11) 1 = Some 2%positive
     ∧ ¬ back_edge_sound s)
  ∧ (∃ s1 s, change_input ex_env (CNode 12) 0 2 None false ex_graph = Ret tt s1
     ∧ import_node ex_env 12 true None false s1 = Ret tt s
     ∧ ((12%positive) ∉ apply_nodes ex_graph)
     ∧ (12%positive) ∈ apply_nodes s
     ∧ inputs_of s 12 = [2%positive]
     ∧ clients s !! 2%positive = Some [(CNode 10, 1); (CNode 12, 0); (CNode 12, 0)]
     ∧ ¬ multiplicities_match s).
Proof.
  split_and!.
  - exists (final (remove_client ex_env 1 (CNode 11, 1) None ex_graph)).
    assert (remove_client ex_env 1 (CNode 11, 1) None ex_graph
            = Ret tt (final (remove_client ex_env 1 (CNode 11, 1) None ex_graph))) as Hrun
      by (by vm_compute).
    assert ((11%positive) ∈ apply_nodes
              (final (remove_client ex_env 1 (CNode 11, 1) None ex_graph))) as Hmem.
    { apply (bool_decide_unpack _). by vm_compute. }
    assert (clients (final (remove_client ex_env 1 (CNode 11, 1) None ex_graph))
              !! 1%positive = Some [(CNode 10, 0)]) as Hcl by (by vm_compute).
    split_and!.
    + exact Hrun.
    + eapply (reach_remove_client ex_env true 1%positive (CNode 11, 1) None ex_graph);
        [done| |exact Hrun].
      eapply reach_init. apply ex_graph_init.
    + exact Hmem.
    + by vm_compute.
    + exact Hcl.
    + intros Hm. destruct (Hm 11%positive 1%positive Hmem) as [_ Hcount].
      specialize (Hcount _ Hcl). by vm_compute in Hcount.
  - exists (final (change_input ex_env (CNode 11) (-1) 2 None false ex_graph)).
    assert (clients (final (change_input ex_env (CNode 11) (-1) 2 None false ex_graph))
              !! 1%positive = Some [(CNode 10, 0); (CNode 11, 1)]) as Hcl by (by vm_compute).
    split_and!.
    + by vm_compute.
    + exact Hcl.
    + by vm_compute.
    + intros Hs. specialize (Hs 1%positive _ (CNode 11) 1 Hcl).
      assert ((CNode 11, 1) ∈ [(CNode 10, 0); (CNode 11, 1)]) as Hin.
      { apply (bool_decide_unpack _). by vm_compute. }
      specialize (Hs Hin). by vm_compute in Hs.
  - exists (final (change_input ex_env (CNode 12) 0 2 None false ex_graph)),
      (final (import_node ex_env 12 true None false
                (final (change_input ex_env (CNode 12) 0 2 None false ex_graph)))).
    assert ((12%positive) ∈ apply_nodes
              (final (import_node ex_env 12 true None false
                (final (change_input ex_env (CNode 12) 0 2 None false ex_graph))))) as Hmem.
    { apply (bool_decide_unpack _). by vm_compute. }
    assert (clients (final (import_node ex_env 12 true None false
                (final (change_input ex_env (CNode 12) 0 2 None false ex_graph))))
              !! 2%positive = Some [(CNode 10, 1); (CNode 12, 0); (CNode 12, 0)]) as Hcl
      by (by vm_compute).
    split_and!.
    + by vm_compute.
    + by vm_compute.
    + apply (bool_decide_unpack _). by vm_compute.
    + exact Hmem.
    + by vm_compute.
    + exact Hcl.
    + intros Hm. destruct (Hm 12%positive 2%positive Hmem) as [_ Hcount].
      specialize (Hcount _ Hcl). by vm_compute in Hcount.
Qed.

Lemma back_edge_soundness_witness :
  (∀ v cs c i,
     clients (final (replace ex_env 3 2 None None false ex_graph)) !! v = Some cs →
     (c, i) ∈ cs →
     slot (final (replace ex_env 3 2 None None false ex_graph)) c i = Some v)
  ∧ (∀ n v, n ∈ apply_nodes (final (replace ex_env 3 2 None None false ex_graph)) →
       (v ∈ inputs_of (final (replace ex_env 3 2 None None false ex_graph)) n →
        is_Some (clients (final (replace ex_env 3 2 None None false ex_graph)) !! v))
       ∧ ∀ cs, clients (final (replace ex_env 3 2 None None false ex_graph)) !! v = Some cs →
           client_count n cs
           = occurrences v (inputs_of (final (replace ex_env 3 2 None None false ex_graph)) n)).
Proof.
  refine (proj2 (back_edge_soundness ex_env)
            (final (replace ex_env 3 2 None None false ex_graph)) _).
  eapply (legal_replace ex_env 3 2 None None false ex_graph).
  - eapply legal_init. apply ex_graph_init.
  - by vm_compute.
Defined.

(** * Prune-on-disconnect *)

Section Disconnect.
Variable E : Env.
Hypothesis Hwf : env_wf E.




End Disconnect.







Section DisconnectReplace.
Variable E : Env.
Hypothesis Hwf : env_wf E.



End DisconnectReplace.

Section PruneOnDisconnect.
Variable E : Env.
Hypothesis Hwf : env_wf E.


End PruneOnDisconnect.

(** *** On the example graph *)

(** The example graph once [Split] is imported, and once [Mul] has been
    given the two outputs of [Split] as its inputs. *)
Definition ex_split : State := final (import_var ex_env 5 None false ex_graph).

Definition ex_split_used : State :=
  final (change_input ex_env (CNode 11) 1 6 None false
           (final (change_input ex_env (CNode 11) 0 5 None false ex_split))).





(** * The truth value of an output *)

Section TruthError.
Variable E : Env.

Lemma any_output_raises c outs1 o outs2 x e cs :
  (∀ o', o' ∈ outs1 → c !! o' = Some []) →
  c !! o = Some (e :: cs) → var_bool E o = Some x →
  any_output_has_clients E c (outs1 ++ o :: outs2) = inl x.
Proof.
  intros Hall Ho Hx. induction outs1 as [|o' outs1 IH]; simpl.
  - rewrite Ho. unfold truth_value. by rewrite Hx.
  - rewrite (Hall o') by left. apply IH. intros o'' Hin. apply Hall. by right.
Qed.

(** The turn of the loop that meets such an output. *)
Lemma truth_error_step var e reason s p outs1 o outs2 x c cs :
  clients s !! var = Some [e] →
  var_owner E var = Some p →
  node_outputs E p = outs1 ++ o :: outs2 →
  (∀ o', o' ∈ outs1 → o' = var ∨ clients s !! o' = Some []) →
  o ≠ var → clients s !! o = Some (c :: cs) →
  var_bool E o = Some x →
  remove_client_step E var e reason s = Exn x (set_clients <[var := []]> s).
Proof.
  intros Hcs Hown Houts Hall Hne Ho Hx.
  unfold remove_client_step, get_clients, bind, gets. rewrite Hcs. simpl.
  rewrite decide_True by done. simpl.
  unfold remove_unused. rewrite Hown. unfold bind, gets. simpl. rewrite Houts.
  rewrite (any_output_raises _ outs1 o outs2 x c cs); [done| | |done].
  - intros o' [->|Ho']%Hall; [by rewrite lookup_insert_eq|].
    destruct (decide (var = o')) as [<-|Hno]; [by rewrite lookup_insert_eq|].
    by rewrite lookup_insert_ne.
  - by rewrite lookup_insert_ne.
Qed.

(** X26. The test of the owner's outputs takes the truth value of an
    output, not of its client list. When the last client of [var] is
    removed and the owner of [var] has another output [o] with clients
    whose [bool] raises, every output before [o] being [var] or without
    clients, [remove_client] ends with that exception: the entry is out of
    [clients[var]], which is left empty, and nothing else has changed;
    nothing is pruned and no callback is made. *)
Theorem remove_client_truth_error var e reason s p outs1 o outs2 x c cs :
  clients s !! var = Some [e] →
  var_owner E var = Some p →
  node_outputs E p = outs1 ++ o :: outs2 →
  (∀ o', o' ∈ outs1 → o' = var ∨ clients s !! o' = Some []) →
  o ≠ var → clients s !! o = Some (c :: cs) →
  var_bool E o = Some x →
  remove_client E var e reason s = Exn x (set_clients <[var := []]> s).
Proof.
  intros Hcs Hown Houts Hall Hne Ho Hx.
  unfold remove_client, removal_fuel. simpl.
  by rewrite (truth_error_step var e reason s p outs1 o outs2 x c cs).
Qed.

End TruthError.

(** The example environment with a variable whose truth value raises:
    [bool(6)] is a [TypeError]. *)
Definition ex_env_truth : Env := {|
  var_type := var_type ex_env;
  var_owner := var_owner ex_env;
  is_Constant := is_Constant ex_env;
  is_NullType := is_NullType ex_env;
  node_outputs := node_outputs ex_env;
  bad_view_map := bad_view_map ex_env;
  bad_destroy_map := bad_destroy_map ex_env;
  filter_variable := filter_variable ex_env;
  io_toposort := io_toposort ex_env;
  graph_inputs := graph_inputs ex_env;
  clone_get_equiv := clone_get_equiv ex_env;
  test_value_shape := test_value_shape ex_env;
  optimizer_verbose := optimizer_verbose ex_env;
  compute_test_value := compute_test_value ex_env;
  has_method := has_method ex_env;
  call_method := call_method ex_env;
  ReplaceValidate := ReplaceValidate ex_env;
  var_bool := λ v, if decide (v = 6%positive) then Some TypeError else None
|}.

(** In [ex_split_used] the node [Mul] uses both outputs of [Split]:
    removing the one client of [5] makes [remove_client] look at [6]. *)
Lemma remove_client_truth_error_witness :
  remove_client ex_env_truth 5 (CNode 11, 0) None ex_split_used
  = Exn TypeError (set_clients <[5%positive := []]> ex_split_used).
Proof.
  refine (remove_client_truth_error ex_env_truth 5 (CNode 11, 0) None ex_split_used
            12 [5%positive] 6 [] TypeError (CNode 11, 1) [] _ _ _ _ _ _ _).
  - by vm_compute.
  - by vm_compute.
  - by vm_compute.
  - intros o' Ho'. left. by apply list_elem_of_singleton in Ho'.
  - discriminate.
  - by vm_compute.
  - by vm_compute.
Defined.
